(** * The roundabout counter of server.js

    A shallow embedding of the counting pipeline of [server.js]
    (computeSegmentBboxes, queryOverpassBboxes, deduplicateRoundabouts,
    haversineMeters, distToSegment, isNearRoute, countRoundabouts), of
    [sanitize] and of the handlers of /api/challenge, /api/leaderboard and
    /api/autocomplete, and the properties stated about them.

    Conventions.
    - A JavaScript number that is a coordinate or a distance on the map is
      a real number: arithmetic is exact, rounding is not modelled.
      Accumulators that start at [Infinity] or [-Infinity] range over
      [xnum].  The numbers of the score (the length of the route, its
      kilometres, the ratio) are doubles, with the rounding of the platform.
    - Array lengths, loop indices and counters are [nat]; OSM identifiers
      are [Z].
    - A [Map] that is only read by key is a [gmap]; a [Map] whose iteration
      order is observed is an association list in insertion order.
    - Code that awaits the network runs in the monad [M] over a [World]
      holding the console, the time slept and the number of requests sent.
    - A string that comes from outside (a field of a request, the body of
      a response, a name of the geocoder) is the list of its UTF-16 code
      units; the text of a message or of a console line is a [string].
    - An element of the map service is an [Element]; an entry of its
      answer is a [Feature], which may be no element. *)

From Stdlib Require Import Floats.
From Stdlib Require Import Reals Lra Lia ZArith.
From stdpp Require Import gmap strings list pretty sorting.

Local Open Scope R_scope.

(** ** Numbers *)

Module Num.

(** [x < y] on numbers, as a boolean. *)
Definition ltb (x y : R) : bool := if Rlt_dec x y then true else false.

(** [x === y] on numbers. *)
Definition eqb (x y : R) : bool := if Req_dec_T x y then true else false.

(** A number that may be [Infinity] or [-Infinity]. *)
Inductive xnum : Type :=
| Fin (r : R)
| PInf
| NInf.

Definition xltb (x y : xnum) : bool :=
  match x, y with
  | Fin a, Fin b => ltb a b
  | Fin _, PInf => true
  | NInf, Fin _ => true
  | NInf, PInf => true
  | _, _ => false
  end.

(** [x + b] and [x - b] for a finite [b]. *)
Definition xadd (x : xnum) (b : R) : xnum :=
  match x with Fin a => Fin (a + b) | PInf => PInf | NInf => NInf end.

Definition xsub (x : xnum) (b : R) : xnum :=
  match x with Fin a => Fin (a - b) | PInf => PInf | NInf => NInf end.

(** [Math.hypot(x, y)]. *)
Definition hypot (x y : R) : R := sqrt (x * x + y * y).

(** [Math.atan2(y, x)]. *)
Definition atan2 (y x : R) : R :=
  if ltb 0 x then atan (y / x)
  else if ltb x 0 then
    if ltb y 0 then atan (y / x) - PI else atan (y / x) + PI
  else if ltb 0 y then PI / 2
  else if ltb y 0 then - (PI / 2)
  else 0.

End Num.

Import Num.

(** ** Loops over indices *)

(** [Array.prototype.slice(i, j)] for [0 <= i] and [0 <= j]. *)
Definition slice {A : Type} (i j : nat) (l : list A) : list A :=
  take (j - i) (drop i l).

(** The values taken by [i] in [for (let i = start; i < stop; i += step)].
    The loop is run with [fuel] iterations at most; [strided_fuel] shows that
    [stop - start] iterations are never exhausted when [step] is positive. *)
Fixpoint strided (fuel start step stop : nat) : list nat :=
  match fuel with
  | O => []
  | S fuel' =>
      if (start <? stop)%nat
      then start :: strided fuel' (start + step) step stop
      else []
  end.

(** [Math.ceil(a / b)] on array lengths, for [b >= 1]. *)
Definition ceil_div (a b : nat) : nat := ((a + b - 1) / b)%nat.

(** ** Region segmenter: computeSegmentBboxes *)

(** A coordinate pair [[lon, lat]]. *)
Definition Point : Type := (R * R)%type.

Record Bbox : Type :=
  mkBbox { bbox_s : xnum; bbox_n : xnum; bbox_w : xnum; bbox_e : xnum }.

Record Extent : Type :=
  mkExtent { minLat : xnum; maxLat : xnum; minLon : xnum; maxLon : xnum }.

Definition buffer : R := 0.003.

(** One turn of [for (const [lon, lat] of segment)]. *)
Definition extend (acc : Extent) (p : Point) : Extent :=
  let '(lon, lat) := p in
  {| minLat := if xltb (Fin lat) (minLat acc) then Fin lat else minLat acc;
     maxLat := if xltb (maxLat acc) (Fin lat) then Fin lat else maxLat acc;
     minLon := if xltb (Fin lon) (minLon acc) then Fin lon else minLon acc;
     maxLon := if xltb (maxLon acc) (Fin lon) then Fin lon else maxLon acc |}.

Definition bboxOf (segment : list Point) : Bbox :=
  let ex := fold_left extend segment (mkExtent PInf NInf PInf NInf) in
  {| bbox_s := xsub (minLat ex) buffer;
     bbox_n := xadd (maxLat ex) buffer;
     bbox_w := xsub (minLon ex) buffer;
     bbox_e := xadd (maxLon ex) buffer |}.

(** [Math.max(1, Math.ceil(coords.length / maxSegments))].  With
    [maxSegments = 0] the quotient is [Infinity] and the first slice takes
    the whole array; a step of [coords.length] does the same. *)
Definition segmentSize (len maxSegments : nat) : nat :=
  match maxSegments with
  | O => Nat.max 1 len
  | _ => Nat.max 1 (ceil_div len maxSegments)
  end.

(** The slices [coords.slice(i, i + segmentSize + 1)] of the loop. *)
Definition segments (coords : list Point) (maxSegments : nat) : list (list Point) :=
  let segmentSize := segmentSize (length coords) maxSegments in
  map (fun i => slice i (i + segmentSize + 1) coords)
      (strided (length coords) 0 segmentSize (length coords)).

Definition computeSegmentBboxes (coords : list Point) (maxSegments : nat) : list Bbox :=
  let segmentSize := segmentSize (length coords) maxSegments in
  map (fun i => bboxOf (slice i (i + segmentSize + 1) coords))
      (strided (length coords) 0 segmentSize (length coords)).

(** ** Map features *)

Inductive EType : Type := node | way | relation.

#[global] Instance EType_eq_dec : EqDecision EType.
Proof. solve_decision. Defined.

(** An element of the service's answer: [{type, id, lat, lon}] for a node,
    [{type, id, nodes, tags}] for a way.  A field that is absent is [None]
    ([undefined]); [nodes] is the array of node ids of a way. *)
Record Element : Type := mkElement {
  el_type : EType;
  el_id : Z;
  el_lat : option R;
  el_lon : option R;
  el_nodes : list Z;
  el_tags : option (gmap string string)
}.

Definition typeName (t : EType) : string :=
  match t with node => "node" | way => "way" | relation => "relation" end.

(** ** A Map in insertion order *)

Section OrderedMap.
Context {K V : Type} `{EqDecision K}.

Fixpoint om_get (m : list (K * V)) (k : K) : option V :=
  match m with
  | [] => None
  | (k', v) :: rest => if decide (k = k') then Some v else om_get rest k
  end.

Definition om_has (m : list (K * V)) (k : K) : bool :=
  match om_get m k with Some _ => true | None => false end.

(** [m.set(k, v)]: a present key keeps its place, a new key goes last. *)
Fixpoint om_set (m : list (K * V)) (k : K) (v : V) : list (K * V) :=
  match m with
  | [] => [(k, v)]
  | (k', v') :: rest =>
      if decide (k = k') then (k, v) :: rest else (k', v') :: om_set rest k v
  end.

Definition om_values (m : list (K * V)) : list V := m.*2.

End OrderedMap.

(** ** Feature deduplicator (countRoundabouts, uniqueElements) *)

(** The key [`${el.type}-${el.id}`]. *)
Definition elementKey (el : Element) : string :=
  typeName (el_type el) +:+ "-" +:+ pretty (el_id el).

(** [el.id] as a condition: a number is truthy unless it is zero. *)
Definition truthy (z : Z) : bool := negb (z =? 0)%Z.

Definition dedupStep (uniqueElements : list (string * Element)) (el : Element)
  : list (string * Element) :=
  if truthy (el_id el) && negb (om_has uniqueElements (elementKey el))
  then om_set uniqueElements (elementKey el) el
  else uniqueElements.

(** [[...uniqueElements.values()]]. *)
Definition uniqueElements (allElements : list Element) : list Element :=
  om_values (fold_left dedupStep allElements []).

(** ** Node positions *)

Record LatLon : Type := mkLatLon { pos_lat : R; pos_lon : R }.

Definition recordPosition (nodePositions : gmap Z LatLon) (el : Element)
  : gmap Z LatLon :=
  match el_type el, el_lat el, el_lon el with
  | node, Some lat, Some lon => <[el_id el := mkLatLon lat lon]> nodePositions
  | _, _, _ => nodePositions
  end.

Definition nodePositionsOf (elements : list Element) : gmap Z LatLon :=
  fold_left recordPosition elements ∅.

(** ** Junction grouper: deduplicateRoundabouts *)

(** [el.tags?.junction]. *)
Definition junction (el : Element) : option string :=
  match el_tags el with Some tags => tags !! "junction" | None => None end.

Definition isRoundaboutWay (el : Element) : bool :=
  bool_decide (el_type el = way)
  && (bool_decide (junction el = Some "roundabout")
      || bool_decide (junction el = Some "circular")).

Record Grouping : Type := mkGrouping {
  nodeToGroup : gmap Z nat;
  groupId : nat;
  wayToGroup : gmap Z nat
}.

(** The search loop with [break]: the group of the first node already
    recorded, [None] for [null]. *)
Fixpoint existingGroupOf (nodeToGroup : gmap Z nat) (nodes : list Z) : option nat :=
  match nodes with
  | [] => None
  | nodeId :: rest =>
      match nodeToGroup !! nodeId with
      | Some g => Some g
      | None => existingGroupOf nodeToGroup rest
      end
  end.

(** [for (const nodeId of way.nodes) nodeToGroup.set(nodeId, g)]. *)
Definition setNodes (nodes : list Z) (g : nat) (nodeToGroup : gmap Z nat) : gmap Z nat :=
  fold_left (fun m nodeId => <[nodeId := g]> m) nodes nodeToGroup.

(** The body of the first loop over [roundaboutWays]. *)
Definition assignWay (st : Grouping) (w0 : Element) : Grouping :=
  match existingGroupOf (nodeToGroup st) (el_nodes w0) with
  | Some existingGroup =>
      {| nodeToGroup := setNodes (el_nodes w0) existingGroup (nodeToGroup st);
         groupId := groupId st;
         wayToGroup := <[el_id w0 := existingGroup]> (wayToGroup st) |}
  | None =>
      let gid := groupId st in
      {| nodeToGroup := setNodes (el_nodes w0) gid (nodeToGroup st);
         groupId := S gid;
         wayToGroup := <[el_id w0 := gid]> (wayToGroup st) |}
  end.

(** The body of the second loop.  [wayToGroup.get] answers [undefined]
    ([None]) for an absent key, which is a Map key like any other. *)
Definition collectWay (wayToGroup : gmap Z nat)
    (groups : list (option nat * list Element)) (w0 : Element)
  : list (option nat * list Element) :=
  let gid := wayToGroup !! el_id w0 in
  let groups' := if om_has groups gid then groups else om_set groups gid [] in
  om_set groups' gid (default [] (om_get groups' gid) ++ [w0]).

Definition groupingOf (roundaboutWays : list Element) : Grouping :=
  fold_left assignWay roundaboutWays (mkGrouping ∅ 0 ∅).

Definition deduplicateRoundabouts (elements : list Element)
  : list (option nat * list Element) :=
  let roundaboutWays := List.filter isRoundaboutWay elements in
  let st := groupingOf roundaboutWays in
  fold_left (collectWay (wayToGroup st)) roundaboutWays [].

(** ** Geometry utilities *)

(** [toRad] of [haversineMeters]. *)
Definition toRad (d : R) : R := d * PI / 180.

Definition haversineMeters (lat1 lon1 lat2 lon2 : R) : R :=
  let R := 6371000 in
  let dLat := toRad (lat2 - lat1) in
  let dLon := toRad (lon2 - lon1) in
  let a := sin (dLat / 2) ^ 2 +
           cos (toRad lat1) * cos (toRad lat2) * sin (dLon / 2) ^ 2 in
  R * 2 * atan2 (sqrt a) (sqrt (1 - a)).

Definition distToSegment (px py ax ay bx b_y : R) : R :=
  let dx := bx - ax in
  let dy := b_y - ay in
  let lenSq := dx * dx + dy * dy in
  if eqb lenSq 0 then hypot (px - ax) (py - ay)
  else
    let t := ((px - ax) * dx + (py - ay) * dy) / lenSq in
    let t := Rmax 0 (Rmin 1 t) in
    hypot (px - (ax + t * dx)) (py - (ay + t * dy)).

(** ** Proximity filter: isNearRoute *)

(** [routeCoords[i]]; the loops below only read indices below the length. *)
Definition at_index (routeCoords : list Point) (i : nat) : Point :=
  default (0, 0) (routeCoords !! i).

(** The rough degree-distance test of the first loop ([continue] when true). *)
Definition coarseSkip (centroidLat centroidLon midLat midLon : R) : bool :=
  ltb 0.05 (Rabs (centroidLat - midLat)) && ltb 0.05 (Rabs (centroidLon - midLon)).

(** The distance the first loop computes for the sample starting at [i]. *)
Definition coarseDist (centroidLat centroidLon : R) (routeCoords : list Point)
    (step i : nat) : R :=
  let j := Nat.min (i + step) (length routeCoords - 1) in
  let '(lon1, lat1) := at_index routeCoords i in
  let '(lon2, lat2) := at_index routeCoords j in
  haversineMeters centroidLat centroidLon
    (lat1 + (lat2 - lat1) * 0.5) (lon1 + (lon2 - lon1) * 0.5).

(** Whether the first loop skips the sample starting at [i].  The constant
    [threshold] that the loop declares is never read. *)
Definition coarseSkipped (centroidLat centroidLon : R) (routeCoords : list Point)
    (step i : nat) : bool :=
  let j := Nat.min (i + step) (length routeCoords - 1) in
  let '(lon1, lat1) := at_index routeCoords i in
  let '(lon2, lat2) := at_index routeCoords j in
  let midLat := (lat1 + lat2) / 2 in
  let midLon := (lon1 + lon2) / 2 in
  coarseSkip centroidLat centroidLon midLat midLon.

(** The first loop over the indices [idxs], with [minDist] carried along;
    [true] is [return true]. *)
Fixpoint coarseLoop (centroidLat centroidLon : R) (routeCoords : list Point)
    (maxDistMeters : R) (step : nat) (idxs : list nat) (minDist : xnum) : bool :=
  match idxs with
  | [] => false
  | i :: rest =>
      if coarseSkipped centroidLat centroidLon routeCoords step i
      then coarseLoop centroidLat centroidLon routeCoords maxDistMeters step rest minDist
      else
        let dist := coarseDist centroidLat centroidLon routeCoords step i in
        let minDist := if xltb (Fin dist) minDist then Fin dist else minDist in
        if xltb minDist (Fin maxDistMeters) then true
        else coarseLoop centroidLat centroidLon routeCoords maxDistMeters step rest minDist
  end.

Definition coarsePass (centroidLat centroidLon : R) (routeCoords : list Point)
    (maxDistMeters : R) : bool :=
  let step := Nat.max 1 (length routeCoords / 500) in
  coarseLoop centroidLat centroidLon routeCoords maxDistMeters step
    (strided (length routeCoords) 0 step (length routeCoords - 1)) PInf.

(** The quick lat/lon rejection of the second loop ([continue] when true). *)
Definition fineSkip (centroidLat centroidLon lon1 lat1 lon2 lat2 : R) : bool :=
  let segMinLat := Rmin lat1 lat2 - 0.001 in
  let segMaxLat := Rmax lat1 lat2 + 0.001 in
  let segMinLon := Rmin lon1 lon2 - 0.001 in
  let segMaxLon := Rmax lon1 lon2 + 0.001 in
  ltb centroidLat segMinLat || ltb segMaxLat centroidLat ||
  ltb centroidLon segMinLon || ltb segMaxLon centroidLon.

(** [approxMeters] of the second loop. *)
Definition fineDist (centroidLat centroidLon lon1 lat1 lon2 lat2 : R) : R :=
  let flatDist := distToSegment centroidLon centroidLat lon1 lat1 lon2 lat2 in
  flatDist * 111320 * cos (centroidLat * PI / 180).

(** The second loop: every pair [routeCoords[i]], [routeCoords[i + 1]]. *)
Fixpoint finePass (centroidLat centroidLon : R) (routeCoords : list Point)
    (maxDistMeters : R) : bool :=
  match routeCoords with
  | (lon1, lat1) :: (((lon2, lat2) :: _) as rest) =>
      if fineSkip centroidLat centroidLon lon1 lat1 lon2 lat2
      then finePass centroidLat centroidLon rest maxDistMeters
      else if ltb (fineDist centroidLat centroidLon lon1 lat1 lon2 lat2) maxDistMeters
      then true
      else finePass centroidLat centroidLon rest maxDistMeters
  | _ => false
  end.

Definition isNearRoute (centroidLat centroidLon : R) (routeCoords : list Point)
    (maxDistMeters : R) : bool :=
  if coarsePass centroidLat centroidLon routeCoords maxDistMeters then true
  else finePass centroidLat centroidLon routeCoords maxDistMeters.

(** ** Centroid and proximity count (second half of countRoundabouts) *)

(** One turn of [for (const nodeId of way.nodes)] on
    [(sumLat, sumLon, count)]. *)
Definition addNode (nodePositions : gmap Z LatLon) (acc : R * R * nat) (nodeId : Z)
  : R * R * nat :=
  let '(sumLat, sumLon, count) := acc in
  match nodePositions !! nodeId with
  | Some pos => (sumLat + pos_lat pos, sumLon + pos_lon pos, S count)
  | None => acc
  end.

Definition groupSums (nodePositions : gmap Z LatLon) (ways : list Element)
  : R * R * nat :=
  fold_left (fun acc w0 => fold_left (addNode nodePositions) (el_nodes w0) acc)
            ways (0, 0, O).

(** [(centroidLat, centroidLon)], or [None] when [count === 0]
    ([continue]). *)
Definition centroidOf (nodePositions : gmap Z LatLon) (ways : list Element)
  : option (R * R) :=
  let '(sumLat, sumLon, count) := groupSums nodePositions ways in
  match count with
  | O => None
  | _ => Some (sumLat / INR count, sumLon / INR count)
  end.

(** One turn of [for (const [gid, ways] of groups)] on [nearCount]. *)
Definition countGroup (nodePositions : gmap Z LatLon) (coords : list Point)
    (nearCount : nat) (group : option nat * list Element) : nat :=
  match centroidOf nodePositions group.2 with
  | None => nearCount
  | Some (centroidLat, centroidLon) =>
      if isNearRoute centroidLat centroidLon coords 50 then S nearCount
      else nearCount
  end.

(** ** Strings *)

(** A string that comes from outside (a field of a request, the body of a
    response, a name of the geocoder), as its UTF-16 code units. *)
Definition JsString : Type := list N.

(** [s.substring(0, n)]. *)
Definition substring0 (n : nat) (s : JsString) : JsString := take n s.

(** A byte of the console. *)
Definition byte (n : N) : Ascii.ascii := Ascii.ascii_of_N (n mod 256).

(** The replacement character U+FFFD in UTF-8. *)
Definition replacement (rest : string) : string :=
  String (byte 239) (String (byte 191) (String (byte 189) rest)).

(** What the console writes for a string: its UTF-8 encoding.  A code
    unit below 128 is one byte and one below 2048 two bytes; a high
    surrogate (55296-56319) followed by a low one (56320-57343) is one
    character of four bytes; a surrogate without its pair is written as
    U+FFFD; any other code unit is three bytes. *)
Fixpoint utf8 (s : JsString) : string :=
  match s with
  | [] => EmptyString
  | c :: rest =>
      if (c <? 128)%N then String (byte c) (utf8 rest)
      else if (c <? 2048)%N then
        String (byte (192 + c / 64)) (String (byte (128 + c mod 64)) (utf8 rest))
      else if ((55296 <=? c) && (c <? 56320))%N then
        match rest with
        | d :: rest' =>
            if ((56320 <=? d) && (d <? 57344))%N then
              let cp := (65536 + (c - 55296) * 1024 + (d - 56320))%N in
              String (byte (240 + cp / 262144))
                (String (byte (128 + (cp / 4096) mod 64))
                   (String (byte (128 + (cp / 64) mod 64))
                      (String (byte (128 + cp mod 64)) (utf8 rest'))))
            else replacement (utf8 rest)
        | [] => replacement EmptyString
        end
      else if ((56320 <=? c) && (c <? 57344))%N then replacement (utf8 rest)
      else
        String (byte (224 + c / 4096))
          (String (byte (128 + (c / 64) mod 64))
             (String (byte (128 + c mod 64)) (utf8 rest)))
  end.

(** ** The console, the clock and the network *)

(** A thrown value: [new Error(message)], or an error raised by the
    platform. *)
Inductive Exn : Type := Error (message : string).

Definition message (err : Exn) : string := let 'Error m := err in m.

(** A call of [console.log] or [console.error] with its arguments printed. *)
Inductive ConsoleLine : Type :=
| Log (args : list string)
| Err (args : list string).

(** [clock]: milliseconds spent in [delay]; [requests]: calls of [fetch]
    made so far; [console]: lines written, oldest first. *)
Record World : Type := mkWorld {
  clock : nat;
  requests : nat;
  console : list ConsoleLine
}.

(** How a call ends. *)
Inductive outcome (A : Type) : Type :=
| Returned (a : A)
| Thrown (err : Exn).

Arguments Returned {A} a.
Arguments Thrown {A} err.

(** An async function body: it ends by returning or by throwing, and what it
    did to the world stays done in both cases. *)
Definition M (A : Type) : Type := World -> outcome A * World.

#[global] Instance M_ret : MRet M := fun A a w => (Returned a, w).

#[global] Instance M_bind : MBind M := fun A B k m w =>
  match m w with
  | (Returned a, w') => k a w'
  | (Thrown err, w') => (Thrown err, w')
  end.

(** [throw err]. *)
Definition throw {A : Type} (err : Exn) : M A := fun w => (Thrown err, w).

(** [try { body } catch (err) { handler }]. *)
Definition try_catch {A : Type} (body : M A) (handler : Exn -> M A) : M A :=
  fun w =>
    match body w with
    | (Returned a, w') => (Returned a, w')
    | (Thrown err, w') => handler err w'
    end.

(** [console.log(...args)] and [console.error(...args)]. *)
Definition console_log (args : list string) : M unit := fun w =>
  (Returned tt, mkWorld (clock w) (requests w) (console w ++ [Log args])).

Definition console_error (args : list string) : M unit := fun w =>
  (Returned tt, mkWorld (clock w) (requests w) (console w ++ [Err args])).

(** [await delay(ms)]. *)
Definition delay (ms : nat) : M unit := fun w =>
  (Returned tt, mkWorld (clock w + ms) (requests w) (console w)).

(** What [await res.text()] gives: the text of the body, or the error of
    a body that cannot be read. *)
Inductive Body : Type :=
| Text (text : JsString)
| Unreadable (err : Exn).

Record Response : Type := mkResponse { status : nat; body : Body }.

(** [res.ok]: the status is in the range 200-299. *)
Definition ok (res : Response) : bool :=
  (200 <=? status res)%nat && (status res <=? 299)%nat.

(** How the promise of [fetch] settles. *)
Inductive FetchOutcome : Type :=
| Resolved (res : Response)
| Rejected (err : Exn).

(** An entry of [data.elements] as [JSON.parse] gives it.  [Null err] is
    [null]: reading a property of it throws [err].  [Whole el] is an object
    with the fields of [el].  [Nodeless el err] is an object with the fields
    of [el] except that its [nodes] cannot be iterated (the field is absent,
    or is not an array): [for (const nodeId of way.nodes)] throws [err], and
    [el_nodes el] stands for nothing.  An entry that is a number, a string or
    a boolean has no [id] and is dropped as an element whose [id] is 0 is. *)
Inductive Feature : Type :=
| Null (err : Exn)
| Whole (el : Element)
| Nodeless (el : Element) (err : Exn).

(** The value of [JSON.parse(text)] as far as the caller looks at it:
    [data.elements] spread into an argument list is an array of entries, or
    raises (the field is missing or not iterable, or [data] is [null]). *)
Record OverpassData : Type := mkData { elements : outcome (list Feature) }.

(** What the code takes from its environment.  [overpass k body] is the
    answer of the service to the [k]-th request of the run (a request that
    the abort timer cuts after 120 s is [Rejected]); [showNumber] prints a
    coordinate inside a template literal. *)
Record Host : Type := mkHost {
  overpass : nat -> string -> FetchOutcome;
  encodeURIComponent : string -> string;
  JSON_parse : JsString -> outcome OverpassData;
  showNumber : xnum -> string
}.

(** [await fetch(url, {method: 'POST', headers, body, signal})]; the url and
    the headers are the same for every call. *)
Definition fetch (host : Host) (requestBody : string) : M Response := fun w =>
  let w' := mkWorld (clock w) (S (requests w)) (console w) in
  match overpass host (requests w) requestBody with
  | Resolved res => (Returned res, w')
  | Rejected err => (Thrown err, w')
  end.

(** [await res.text()]. *)
Definition res_text (res : Response) : M JsString :=
  match body res with
  | Text text => mret text
  | Unreadable err => throw err
  end.

(** ** Spatial query client: queryOverpassBboxes *)

(** The double quote and the line feed. *)
Definition dquote : string := String (Ascii.ascii_of_nat 34) EmptyString.
Definition newline : string := String (Ascii.ascii_of_nat 10) EmptyString.

(** [(${b.s},${b.w},${b.n},${b.e});]. *)
Definition bboxArgs (host : Host) (b : Bbox) : string :=
  String.concat EmptyString
    ["("; showNumber host (bbox_s b); ","; showNumber host (bbox_w b); ",";
     showNumber host (bbox_n b); ","; showNumber host (bbox_e b); ");"].

(** The two filter lines of one box. *)
Definition bboxFilter (host : Host) (b : Bbox) : string :=
  String.concat EmptyString
    ["  way["; dquote; "junction"; dquote; "="; dquote; "roundabout"; dquote; "]";
     bboxArgs host b; newline;
     "  way["; dquote; "junction"; dquote; "="; dquote; "circular"; dquote; "]";
     bboxArgs host b].

(** The text [query]. *)
Definition queryText (host : Host) (bboxes : list Bbox) : string :=
  let bboxFilters := String.concat newline (map (bboxFilter host) bboxes) in
  String.concat EmptyString
    ["[out:json][timeout:90][maxsize:10485760];"; newline; "("; newline;
     bboxFilters; newline; ");"; newline; "out body;"; newline; ">;"; newline;
     "out skel qt;"].

(** The error thrown on a response that is not [ok]. *)
Definition httpError (res : Response) : Exn :=
  Error ("Overpass API HTTP " +:+ pretty (status res)).

(** The [finally] block only clears the abort timer and is left out. *)
Definition queryOverpassBboxes (host : Host) (bboxes : list Bbox) : M OverpassData :=
  let query := queryText host bboxes in
  console_log [String.concat EmptyString
                 ["[Overpass] Querying "; pretty (length bboxes);
                  " bbox segments (query length: "; pretty (String.length query);
                  ")"]] ;;
  res ← fetch host ("data=" +:+ encodeURIComponent host query) ;
  if negb (ok res) then
    text ← res_text res ;
    console_error ["[Overpass] HTTP error:"; pretty (status res);
                   utf8 (substring0 200 text)] ;;
    throw (httpError res)
  else
    text ← res_text res ;
    match JSON_parse host text with
    | Returned data => mret data
    | Thrown err => throw err
    end.

(** ** Batch orchestrator and counter: countRoundabouts *)

Record Geometry : Type := mkGeometry { coordinates : list Point }.

Definition BATCH_SIZE : nat := 12.

(** [allElements.push(...data.elements)]. *)
Definition pushElements (allElements : list Feature) (data : OverpassData)
  : M (list Feature) :=
  match elements data with
  | Returned els => mret (allElements ++ els)
  | Thrown err => throw err
  end.

(** The retry loop [for (const singleBbox of batch)]. *)
Fixpoint retryEach (host : Host) (batch : list Bbox) (allElements : list Feature)
  : M (list Feature) :=
  match batch with
  | [] => mret allElements
  | singleBbox :: rest =>
      allElements ←
        try_catch
          (delay 5000 ;;
           data ← queryOverpassBboxes host [singleBbox] ;
           pushElements allElements data)
          (fun retryErr =>
             console_error ["[Overpass] Single bbox retry also failed:";
                            message retryErr] ;;
             mret allElements) ;
      retryEach host rest allElements
  end.

(** The loop [for (let i = 0; i < bboxes.length; i += BATCH_SIZE)] over the
    values [idxs] of [i]. *)
Fixpoint batchLoop (host : Host) (bboxes : list Bbox) (idxs : list nat)
    (allElements : list Feature) : M (list Feature) :=
  match idxs with
  | [] => mret allElements
  | i :: rest =>
      let batch := slice i (i + BATCH_SIZE) bboxes in
      allElements ←
        try_catch
          (data ← queryOverpassBboxes host batch ;
           pushElements allElements data)
          (fun err =>
             console_error [String.concat EmptyString
                              ["[Overpass] Batch "; pretty (i / BATCH_SIZE + 1)%nat;
                               " failed:"];
                            message err] ;;
             retryEach host batch allElements) ;
      (if (i + BATCH_SIZE <? length bboxes)%nat then delay 2000 else mret tt) ;;
      batchLoop host bboxes rest allElements
  end.

(** An expression that gives a value or throws, inside an async function. *)
Definition settle {A : Type} (o : outcome A) : M A := fun w => (o, w).

(** The fields of an entry that is an object. *)
Definition objectOf (f : Feature) : option Element :=
  match f with
  | Null _ => None
  | Whole el => Some el
  | Nodeless el _ => Some el
  end.

Definition objects (entries : list Feature) : list Element := omap objectOf entries.

(** One turn of [for (const el of allElements)] on the entries as the
    service sends them: [el.id] throws when [el] is [null]; on an object
    the turn is [dedupStep]. *)
Definition dedupEntry (uniqueElements : list (string * Feature)) (f : Feature)
  : outcome (list (string * Feature)) :=
  match f with
  | Null err => Thrown err
  | Whole el | Nodeless el _ =>
      Returned
        (if truthy (el_id el) && negb (om_has uniqueElements (elementKey el))
         then om_set uniqueElements (elementKey el) f
         else uniqueElements)
  end.

Fixpoint dedupEntries (uniqueElements : list (string * Feature))
    (allElements : list Feature) : outcome (list (string * Feature)) :=
  match allElements with
  | [] => Returned uniqueElements
  | f :: rest =>
      match dedupEntry uniqueElements f with
      | Returned uniqueElements => dedupEntries uniqueElements rest
      | Thrown err => Thrown err
      end
  end.

(** The deduplication loop and [[...uniqueElements.values()]] on the
    entries as the service sends them. *)
Definition uniqueEntries (allElements : list Feature) : outcome (list Feature) :=
  match dedupEntries [] allElements with
  | Returned uniqueElements => Returned (om_values uniqueElements)
  | Thrown err => Thrown err
  end.

(** The error of the first roundabout way whose nodes cannot be iterated. *)
Fixpoint nodesError (elements : list Feature) : option Exn :=
  match elements with
  | [] => None
  | Nodeless el err :: rest =>
      if isRoundaboutWay el then Some err else nodesError rest
  | _ :: rest => nodesError rest
  end.

(** [deduplicateRoundabouts(elements)] on entries that are objects.  Its
    first loop iterates [way.nodes] for every roundabout way in turn and
    the function changes nothing outside itself: all that is seen of a
    call that meets nodes that cannot be iterated is the error thrown.  The
    nodes of the other entries are not read. *)
Definition groupsOf (elements : list Feature)
  : outcome (list (option nat * list Element)) :=
  match nodesError elements with
  | Some err => Thrown err
  | None => Returned (deduplicateRoundabouts (objects elements))
  end.

(** The loops over [way.nodes] of the centroid run on the ways that
    [deduplicateRoundabouts] has gone through, so that they do not throw. *)
Definition countRoundabouts (host : Host) (geometry : Geometry) : M nat :=
  let coords := coordinates geometry in
  console_log [String.concat EmptyString
                 ["[Route] "; pretty (length coords); " coordinate points"]] ;;
  let bboxes := computeSegmentBboxes coords 12 in
  allElements ←
    batchLoop host bboxes
      (strided (length bboxes) 0 BATCH_SIZE (length bboxes)) [] ;
  elements ← settle (uniqueEntries allElements) ;
  let nodePositions := nodePositionsOf (objects elements) in
  groups ← settle (groupsOf elements) ;
  console_log [String.concat EmptyString
                 ["[Overpass] "; pretty (length groups);
                  " roundabout groups in bboxes (before proximity filter)"]] ;;
  let nearCount := fold_left (countGroup nodePositions coords) groups O in
  console_log [String.concat EmptyString
                 ["[Result] "; pretty nearCount;
                  " roundabouts actually on route (filtered from ";
                  pretty (length groups); ")"]] ;;
  mret nearCount.

(** ** Input sanitization: sanitize *)

(** The characters that the regular expression removes: the angle
    brackets (60, 62), the double and the single quote (34, 39), the
    ampersand (38) and the semicolon (59). *)
Definition isSpecial (c : N) : bool :=
  existsb (N.eqb c) [60; 62; 34; 39; 38; 59]%N.

(** What [trim] removes: the white space and the line terminators of the
    language. *)
Definition isWhiteSpace (c : N) : bool :=
  existsb (N.eqb c)
    [9; 10; 11; 12; 13; 32; 160; 5760; 8232; 8233; 8239; 8287; 12288; 65279]%N
  || ((8192 <=? c) && (c <=? 8202))%N.

Fixpoint trimStart (s : JsString) : JsString :=
  match s with
  | c :: rest => if isWhiteSpace c then trimStart rest else s
  | [] => []
  end.

Definition trimEnd (s : JsString) : JsString := rev (trimStart (rev s)).

(** [s.trim()]. *)
Definition trim (s : JsString) : JsString := trimEnd (trimStart s).

Definition sanitize (str : JsString) : JsString :=
  trim (List.filter (fun c => negb (isSpecial c)) str).

(** ** The inputs of /api/challenge *)

(** A field of the request body: a string, or another value, of which the
    handler observes whether it is truthy and what [String] makes of it
    ([String] throws on an object that cannot be converted). *)
Inductive JsValue : Type :=
| JsStr (s : JsString)
| JsOther (truthy : bool) (shown : outcome JsString).

(** [!s] on a string. *)
Definition isEmpty (s : JsString) : bool := match s with [] => true | _ => false end.

(** [!v]. *)
Definition falsy (v : JsValue) : bool :=
  match v with JsStr s => isEmpty s | JsOther truthy _ => negb truthy end.

(** [String(v)]. *)
Definition toString (v : JsValue) : outcome JsString :=
  match v with JsStr s => Returned s | JsOther _ shown => shown end.

(** The answer [res.status(400).json({error})]. *)
Inductive Refusal : Type := BadRequest (error : string).

(** The handler from its first line to the geocoding: a refusal, or the
    three strings it goes on with. *)
Definition checkInputs (pseudo villeDepart villeArrivee : JsValue)
  : outcome (Refusal + JsString * JsString * JsString) :=
  if falsy pseudo || falsy villeDepart || falsy villeArrivee
  then Returned (inl (BadRequest "Pseudo, ville de départ et ville d'arrivée requis"))
  else
    match toString pseudo with
    | Thrown err => Thrown err
    | Returned s1 =>
        let pseudo := substring0 20 (sanitize s1) in
        match toString villeDepart with
        | Thrown err => Thrown err
        | Returned s2 =>
            let villeDepart := substring0 100 (sanitize s2) in
            match toString villeArrivee with
            | Thrown err => Thrown err
            | Returned s3 =>
                let villeArrivee := substring0 100 (sanitize s3) in
                if isEmpty pseudo || isEmpty villeDepart || isEmpty villeArrivee
                then Returned (inl (BadRequest "Entrées invalides"))
                else if (20 <? length pseudo)%nat
                then Returned (inl (BadRequest "Pseudo trop long (max 20 caractères)"))
                else Returned (inr (pseudo, villeDepart, villeArrivee))
            end
        end
    end.

(** [pseudo.trim().substring(0, 20)], the pseudo of the entry. *)
Definition entryPseudo (pseudo : JsString) : JsString := substring0 20 (trim pseudo).

(** ** Distance and ratio *)

(** The numbers of the score are doubles: [float] is the binary64 format,
    and its operations round as those of the platform do. *)

(** An integer of absolute value 2^53 at most, as a double. *)
Definition toNumber (n : Z) : float :=
  if (n <? 0)%Z then (- of_uint63 (Uint63.of_Z (- n)))%float
  else of_uint63 (Uint63.of_Z n).

(** [Math.round(x)]: the integer nearest to [x], a half going up.  A finite
    double that is not zero is [v * 2 ^ e] for integers [v] and [e]: it is
    an integer when [e] is not negative, and the floor of [x + 1/2] is the
    quotient below if not.  The result 0 takes the sign of [x]; a zero, a
    NaN and an infinity are returned as they are. *)
Definition Math_round (x : float) : float :=
  match Prim2SF x with
  | S754_finite s m e =>
      if (0 <=? e)%Z then x
      else
        let v := if s then Z.neg m else Z.pos m in
        let n := ((2 * v + 2 ^ (- e)) / 2 ^ (1 - e))%Z in
        if (n =? 0)%Z then (if s then (-0)%float else 0%float) else toNumber n
  | _ => x
  end.

(** [distanceKm] from [route.distance]. *)
Definition distanceKm (distance : float) : float := Math_round (distance / 1000).

(** The count is a length: an integer, far below 2^53. *)
Definition ratio (nbRondPoints : nat) (distanceKm : float) : float :=
  if (0 <? distanceKm)%float
  then (Math_round (toNumber (Z.of_nat nbRondPoints) / distanceKm * 100 * 10) / 10)%float
  else 0%float.

(** ** Leaderboard *)

Record Entry : Type := mkEntry {
  e_pseudo : JsString;
  e_villeDepart : JsString;
  e_villeArrivee : JsString;
  e_nbRondPoints : nat;
  e_distanceKm : float;
  e_ratio : float;
  e_date : JsString
}.

(** [Array.prototype.sort] with the comparator
    [(a, b) => b.nbRondPoints - a.nbRondPoints].  The sort is stable: an
    entry goes before the first entry that it does not have to follow. *)
Fixpoint insertEntry (x : Entry) (sorted : list Entry) : list Entry :=
  match sorted with
  | [] => [x]
  | y :: rest =>
      if (e_nbRondPoints x <? e_nbRondPoints y)%nat
      then y :: insertEntry x rest
      else x :: sorted
  end.

Definition sortEntries (l : list Entry) : list Entry := foldr insertEntry [] l.

(** [leaderboard.push(entry); leaderboard.sort(...); leaderboard.slice(0, 100)]. *)
Definition trimmed (leaderboard : list Entry) (entry : Entry) : list Entry :=
  slice 0 100 (sortEntries (leaderboard ++ [entry])).

(** [l.findIndex(p)], [None] for -1. *)
Fixpoint findIndex {A : Type} (p : A → bool) (l : list A) : option nat :=
  match l with
  | [] => None
  | x :: rest => if p x then Some 0%nat else S <$> findIndex p rest
  end.

Definition sameDate (a b : Entry) : bool := bool_decide (e_date a = e_date b).

(** [trimmed.findIndex(e => e.date === entry.date) + 1]. *)
Definition rank (trimmed : list Entry) (entry : Entry) : nat :=
  match findIndex (fun e => sameDate e entry) trimmed with
  | Some i => S i
  | None => 0
  end.

(** [leaderboard.slice(0, 20)], the list of the answers. *)
Definition top20 (leaderboard : list Entry) : list Entry := slice 0 20 leaderboard.

(** ** Geocoding and routing: geocode, getRoute *)

(** An item of the geocoder's answer, as far as [geocode] reads it. *)
Record Place : Type := mkPlace {
  place_lat : string;
  place_lon : string;
  display_name : JsString
}.

(** A route of the router's answer, and the answer. *)
Record Route : Type := mkRoute {
  geometry : Geometry;
  distance : float;
  duration : float
}.

Record OsrmData : Type := mkOsrmData { code : string; routes : list Route }.

(** What the handler takes from its environment besides [Host].
    [nominatim k url] and [osrm k url] are what
    [await (await fetch(url, ...)).json()] gives when the request is the
    [k]-th of the run: the parsed answer, or the error of a request that
    fails or of a body that is not the JSON expected.  [encodeCity] is
    [encodeURIComponent] on a string of the request (it throws on a lone
    surrogate), [cityText] that string inside a template literal,
    [parseFloat] gives [None] for [NaN], [toISOString] is
    [new Date().toISOString()], [inspect] prints an error on the console and
    [writeFileSync] tells whether writing the leaderboard file throws. *)
Record Site : Type := mkSite {
  services : Host;
  encodeCity : JsString → outcome string;
  cityText : JsString → string;
  nominatim : nat → string → outcome (list Place);
  osrm : nat → string → outcome OsrmData;
  parseFloat : string → option xnum;
  toISOString : World → JsString;
  inspect : Exn → string;
  writeFileSync : list Entry → option Exn
}.

(** [await fetch(url, {headers})] followed by [await res.json()]. *)
Definition fetchJson {A : Type} (service : nat → string → outcome A) (url : string)
  : M A := fun w =>
  let w' := mkWorld (clock w) (S (requests w)) (console w) in
  match service (requests w) url with
  | Returned data => (Returned data, w')
  | Thrown err => (Thrown err, w')
  end.

(** [s.split(',')[0]]: the code units before the first comma (44). *)
Fixpoint beforeComma (s : JsString) : JsString :=
  match s with
  | [] => []
  | c :: rest => if (c =? 44)%N then [] else c :: beforeComma rest
  end.

(** A number inside a template literal. *)
Definition numberText (site : Site) (x : option xnum) : string :=
  match x with Some x => showNumber (services site) x | None => "NaN" end.

Record Geocoded : Type := mkGeocoded {
  geo_lat : option xnum;
  geo_lon : option xnum;
  displayName : JsString
}.

Definition geocode (site : Site) (cityName : JsString) : M Geocoded :=
  match encodeCity site cityName with
  | Thrown err => throw err
  | Returned q =>
      let url := "https://nominatim.openstreetmap.org/search?" +:+
                 "q=" +:+ q +:+ "&format=json&limit=1&countrycodes=fr" in
      data ← fetchJson (nominatim site) url ;
      match data with
      | [] => throw (Error ("Ville introuvable : " +:+ cityText site cityName))
      | place :: _ =>
          mret {| geo_lat := parseFloat site (place_lat place);
                  geo_lon := parseFloat site (place_lon place);
                  displayName := beforeComma (display_name place) |}
      end
  end.

Definition getRoute (site : Site) (fromLon fromLat toLon toLat : option xnum) : M Route :=
  let url := "https://router.project-osrm.org/route/v1/driving/" +:+
             numberText site fromLon +:+ "," +:+ numberText site fromLat +:+ ";" +:+
             numberText site toLon +:+ "," +:+ numberText site toLat +:+
             "?overview=full&geometries=geojson" in
  data ← fetchJson (osrm site) url ;
  match routes data with
  | route :: _ =>
      if String.eqb (code data) "Ok" then mret route
      else throw (Error "Impossible de calculer un itinéraire")
  | [] => throw (Error "Impossible de calculer un itinéraire")
  end.

(** ** The leaderboard file: loadLeaderboard, saveLeaderboard *)

(** The file when it is read: absent, corrupt (reading or parsing it
    throws), or holding an array of entries.  A file that parses is taken
    to hold an array of entries as [saveLeaderboard] writes them. *)
Inductive LeaderboardFile : Type :=
| Absent
| Corrupt
| Holding (entries : list Entry).

Definition loadLeaderboard (file : LeaderboardFile) : list Entry :=
  match file with
  | Absent => []
  | Corrupt => []
  | Holding entries => entries
  end.

Definition saveLeaderboard (site : Site) (data : list Entry) : M unit :=
  match writeFileSync site data with
  | Some err => throw err
  | None => mret tt
  end.

(** ** The handler of /api/challenge *)

(** The body of an answer: [{error}], or the entry with its rank and the
    first twenty of the list. *)
Inductive Payload : Type :=
| ErrorBody (error : string)
| ResultBody (entry : Entry) (rank : nat) (leaderboard : list Entry).

Record Reply : Type := mkReply { reply_status : nat; payload : Payload }.

(** [new Date().toISOString()]. *)
Definition now (site : Site) : M JsString := fun w => (Returned (toISOString site w), w).

(** [err.message || 'Erreur serveur']. *)
Definition errorText (err : Exn) : string :=
  if String.eqb (message err) EmptyString then "Erreur serveur" else message err.

(** The handler, for a request body that is an object with the fields
    [pseudo], [villeDepart] and [villeArrivee] (each may be absent) and for
    the leaderboard file as [loadLeaderboard] finds it.  It returns the
    answer, and the list that it wrote to the file when the write returned
    without throwing. *)
Definition challenge (site : Site) (file : LeaderboardFile)
    (pseudo villeDepart villeArrivee : JsValue) : M (Reply * option (list Entry)) :=
  try_catch
    (match checkInputs pseudo villeDepart villeArrivee with
     | Thrown err => throw err
     | Returned (inl (BadRequest error)) => mret (mkReply 400 (ErrorBody error), None)
     | Returned (inr (pseudo, villeDepart, villeArrivee)) =>
         from ← geocode site villeDepart ;
         delay 1100 ;;
         to ← geocode site villeArrivee ;
         if bool_decide (displayName from = displayName to) then
           mret (mkReply 400 (ErrorBody "Les deux villes doivent être différentes !"),
                 None)
         else
           route ← getRoute site (geo_lon from) (geo_lat from) (geo_lon to) (geo_lat to) ;
           nbRondPoints ← countRoundabouts (services site) (geometry route) ;
           let distanceKm := distanceKm (distance route) in
           let ratio := ratio nbRondPoints distanceKm in
           date ← now site ;
           let entry :=
             {| e_pseudo := entryPseudo pseudo;
                e_villeDepart := displayName from;
                e_villeArrivee := displayName to;
                e_nbRondPoints := nbRondPoints;
                e_distanceKm := distanceKm;
                e_ratio := ratio;
                e_date := date |} in
           let leaderboard := loadLeaderboard file in
           let trimmed := trimmed leaderboard entry in
           saveLeaderboard site trimmed ;;
           mret (mkReply 200 (ResultBody entry (rank trimmed entry) (top20 trimmed)),
                 Some trimmed)
     end)
    (fun err =>
       console_error ["Challenge error:"; inspect site err] ;;
       mret (mkReply 500 (ErrorBody (errorText err)), None)).

(** The handler of /api/leaderboard. *)
Definition leaderboardAnswer (file : LeaderboardFile) : list Entry :=
  top20 (loadLeaderboard file).

(** ** The handler of /api/autocomplete *)

(** The address of an item of the geocoder's answer: each field that the
    handler reads is a string, or is absent. *)
Record Address : Type := mkAddress {
  city : option JsString;
  town : option JsString;
  village : option JsString;
  municipality : option JsString;
  county : option JsString;
  state : option JsString
}.

(** An item of the answer, as far as the handler reads it.  [item_type] and
    [item_class] are [None] when the field is absent or is not a string. *)
Record Item : Type := mkItem {
  item_address : option Address;
  item_type : option string;
  item_class : option string;
  item_display_name : JsString;
  item_lat : string;
  item_lon : string
}.

(** [item.address?.field]. *)
Definition addressField (field : Address → option JsString) (item : Item)
  : option JsString :=
  match item_address item with Some address => field address | None => None end.

(** [a || b] on two fields: [a] when it is a string that is not empty. *)
Definition orElse (a b : option JsString) : option JsString :=
  match a with Some (_ :: _) => a | _ => b end.

(** [a || b] when [b] is a string. *)
Definition orString (a : option JsString) (b : JsString) : JsString :=
  match a with Some (c :: s) => c :: s | _ => b end.

Definition isTruthy (a : option JsString) : bool :=
  match a with Some (_ :: _) => true | _ => false end.

(** [field === text]. *)
Definition isText (field : option string) (text : string) : bool :=
  match field with Some s => String.eqb s text | None => false end.

(** [item.address?.city || item.address?.town || item.address?.village ||
    item.address?.municipality]. *)
Definition placeType (item : Item) : option JsString :=
  orElse (orElse (orElse (addressField city item) (addressField town item))
                 (addressField village item))
         (addressField municipality item).

(** The test of the first [filter]. *)
Definition isPlace (item : Item) : bool :=
  isTruthy (placeType item) || isText (item_type item) "city"
  || isText (item_type item) "administrative" || isText (item_class item) "place".

(** [s.split(',')]: the pieces between the commas (44). *)
Fixpoint splitComma (s : JsString) : list JsString :=
  match s with
  | [] => [[]]
  | c :: rest =>
      if (c =? 44)%N then [] :: splitComma rest
      else
        match splitComma rest with
        | piece :: more => (c :: piece) :: more
        | [] => [[c]]
        end
  end.

(** [pieces.join(',')]. *)
Fixpoint joinComma (pieces : list JsString) : JsString :=
  match pieces with
  | [] => []
  | piece :: more =>
      match more with
      | [] => piece
      | _ :: _ => piece ++ 44%N :: joinComma more
      end
  end.

Record Suggestion : Type := mkSuggestion {
  s_name : JsString;
  s_department : JsString;
  s_displayName : JsString;
  s_lat : option xnum;
  s_lon : option xnum
}.

(** The function of the [map]. *)
Definition suggestion (site : Site) (item : Item) : Suggestion :=
  {| s_name := orString (placeType item) (beforeComma (item_display_name item));
     s_department :=
       orString (orElse (addressField county item) (addressField state item)) [];
     s_displayName := joinComma (slice 0 2 (splitComma (item_display_name item)));
     s_lat := parseFloat site (item_lat item);
     s_lon := parseFloat site (item_lon item) |}.

(** [`${r.name}-${r.department}`]; 45 is the hyphen. *)
Definition key (r : Suggestion) : JsString := s_name r ++ 45%N :: s_department r.

(** The second [filter], with the set [seen] as it stands. *)
Fixpoint unique (seen : gset JsString) (results : list Suggestion) : list Suggestion :=
  match results with
  | [] => []
  | r :: rest =>
      if bool_decide (key r ∈ seen) then unique seen rest
      else r :: unique ({[key r]} ∪ seen) rest
  end.

(** From [data] to [unique]. *)
Definition suggestions (site : Site) (data : list Item) : list Suggestion :=
  unique ∅ (suggestion site <$> List.filter isPlace data).

(** What the handler takes from its environment besides [Site]: [search k
    url] is the parsed answer of the geocoder to the [k]-th request of the
    run, or the error of a request that fails or of a body that is not the
    JSON expected, and [trimError] is the error of calling [trim] on a
    value that has no such method. *)
Record Finder : Type := mkFinder {
  search : nat → string → outcome (list Item);
  trimError : Exn
}.

(** The handler once the limiter has let the request through, for the
    value [q] of [req.query.q].  A value of the query that is not a string
    is an array or an object made by the query parser: it is truthy, and
    calling [trim] on it throws. *)
Definition autocomplete (site : Site) (finder : Finder) (q : JsValue)
  : M (list Suggestion) :=
  try_catch
    (match (if falsy q then JsStr [] else q) with
     | JsOther _ _ => throw (trimError finder)
     | JsStr s =>
         let q := trim s in
         if (length q <? 2)%nat then mret []
         else
           match encodeCity site q with
           | Thrown err => throw err
           | Returned text =>
               let url := "https://nominatim.openstreetmap.org/search?" +:+
                          "q=" +:+ text +:+ "&format=json&limit=8&countrycodes=fr" +:+
                          "&addressdetails=1&dedupe=1" in
               data ← fetchJson (search finder) url ;
               mret (suggestions site data)
           end
     end)
    (fun err =>
       console_error ["Autocomplete error:"; inspect site err] ;;
       mret []).

(** * Words of the properties *)

(** ** Features and their identity *)

(** The identity of a feature: its kind and its id. *)
Definition identity (el : Element) : EType * Z := (el_type el, el_id el).

(** Keeping the first occurrence of each identity, as the specification
    words it: [seen] holds the identities already met. *)
Fixpoint keepFirst (seen : list (EType * Z)) (l : list Element) : list Element :=
  match l with
  | [] => []
  | el :: rest =>
      if bool_decide (identity el ∈ seen) then keepFirst seen rest
      else el :: keepFirst (seen ++ [identity el]) rest
  end.

(** Every key of the map is the key of the element stored under it. *)
Definition keyed (m : list (string * Element)) : Prop :=
  Forall (fun kv => kv.1 = elementKey kv.2) m.

(** ** Groups of ways *)

(** Two ways share a node id. *)
Definition sharesNode (a b : Element) : Prop :=
  ∃ x, x ∈ el_nodes a ∧ x ∈ el_nodes b.

(** A chain of ways of [ways] from [a] to [b], each sharing a node with the
    next. *)
Inductive chained (ways : list Element) : Element → Element → Prop :=
| chained_refl a : a ∈ ways → chained ways a a
| chained_step a b c :
    a ∈ ways → b ∈ ways → sharesNode a b → chained ways b c → chained ways a c.

(** The two ways are members of one group. *)
Definition sameGroup (groups : list (option nat * list Element)) (a b : Element) : Prop :=
  ∃ g, g ∈ groups ∧ a ∈ g.2 ∧ b ∈ g.2.

(** The groups as lists of way ids. *)
Definition groupIds (groups : list (option nat * list Element)) : list (list Z) :=
  map (fun g => map el_id g.2) groups.

(** ** Mean positions *)

(** The positions found in the table for the node references of the ways of
    a group, one per reference, in order. *)
Definition resolvedPositions (nodePositions : gmap Z LatLon) (ways : list Element)
  : list LatLon :=
  omap (fun nodeId => nodePositions !! nodeId) (concat (map el_nodes ways)).

(** The same with one reference per distinct node id. *)
Definition distinctPositions (nodePositions : gmap Z LatLon) (ways : list Element)
  : list LatLon :=
  omap (fun nodeId => nodePositions !! nodeId)
       (remove_dups (concat (map el_nodes ways))).

(** The sum of a list of numbers. *)
Definition sumR (l : list R) : R := foldr Rplus 0 l.

(** The arithmetic mean of a list of numbers. *)
Definition mean (l : list R) : R := sumR l / INR (length l).

(** The mean position, undefined for no position at all. *)
Definition meanPosition (ps : list LatLon) : option (R * R) :=
  match ps with
  | [] => None
  | _ => Some (mean (pos_lat <$> ps), mean (pos_lon <$> ps))
  end.

(** ** Requests and what they bring *)

(** The count that [countRoundabouts] derives from [allElements] when they
    are elements as [Element] describes them. *)
Definition nearCountOf (coords : list Point) (allElements : list Element) : nat :=
  let elements := uniqueElements allElements in
  let nodePositions := nodePositionsOf elements in
  let groups := deduplicateRoundabouts elements in
  fold_left (countGroup nodePositions coords) groups O.

(** What [countRoundabouts] makes of the entries gathered: a count, or the
    error thrown. *)
Definition countOf (coords : list Point) (allElements : list Feature) : outcome nat :=
  match uniqueEntries allElements with
  | Thrown err => Thrown err
  | Returned elements =>
      match groupsOf elements with
      | Thrown err => Thrown err
      | Returned groups =>
          Returned (fold_left (countGroup (nodePositionsOf (objects elements)) coords)
                              groups O)
      end
  end.

(** The fields of an entry; those of [null] stand for nothing. *)
Definition fieldsOf (f : Feature) : Element :=
  default (mkElement node 0 None None [] None) (objectOf f).

(** An entry of the map of the deduplication, with the fields for value. *)
Definition fieldsAt (kf : string * Feature) : string * Element := (kf.1, fieldsOf kf.2).

(** Every entry is an object whose nodes, if any, are an array. *)
Definition wellFormed (entries : list Feature) : Prop :=
  Forall (fun f => ∃ el, f = Whole el) entries.

(** The form body that [queryOverpassBboxes] posts for [bboxes]. *)
Definition requestBody (host : Host) (bboxes : list Bbox) : string :=
  "data=" +:+ encodeURIComponent host (queryText host bboxes).

(** The console line that opens every query. *)
Definition queryLine (host : Host) (bboxes : list Bbox) : ConsoleLine :=
  Log [String.concat EmptyString
         ["[Overpass] Querying "; pretty (length bboxes);
          " bbox segments (query length: ";
          pretty (String.length (queryText host bboxes)); ")"]].

(** What the [k]-th request of a run gives when it is the query for
    [bboxes]. *)
Definition answer (host : Host) (k : nat) (bboxes : list Bbox) : outcome OverpassData :=
  (queryOverpassBboxes host bboxes (mkWorld 0 k [])).1.

(** Every query fails, whenever it is made and whatever it asks. *)
Definition allQueriesFail (host : Host) : Prop :=
  ∀ k bboxes, ∃ err, answer host k bboxes = Thrown err.

(** The elements that the [k]-th request brings when it asks for [batch]:
    [None] when the query or the spreading of its elements throws. *)
Definition attemptGain (host : Host) (k : nat) (batch : list Bbox)
  : option (list Feature) :=
  match answer host k batch with
  | Returned data =>
      match elements data with Returned els => Some els | Thrown _ => None end
  | Thrown _ => None
  end.

(** What one box adds in the retry loop: its elements, or nothing. *)
Definition retryGain (host : Host) (k : nat) (b : Bbox) : list Feature :=
  default [] (attemptGain host k [b]).

(** What a batch adds, and the number of requests it takes, when its first
    request is number [k]. *)
Definition batchGain (host : Host) (k : nat) (batch : list Bbox)
  : list Feature * nat :=
  match attemptGain host k batch with
  | Some els => (els, 1%nat)
  | None => (concat (imap (fun j b => retryGain host (S k + j) b) batch),
             S (length batch))
  end.

(** What the batches starting at the indices [idxs] add, from request
    number [k] on. *)
Fixpoint gathered (host : Host) (bboxes : list Bbox) (idxs : list nat) (k : nat)
  : list Feature :=
  match idxs with
  | [] => []
  | i :: rest =>
      let gain := batchGain host k (slice i (i + BATCH_SIZE) bboxes) in
      gain.1 ++ gathered host bboxes rest (k + gain.2)
  end.

(** ** Distances *)

(** The distances that the first loop compares with the threshold: one per
    sample that is not skipped. *)
Definition coarseDists (centroidLat centroidLon : R) (routeCoords : list Point)
  : list R :=
  let step := Nat.max 1 (length routeCoords / 500) in
  map (coarseDist centroidLat centroidLon routeCoords step)
      (List.filter
         (fun i => negb (coarseSkipped centroidLat centroidLon routeCoords step i))
         (strided (length routeCoords) 0 step (length routeCoords - 1))).

(** The distances that the second loop compares with the threshold: one per
    segment that is not skipped. *)
Fixpoint fineDists (centroidLat centroidLon : R) (routeCoords : list Point) : list R :=
  match routeCoords with
  | (lon1, lat1) :: (((lon2, lat2) :: _) as rest) =>
      if fineSkip centroidLat centroidLon lon1 lat1 lon2 lat2
      then fineDists centroidLat centroidLon rest
      else fineDist centroidLat centroidLon lon1 lat1 lon2 lat2
           :: fineDists centroidLat centroidLon rest
  | _ => []
  end.

(** [m] is the least element of [ds]. *)
Definition minimumOf (ds : list R) (m : R) : Prop :=
  m ∈ ds ∧ ∀ d, d ∈ ds → m <= d.

(** [p] lies on a segment of the polyline. *)
Definition onPolyline (p : Point) (routeCoords : list Point) : Prop :=
  ∃ i lon1 lat1 lon2 lat2 t,
    routeCoords !! i = Some (lon1, lat1) ∧
    routeCoords !! S i = Some (lon2, lat2) ∧
    0 <= t <= 1 ∧
    p = (lon1 + t * (lon2 - lon1), lat1 + t * (lat2 - lat1)).

(** Every point of the polyline is at [d] metres or more from the centroid,
    as [haversineMeters] measures it. *)
Definition farFromRoute (centroidLat centroidLon : R) (routeCoords : list Point)
    (d : R) : Prop :=
  ∀ lon lat, onPolyline (lon, lat) routeCoords →
             d <= haversineMeters centroidLat centroidLon lat lon.

(** The quantity [a] of [haversineMeters]. *)
Definition haversineA (lat1 lon1 lat2 lon2 : R) : R :=
  sin (toRad (lat2 - lat1) / 2) ^ 2 +
  cos (toRad lat1) * cos (toRad lat2) * sin (toRad (lon2 - lon1) / 2) ^ 2.

(** ** Boxes *)

(** [p] lies in the box [b], at [margin] degrees or more from its sides. *)
Definition withinBox (margin : R) (b : Bbox) (p : Point) : Prop :=
  ∃ s n w e, b = mkBbox (Fin s) (Fin n) (Fin w) (Fin e) ∧
    s + margin <= p.2 ∧ p.2 + margin <= n ∧
    w + margin <= p.1 ∧ p.1 + margin <= e.

(** Each side of [b] is at [margin] degrees exactly from a point of [pts]. *)
Definition touchesBox (margin : R) (b : Bbox) (pts : list Point) : Prop :=
  (∃ p, p ∈ pts ∧ bbox_s b = Fin (p.2 - margin)) ∧
  (∃ p, p ∈ pts ∧ bbox_n b = Fin (p.2 + margin)) ∧
  (∃ p, p ∈ pts ∧ bbox_w b = Fin (p.1 - margin)) ∧
  (∃ p, p ∈ pts ∧ bbox_e b = Fin (p.1 + margin)).

(** The extent holds the point. *)
Definition holds (ex : Extent) (p : Point) : Prop :=
  xltb (Fin p.2) (minLat ex) = false ∧ xltb (maxLat ex) (Fin p.2) = false ∧
  xltb (Fin p.1) (minLon ex) = false ∧ xltb (maxLon ex) (Fin p.1) = false.

(** ** Strings of the request *)

(** A string that the handler goes on with: not empty, of [n] code units at
    most, without a character that [sanitize] removes, not starting with
    white space. *)
Definition accepted (n : nat) (s : JsString) : Prop :=
  s ≠ [] ∧ (length s ≤ n)%nat ∧ Forall (fun c => isSpecial c = false) s ∧
  (∀ c, head s = Some c → isWhiteSpace c = false).

(** ** Ratios *)

(** [k] is an integer nearest to [1000 * nb / km]. *)
Definition nearestTo (nb km : nat) (k : Z) : bool :=
  (2 * Z.abs (k * Z.of_nat km - 1000 * Z.of_nat nb) <=? Z.of_nat km)%Z.

(** Whether rounding ten times the count per 100 km, as [ratio] computes
    it, gives a nearest integer that is not zero. *)
Definition ratioChecked (nb km : nat) : bool :=
  let x := (toNumber (Z.of_nat nb) / toNumber (Z.of_nat km) * 100 * 10)%float in
  (0 <? toNumber (Z.of_nat km))%float &&
  match Prim2SF x with
  | S754_finite s m e =>
      negb (0 <=? e)%Z &&
      (let n := ((2 * (if s then Z.neg m else Z.pos m) + 2 ^ (- e)) / 2 ^ (1 - e))%Z in
       negb (n =? 0)%Z && nearestTo nb km n)
  | _ => false
  end.

(** ** Orders of the leaderboard *)

(** The order that the sort leaves: no entry has more roundabouts than one
    before it. *)
Definition descending : list Entry → Prop :=
  StronglySorted (fun a b => (e_nbRondPoints b ≤ e_nbRondPoints a)%nat).

(** The entries that have at least as many roundabouts as [entry], and
    those that have fewer. *)
Definition atLeast (entry : Entry) (l : list Entry) : list Entry :=
  List.filter (fun x => (e_nbRondPoints entry <=? e_nbRondPoints x)%nat) l.

Definition below (entry : Entry) (l : list Entry) : list Entry :=
  List.filter (fun x => (e_nbRondPoints x <? e_nbRondPoints entry)%nat) l.

(** ** Answers of the handler *)

(** The address that [geocode] asks for a city name encoded as [q]. *)
Definition geocodeUrl (q : string) : string :=
  "https://nominatim.openstreetmap.org/search?" +:+
  "q=" +:+ q +:+ "&format=json&limit=1&countrycodes=fr".

(** The address that [getRoute] asks. *)
Definition routeUrl (site : Site) (fromLon fromLat toLon toLat : option xnum) : string :=
  "https://router.project-osrm.org/route/v1/driving/" +:+
  numberText site fromLon +:+ "," +:+ numberText site fromLat +:+ ";" +:+
  numberText site toLon +:+ "," +:+ numberText site toLat +:+
  "?overview=full&geometries=geojson".

(** What [geocode] makes of a place. *)
Definition geocoded (site : Site) (place : Place) : Geocoded :=
  mkGeocoded (parseFloat site (place_lat place)) (parseFloat site (place_lon place))
    (beforeComma (display_name place)).

(** The world after a call of [geocode] or [getRoute]: one request more at
    most, and one exactly when the call returns. *)
Definition oneRequest {A : Type} (o : outcome A) (w w' : World) : Prop :=
  clock w' = clock w ∧ console w' = console w ∧
  (requests w ≤ requests w' ≤ S (requests w))%nat ∧
  (∀ a, o = Returned a → requests w' = S (requests w)).

(** The requests made and the time waited between two worlds are within
    [n] and [ms]. *)
Definition within (n ms : nat) (w w' : World) : Prop :=
  (requests w ≤ requests w' ≤ requests w + n)%nat ∧
  (clock w ≤ clock w' ≤ clock w + ms)%nat.

(** The entry that the handler makes. *)
Definition entryOf (pseudo : JsString) (from to : Geocoded) (route : Route)
    (nbRondPoints : nat) (date : JsString) : Entry :=
  {| e_pseudo := entryPseudo pseudo;
     e_villeDepart := displayName from;
     e_villeArrivee := displayName to;
     e_nbRondPoints := nbRondPoints;
     e_distanceKm := distanceKm (distance route);
     e_ratio := ratio nbRondPoints (distanceKm (distance route));
     e_date := date |}.

(** The answer is a refusal with status 400, and nothing is written. *)
Definition refused (r : Reply * option (list Entry)) : Prop :=
  ∃ error, r = (mkReply 400 (ErrorBody error), None).

(** The answer reports an error with status 500, and nothing is written. *)
Definition failed (r : Reply * option (list Entry)) : Prop :=
  ∃ err, r = (mkReply 500 (ErrorBody (errorText err)), None).

(** The answer is the result of a challenge: status 200, with the entry,
    its rank and the first twenty of the list, which is written. *)
Definition succeeded (site : Site) (file : LeaderboardFile)
    (pseudo villeDepart villeArrivee : JsValue)
    (r : Reply * option (list Entry)) : Prop :=
  ∃ p d a from to route count date,
    checkInputs pseudo villeDepart villeArrivee = Returned (inr (p, d, a)) ∧
    displayName from ≠ displayName to ∧
    (44%N ∉ displayName from) ∧ (44%N ∉ displayName to) ∧
    let entry := entryOf p from to route count date in
    let saved := trimmed (loadLeaderboard file) entry in
    writeFileSync site saved = None ∧
    r = (mkReply 200 (ResultBody entry (rank saved entry) (top20 saved)), Some saved).

(** The number of commas of a string. *)
Definition commas (s : JsString) : nat := length (List.filter (N.eqb 44) s).

(** The address of the request that the autocomplete handler sends. *)
Definition autocompleteUrl (text : string) : string :=
  "https://nominatim.openstreetmap.org/search?q=" +:+ text +:+
  "&format=json&limit=8&countrycodes=fr&addressdetails=1&dedupe=1".

(** * Inputs of the examples *)

(** A node whose id is 0. *)
Definition zeroNode : Element := mkElement node 0 (Some 0) (Some 0) [] None.

(** A way tagged [junction=roundabout]. *)
Definition roundabout (id : Z) (nodes : list Z) : Element :=
  mkElement way id None None nodes (Some {[ "junction" := "roundabout" ]}).

(** Three ways: [wayA] and [wayB] are apart, [wayC] touches both. *)
Definition wayA : Element := roundabout 1 [1; 2]%Z.
Definition wayB : Element := roundabout 2 [3; 4]%Z.
Definition wayC : Element := roundabout 3 [2; 3]%Z.

(** The nodes 1 to 4 of these ways, all at (0, 0). *)
Definition nodeAt0 (id : Z) : Element := mkElement node id (Some 0) (Some 0) [] None.
Definition fourNodes : list Element := [nodeAt0 1; nodeAt0 2; nodeAt0 3; nodeAt0 4].

(** A route whose only segment has its midpoint at (0, 0). *)
Definition throughOrigin : list Point := [(-1, -1); (1, 1)].

(** A ring [1, 2, 1] whose nodes lie at (0, 0) and (3, 3). *)
Definition ringWay : Element := roundabout 7 [1; 2; 1]%Z.
Definition ringPositions : gmap Z LatLon :=
  {[ 1%Z := mkLatLon 0 0; 2%Z := mkLatLon 3 3 ]}.

(** The bodies busy and down. *)
Definition busy : JsString := [98; 117; 115; 121]%N.
Definition down : JsString := [100; 111; 119; 110]%N.

(** A service that answers every request with [status] and [text]. *)
Definition constantHost (status : nat) (text : JsString) : Host :=
  {| overpass := fun _ _ => Resolved (mkResponse status (Text text));
     encodeURIComponent := fun q => q;
     JSON_parse := fun _ => Thrown (Error "Unexpected token");
     showNumber := fun _ => "0" |}.

(** The world before anything is done. *)
Definition emptyWorld : World := mkWorld 0 0 [].

(** A service that rejects every request. *)
Definition failingHost : Host :=
  {| overpass := fun _ _ => Rejected (Error "fetch failed");
     encodeURIComponent := fun q => q;
     JSON_parse := fun _ => Thrown (Error "Unexpected token");
     showNumber := fun _ => "0" |}.

(** A route of two points. *)
Definition twoPoints : Geometry := mkGeometry [(0, 0); (1, 1)].

(** A node at (0, 0). *)
Definition aNode : Element := mkElement node 10 (Some 0) (Some 0) [] None.

(** A service that answers every request with status 200 and a body that
    parses to [entries]. *)
Definition answeringHost (entries : list Feature) : Host :=
  {| overpass := fun _ _ => Resolved (mkResponse 200 (Text []));
     encodeURIComponent := fun q => q;
     JSON_parse := fun _ => Returned (mkData (Returned entries));
     showNumber := fun _ => "0" |}.

(** Its answers hold [aNode] twice. *)
Definition directHost : Host := answeringHost [Whole aNode; Whole aNode].

(** The errors that the platform raises on [null.id] and on nodes that
    cannot be iterated. *)
Definition nullError : Exn := Error "Cannot read properties of null (reading 'id')".
Definition nodesMissing : Exn := Error "way.nodes is not iterable".

(** Its answers are [{elements: [null]}]. *)
Definition nullHost : Host := answeringHost [Null nullError].

(** Its answers hold one roundabout way, of id 1, that has no nodes. *)
Definition nodelessHost : Host :=
  answeringHost [Nodeless (roundabout 1 []) nodesMissing].

(** A route of three points along the equator, hence three boxes: around
    the first two points, around the last two, and around the last. *)
Definition equatorRoute : Geometry := mkGeometry [(0, 0); (1, 0); (2, 0)].

(** A node on the equator. *)
Definition nodeOn (id : Z) (lon : R) : Element :=
  mkElement node id (Some 0) (Some lon) [] None.

(** The nodes 1 to 4 of the ways A, B and C along this route: nodes 1 and 2
    lie in the first box and west of the second, nodes 3 and 4 in the
    second box and east of the first. *)
Definition equatorNodes : list Element :=
  [nodeOn 1 0.5; nodeOn 2 0.99; nodeOn 3 1.01; nodeOn 4 1.5].

(** What the service holds for the first box and for the second box: the
    ways that have a node in the box, in the order of their ids, then the
    nodes of these ways.  The way C has a node in each box.  It holds
    nothing for the third box. *)
Definition firstBox : list Element :=
  [wayA; wayC; nodeOn 1 0.5; nodeOn 2 0.99; nodeOn 3 1.01].
Definition secondBox : list Element :=
  [wayB; wayC; nodeOn 2 0.99; nodeOn 3 1.01; nodeOn 4 1.5].

(** What it holds for the three boxes together. *)
Definition allBoxes : list Element := [wayA; wayB; wayC] ++ equatorNodes.

(** A service that answers every query with what it holds for the three
    boxes together. *)
Definition batchHost : Host := answeringHost (Whole <$> allBoxes).

(** A service that cuts the first request, the query of the three boxes,
    and answers the next three with what it holds for the first, the
    second and the third box. *)
Definition boxwiseHost : Host :=
  {| overpass := fun k _ =>
       match k with
       | 0%nat => Rejected (Error "The operation was aborted")
       | 1%nat => Resolved (mkResponse 200 (Text [49%N]))
       | 2%nat => Resolved (mkResponse 200 (Text [50%N]))
       | _ => Resolved (mkResponse 200 (Text [51%N]))
       end;
     encodeURIComponent := fun q => q;
     JSON_parse := fun text =>
       match text with
       | [49%N] => Returned (mkData (Returned (Whole <$> firstBox)))
       | [50%N] => Returned (mkData (Returned (Whole <$> secondBox)))
       | _ => Returned (mkData (Returned []))
       end;
     showNumber := fun _ => "0" |}.

(** A route of one segment from (0, 0) to (1, 1), and a centroid west of
    its first point by the number of degrees that the second loop converts
    to 50 m at latitude 0. *)
Definition diagonalRoute : list Point := [(0, 0); (1, 1)].
Definition boundaryLon : R := - (50 / 111320).

(** Half the angle that 1000 m subtend at the centre of the sphere. *)
Definition theta0 : R := 1000 / 12742000.

(** The latitude, in degrees, of the points 1000 m north of the equator. *)
Definition delta : R := 1000 * 180 / (6371000 * PI).

(** A route of 1000 points: east along the parallel [delta] from longitude
    -90 to 90, south to the parallel [- delta], and 998 times that same
    point. *)
Definition cornerRoute : list Point :=
  (-90, delta) :: (90, delta) :: replicate 998 (90, - delta).

(** The first segment of [cornerRoute] alone. *)
Definition parallelRoute : list Point := [(-90, delta); (90, delta)].

(** One segment from (lon 0, lat 89) to (lon 100, lat 89.99); the centroid
    is at (lon 0, lat 89.99). *)
Definition polarRoute : list Point := [(0, 89); (100, 89.99)].

(** A route of one point. *)
Definition onePoint : Geometry := mkGeometry [(0, 0)].

(** The strings Bob, Paris and Lyon. *)
Definition bob : JsString := [66; 111; 98]%N.
Definition paris : JsString := [80; 97; 114; 105; 115]%N.
Definition lyon : JsString := [76; 121; 111; 110]%N.

(** Two entries with three roundabouts each, the second one later. *)
Definition firstEntry : Entry := mkEntry bob paris lyon 3 462 (ratio 3 462) [49]%N.
Definition secondEntry : Entry := mkEntry bob lyon paris 3 462 (ratio 3 462) [50]%N.

(** The display names D,93 and D,974 of two places. *)
Definition denisNorth : JsString := [68; 44; 57; 51]%N.
Definition denisSouth : JsString := [68; 44; 57; 55; 52]%N.

(** A site whose geocoder finds Paris at the first request and Lyon
    afterwards, and whose router finds a route of 250 km. *)
Definition demoSite : Site :=
  {| services := directHost;
     encodeCity := fun _ => Returned "city";
     cityText := fun _ => "city";
     nominatim := fun k _ =>
       Returned [mkPlace "0" "0" (match k with O => paris | _ => lyon end)];
     osrm := fun _ _ => Returned (mkOsrmData "Ok" [mkRoute twoPoints 250000 9000]);
     parseFloat := fun _ => Some (Fin 0);
     toISOString := fun _ => [49]%N;
     inspect := message;
     writeFileSync := fun _ => None |}.

(** The same with a geocoder that finds the two places D. *)
Definition twinSite : Site :=
  {| services := directHost;
     encodeCity := fun _ => Returned "city";
     cityText := fun _ => "city";
     nominatim := fun k _ =>
       Returned [mkPlace "0" "0" (match k with O => denisNorth | _ => denisSouth end)];
     osrm := fun _ _ => Returned (mkOsrmData "Ok" [mkRoute twoPoints 250000 9000]);
     parseFloat := fun _ => Some (Fin 0);
     toISOString := fun _ => [49]%N;
     inspect := message;
     writeFileSync := fun _ => None |}.

(** * Properties *)

(** ** Tactics *)

(** Unfolds the operations of [M]. *)
Ltac run_M :=
  unfold mbind, M_bind, mret, M_ret, throw, try_catch, settle, console_log,
    console_error, delay, fetch, res_text; simpl.

(** Splits the cases of [Rabs], [Rmin] and [Rmax]. *)
Ltac split_real_cases :=
  unfold Rabs, Rmin, Rmax;
  repeat match goal with
         | |- context [Rcase_abs ?x] => destruct (Rcase_abs x)
         | |- context [Rle_dec ?x ?y] => destruct (Rle_dec x y)
         | H : context [Rcase_abs ?x] |- _ => destruct (Rcase_abs x)
         | H : context [Rle_dec ?x ?y] |- _ => destruct (Rle_dec x y)
         end.

Ltac real_arith := split_real_cases; lra.

(** Two readings of one response agree. *)
Ltac same_answer :=
  repeat match goal with
         | H : Resolved _ = Resolved _ |- _ => injection H as <-
         | H : Rejected _ = Resolved _ |- _ => discriminate H
         | H1 : ?x = _, H2 : ?x = _ |- _ => rewrite H1 in H2
         | H : Text _ = Text _ |- _ => injection H as <-
         | H : Returned _ = Returned _ |- _ => injection H as <-
         | H : _ = _ |- _ => discriminate H
         end; subst.

(** ** Comparisons *)

Lemma ltb_lt (x y : R) : ltb x y = true ↔ x < y.
Proof. unfold ltb. destruct (Rlt_dec x y); split; intros; done. Qed.

Lemma ltb_ge (x y : R) : ltb x y = false ↔ y <= x.
Proof. unfold ltb. destruct (Rlt_dec x y); split; intros; try done; lra. Qed.

Lemma eqb_eq (x y : R) : eqb x y = true ↔ x = y.
Proof. unfold eqb. destruct (Req_dec_T x y); split; intros; done. Qed.

Lemma eqb_neq (x y : R) : eqb x y = false ↔ x ≠ y.
Proof. unfold eqb. destruct (Req_dec_T x y); split; intros; done. Qed.

(** ** Index loops *)

Section IndexLoops.
Local Open Scope nat_scope.

Lemma ceil_div_le (a b q : nat) : 1 ≤ b → ceil_div a b ≤ q ↔ a ≤ q * b.
Proof.
  intros Hb. unfold ceil_div. split; intros H.
  - pose proof (Nat.div_mod_eq (a + b - 1) b) as E.
    pose proof (Nat.mod_upper_bound (a + b - 1) b ltac:(lia)) as U. nia.
  - apply Nat.lt_succ_r, Nat.Div0.div_lt_upper_bound. nia.
Qed.

Lemma ceil_div_gt (a b k : nat) : 1 ≤ b → k < ceil_div a b ↔ k * b < a.
Proof. intros Hb. pose proof (ceil_div_le a b k Hb). lia. Qed.

Lemma ceil_div_0 (b : nat) : 1 ≤ b → ceil_div 0 b = 0.
Proof. intros Hb. pose proof (ceil_div_le 0 b 0 Hb). lia. Qed.

Lemma ceil_div_step (a b : nat) :
  1 ≤ b → 1 ≤ a → ceil_div a b = S (ceil_div (a - b) b).
Proof.
  intros Hb Ha.
  pose proof (ceil_div_le a b (S (ceil_div (a - b) b)) Hb) as [_ U].
  pose proof (ceil_div_le (a - b) b (ceil_div (a - b) b) Hb) as [V _].
  pose proof (ceil_div_gt a b (ceil_div (a - b) b) Hb) as [_ W].
  assert (ceil_div (a - b) b * b < a).
  { destruct (ceil_div (a - b) b) as [|q] eqn:E; [lia|].
    pose proof (ceil_div_gt (a - b) b q Hb) as [X _]. rewrite E in X. lia. }
  lia.
Qed.

(** The loop stops by its own test: with [stop - start] iterations allowed
    the indices are [start], [start + step], ... below [stop]. *)
Lemma strided_spec (fuel start step stop : nat) :
  1 ≤ step → stop - start ≤ fuel →
  strided fuel start step stop =
  map (fun k => start + k * step) (seq 0 (ceil_div (stop - start) step)).
Proof.
  intros Hstep. revert start.
  induction fuel as [|fuel IH]; intros start Hfuel; simpl.
  - replace (stop - start) with 0 by lia. by rewrite ceil_div_0.
  - destruct (Nat.ltb_spec start stop) as [Hlt|Hge].
    + rewrite (ceil_div_step (stop - start) step) by lia.
      rewrite IH by lia. simpl. f_equal; [lia|].
      replace (stop - start - step) with (stop - (start + step)) by lia.
      rewrite <- seq_shift, map_map. apply map_ext. intros k. lia.
    + replace (stop - start) with 0 by lia. by rewrite ceil_div_0.
Qed.

Lemma strided_fuel (fuel start step stop : nat) :
  1 ≤ step → stop - start ≤ fuel →
  strided fuel start step stop = strided (stop - start) start step stop.
Proof. intros. rewrite !strided_spec; done. Qed.

Lemma strided_from_0 (step stop : nat) :
  1 ≤ step →
  strided stop 0 step stop = map (fun k => k * step) (seq 0 (ceil_div stop step)).
Proof.
  intros. rewrite strided_spec by lia. by rewrite Nat.sub_0_r.
Qed.

End IndexLoops.

(** ** Region segmenter *)

Section Segmenter.
Local Open Scope nat_scope.

Lemma segmentSize_pos (len maxSegments : nat) : 1 ≤ segmentSize len maxSegments.
Proof. unfold segmentSize. destruct maxSegments; lia. Qed.

Lemma segmentSize_covers (len maxSegments : nat) :
  1 ≤ maxSegments → len ≤ maxSegments * segmentSize len maxSegments.
Proof.
  intros HM. unfold segmentSize. destruct maxSegments as [|m]; [lia|].
  pose proof (ceil_div_le len (S m) (ceil_div len (S m)) ltac:(lia)) as [H _].
  specialize (H ltac:(lia)). nia.
Qed.

Lemma segments_indexed {A : Type} (f : list Point → A) (coords : list Point)
    (maxSegments : nat) :
  let size := segmentSize (length coords) maxSegments in
  map (fun i => f (slice i (i + size + 1) coords))
      (strided (length coords) 0 size (length coords)) =
  map (fun k => f (slice (k * size) (k * size + size + 1) coords))
      (seq 0 (ceil_div (length coords) size)).
Proof.
  intros size. rewrite strided_from_0 by apply segmentSize_pos.
  by rewrite map_map.
Qed.

Lemma computeSegmentBboxes_segments (coords : list Point) (maxSegments : nat) :
  computeSegmentBboxes coords maxSegments = map bboxOf (segments coords maxSegments).
Proof. unfold computeSegmentBboxes, segments. by rewrite map_map. Qed.

Lemma segments_length (coords : list Point) (maxSegments : nat) :
  length (segments coords maxSegments) =
  ceil_div (length coords) (segmentSize (length coords) maxSegments).
Proof.
  unfold segments. rewrite (segments_indexed (fun c => c)).
  by rewrite length_map, length_seq.
Qed.

(** At most [maxSegments] boxes, whatever the length of the polyline. *)
Lemma computeSegmentBboxes_length (coords : list Point) (maxSegments : nat) :
  1 ≤ maxSegments → length (computeSegmentBboxes coords maxSegments) ≤ maxSegments.
Proof.
  intros HM. rewrite computeSegmentBboxes_segments, length_map, segments_length.
  apply ceil_div_le; [apply segmentSize_pos|].
  by apply segmentSize_covers.
Qed.

Lemma segments_lookup (coords : list Point) (maxSegments k : nat) (chunk : list Point) :
  let size := segmentSize (length coords) maxSegments in
  segments coords maxSegments !! k = Some chunk →
  chunk = slice (k * size) (k * size + size + 1) coords ∧ k * size < length coords.
Proof.
  intros size. unfold segments. rewrite (segments_indexed (fun c => c)).
  fold size. rewrite list_lookup_fmap.
  destruct (seq 0 (ceil_div (length coords) size) !! k) as [j|] eqn:E; [|done].
  apply lookup_seq in E as [-> Hk]. simpl. intros [= <-]. split; [done|].
  by apply ceil_div_gt in Hk; [|apply segmentSize_pos].
Qed.

Lemma slice_full {A : Type} (l : list A) (i size : nat) :
  slice i (i + size + 1) l = take (S size) (drop i l).
Proof. unfold slice. f_equal. lia. Qed.

(** Cutting [l] every [size] elements, [m] times, and keeping the rest. *)
Lemma take_drop_telescope {A : Type} (l : list A) (size m : nat) :
  concat (map (fun k => take size (drop (k * size) l)) (seq 0 m)) ++ drop (m * size) l = l.
Proof.
  induction m as [|m IH]; [done|].
  rewrite seq_S, map_app, concat_app. simpl. rewrite app_nil_r, <- app_assoc.
  etrans; [|exact IH]. f_equal.
  replace (size + m * size) with (m * size + size) by lia.
  rewrite <- (drop_drop l size (m * size)). apply take_drop.
Qed.

End Segmenter.

Section SegmenterClaim.
Local Open Scope nat_scope.

Lemma segments_overlap (coords : list Point) (maxSegments k : nat) (c1 c2 : list Point) :
  segments coords maxSegments !! k = Some c1 →
  segments coords maxSegments !! S k = Some c2 →
  ∃ p, last c1 = Some p ∧ head c2 = Some p.
Proof.
  intros H1 H2.
  apply segments_lookup in H1 as [-> _]. apply segments_lookup in H2 as [-> Hlt].
  set (size := segmentSize (length coords) maxSegments) in *.
  rewrite !slice_full.
  destruct (coords !! (S k * size)) as [p|] eqn:E;
    [|apply lookup_ge_None in E; lia].
  exists p. split.
  - rewrite last_lookup, length_take, length_drop.
    replace (Nat.pred (S size `min` (length coords - k * size))) with size by lia.
    rewrite lookup_take_lt by lia. rewrite lookup_drop.
    by replace (k * size + size) with (S k * size) by lia.
  - rewrite head_lookup, lookup_take_lt by lia. rewrite lookup_drop.
    by rewrite Nat.add_0_r.
Qed.

Lemma segments_reconstruct (coords : list Point) (maxSegments : nat) :
  1 ≤ length coords →
  concat (map (@removelast Point) (removelast (segments coords maxSegments)))
    ++ default [] (last (segments coords maxSegments)) = coords.
Proof.
  intros HL. unfold segments. rewrite (segments_indexed (fun c => c)).
  set (size := segmentSize (length coords) maxSegments).
  assert (1 ≤ size) as Hsize by apply segmentSize_pos.
  destruct (ceil_div (length coords) size) as [|m] eqn:En.
  { pose proof (ceil_div_le (length coords) size 0 Hsize) as [H _]. lia. }
  pose proof (ceil_div_gt (length coords) size m Hsize) as [Hm _].
  pose proof (ceil_div_le (length coords) size (S m) Hsize) as [HSm _].
  rewrite En in Hm, HSm. specialize (Hm ltac:(lia)). specialize (HSm ltac:(lia)).
  rewrite seq_S, map_app. simpl.
  rewrite removelast_last, last_snoc. simpl.
  rewrite map_map.
  rewrite (map_ext_in _ (fun k => take size (drop (k * size) coords))).
  - rewrite slice_full, take_ge by (rewrite length_drop; lia).
    apply take_drop_telescope.
  - intros k Hk. apply in_seq in Hk. rewrite slice_full.
    apply removelast_firstn. rewrite length_drop. nia.
Qed.

(** C6. For a polyline of at least two points and a maximum of at least one
    segment, [computeSegmentBboxes] makes one box per chunk and at most
    [maxSegments] of them; chunk [k] is the slice that starts at index
    [k * segmentSize] and holds [segmentSize + 1] points (fewer at the end of
    the polyline); the last point of a chunk is the first point of the next;
    and the chunks, each but the last without its final point, concatenate to
    the polyline. *)
Theorem computeSegmentBboxes_chunks (coords : list Point) (maxSegments : nat) :
  2 ≤ length coords → 1 ≤ maxSegments →
  let chunks := segments coords maxSegments in
  let size := segmentSize (length coords) maxSegments in
  computeSegmentBboxes coords maxSegments = map bboxOf chunks ∧
  length (computeSegmentBboxes coords maxSegments) ≤ maxSegments ∧
  (∀ k chunk, chunks !! k = Some chunk →
     chunk = slice (k * size) (k * size + size + 1) coords ∧
     k * size < length coords) ∧
  (∀ k c1 c2, chunks !! k = Some c1 → chunks !! S k = Some c2 →
     ∃ p, last c1 = Some p ∧ head c2 = Some p) ∧
  concat (map (@removelast Point) (removelast chunks)) ++ default [] (last chunks) = coords.
Proof.
  intros HL HM chunks size. repeat split.
  - apply computeSegmentBboxes_segments.
  - by apply computeSegmentBboxes_length.
  - by apply segments_lookup in H as [? ?].
  - by apply segments_lookup in H as [? ?].
  - apply segments_overlap.
  - apply segments_reconstruct. lia.
Qed.

(** The theorem at the polyline [(0,0), (1,0), (2,0)] cut into two. *)
Lemma computeSegmentBboxes_chunks_witness :
  segments [(0, 0); (1, 0); (2, 0)]%R 2 = [[(0, 0); (1, 0); (2, 0)]; [(2, 0)]]%R ∧
  concat (map (@removelast Point) (removelast (segments [(0, 0); (1, 0); (2, 0)]%R 2)))
    ++ default [] (last (segments [(0, 0); (1, 0); (2, 0)]%R 2))
  = [(0, 0); (1, 0); (2, 0)]%R.
Proof.
  split; [reflexivity|].
  apply (computeSegmentBboxes_chunks [(0, 0); (1, 0); (2, 0)]%R 2); simpl; lia.
Defined.

End SegmenterClaim.

(** ** Feature deduplicator *)

Section Deduplicator.

Lemma elementKey_inj (a b : Element) :
  elementKey a = elementKey b ↔ identity a = identity b.
Proof.
  unfold elementKey, identity. split.
  - destruct (el_type a), (el_type b); simpl; intros H; try discriminate H;
      injection H as H; by apply pretty_Z_inj in H as ->.
  - by intros [= -> ->].
Qed.

Lemma om_get_None {K V : Type} `{EqDecision K} (m : list (K * V)) (k : K) :
  om_get m k = None ↔ k ∉ m.*1.
Proof.
  induction m as [|[k' v] m IH]; simpl.
  - split; [intros _; apply not_elem_of_nil|done].
  - rewrite not_elem_of_cons. destruct (decide (k = k')); [|tauto].
    split; [done|tauto].
Qed.

Lemma om_set_fresh {K V : Type} `{EqDecision K} (m : list (K * V)) (k : K) (v : V) :
  om_get m k = None → om_set m k v = m ++ [(k, v)].
Proof.
  induction m as [|[k' v'] m IH]; simpl; [done|].
  destruct (decide (k = k')); [done|]. intros H. by rewrite IH.
Qed.

Lemma keyed_has (m : list (string * Element)) (el : Element) :
  keyed m →
  om_has m (elementKey el) = bool_decide (identity el ∈ identity <$> om_values m).
Proof.
  intros Hm. unfold om_has.
  destruct (om_get m (elementKey el)) as [v|] eqn:E.
  - symmetry. apply bool_decide_eq_true.
    assert (elementKey el ∈ m.*1) as Hin.
    { destruct (decide (elementKey el ∈ m.*1)) as [|Hn]; [done|].
      apply om_get_None in Hn. congruence. }
    apply list_elem_of_fmap in Hin as [[k v'] [Hk Hin]]. simpl in Hk.
    apply list_elem_of_fmap. exists v'. split.
    + unfold keyed in Hm. rewrite Forall_forall in Hm.
      specialize (Hm _ Hin). simpl in Hm. apply elementKey_inj. congruence.
    + unfold om_values. apply list_elem_of_fmap. by exists (k, v').
  - symmetry. apply bool_decide_eq_false. intros Hin.
    apply om_get_None in E. apply E.
    apply list_elem_of_fmap in Hin as [v [Hid Hin]].
    unfold om_values in Hin. apply list_elem_of_fmap in Hin as [[k v'] [-> Hin]].
    apply list_elem_of_fmap. exists (k, v'). split; [|done]. simpl.
    unfold keyed in Hm. rewrite Forall_forall in Hm.
    specialize (Hm _ Hin). simpl in *. rewrite Hm. by apply elementKey_inj.
Qed.

Lemma dedup_loop (l : list Element) (m : list (string * Element)) :
  keyed m →
  om_values (fold_left dedupStep l m) =
  om_values m ++
  keepFirst (identity <$> om_values m)
            (List.filter (fun el => truthy (el_id el)) l).
Proof.
  revert m. induction l as [|el l IH]; intros m Hm; simpl.
  - by rewrite app_nil_r.
  - unfold dedupStep at 2. destruct (truthy (el_id el)) eqn:Ht; simpl.
    + rewrite keyed_has by done.
      destruct (bool_decide (identity el ∈ identity <$> om_values m)) eqn:Hs; simpl.
      * by apply IH.
      * assert (om_get m (elementKey el) = None) as Hnone.
        { pose proof (keyed_has m el Hm) as Hh. rewrite Hs in Hh.
          unfold om_has in Hh. by destruct (om_get m (elementKey el)). }
        rewrite om_set_fresh by done. rewrite IH.
        -- unfold om_values. rewrite !fmap_app. simpl. by rewrite <- app_assoc.
        -- apply Forall_app. split; [done|]. by apply Forall_singleton.
    + by apply IH.
Qed.

Lemma keepFirst_fresh (seen : list (EType * Z)) (l : list Element) (el : Element) :
  el ∈ keepFirst seen l → identity el ∉ seen.
Proof.
  revert seen. induction l as [|x l IH]; intros seen; simpl.
  - intros H. by apply elem_of_nil in H.
  - case_bool_decide as Hx; [by apply IH|].
    intros [->|H]%elem_of_cons; [done|].
    apply IH in H. intros Hin. apply H. apply elem_of_app. by left.
Qed.

Lemma keepFirst_NoDup (seen : list (EType * Z)) (l : list Element) :
  NoDup (identity <$> keepFirst seen l).
Proof.
  revert seen. induction l as [|x l IH]; intros seen; simpl.
  - constructor.
  - case_bool_decide as Hx; [by apply IH|].
    rewrite fmap_cons. constructor; [|by apply IH].
    intros Hin. apply list_elem_of_fmap in Hin as [y [Hy Hin]].
    apply keepFirst_fresh in Hin. apply Hin. rewrite <- Hy.
    apply elem_of_app. right. by apply list_elem_of_singleton.
Qed.

(** C7, as the code has it.  The features kept are the first occurrences,
    in order, of the identities of the features whose id is truthy
    (non-zero); a feature whose id is zero is dropped; no identity is kept
    twice. *)
Theorem uniqueElements_first_occurrences (allElements : list Element) :
  uniqueElements allElements =
    keepFirst [] (List.filter (fun el => truthy (el_id el)) allElements) ∧
  NoDup (identity <$> uniqueElements allElements).
Proof.
  assert (uniqueElements allElements =
          keepFirst [] (List.filter (fun el => truthy (el_id el)) allElements)) as E.
  { unfold uniqueElements. rewrite dedup_loop by constructor. done. }
  split; [done|]. rewrite E. apply keepFirst_NoDup.
Qed.

(** C7 as stated fails: the only occurrence of the identity (node, 0) is not
    kept. *)
Lemma uniqueElements_drops_zero_id :
  keepFirst [] [zeroNode] = [zeroNode] ∧ uniqueElements [zeroNode] = [].
Proof. split; reflexivity. Qed.

End Deduplicator.

(** ** Junction grouper *)

Section Grouper.

Lemma groups_A_B_C :
  deduplicateRoundabouts [wayA; wayB; wayC] =
  [(Some 0%nat, [wayA; wayC]); (Some 1%nat, [wayB])].
Proof. vm_compute. reflexivity. Qed.

Lemma groups_A_C_B :
  deduplicateRoundabouts [wayA; wayC; wayB] =
  [(Some 0%nat, [wayA; wayC; wayB])].
Proof. vm_compute. reflexivity. Qed.

Lemma sameGroup_ids (groups : list (option nat * list Element)) (a b : Element) :
  sameGroup groups a b →
  ∃ ids, ids ∈ groupIds groups ∧ el_id a ∈ ids ∧ el_id b ∈ ids.
Proof.
  intros (g & Hg & Ha & Hb). exists (map el_id g.2). split; [|split].
  - unfold groupIds. apply list_elem_of_fmap. by exists g.
  - apply list_elem_of_fmap. by exists a.
  - apply list_elem_of_fmap. by exists b.
Qed.

Lemma wayB_wayC_split : ¬ sameGroup (deduplicateRoundabouts [wayA; wayB; wayC]) wayB wayC.
Proof.
  intros H. apply sameGroup_ids in H as (ids & Hin & Hb & Hc).
  rewrite groups_A_B_C in Hin. unfold groupIds in Hin. simpl in Hin, Hb, Hc.
  apply elem_of_cons in Hin as [->|Hin].
  - by apply (bool_decide_eq_false_1 (2%Z ∈ [1; 3]%Z)) in Hb.
  - apply list_elem_of_singleton in Hin as ->.
    by apply (bool_decide_eq_false_1 (3%Z ∈ [2]%Z)) in Hc.
Qed.

Lemma wayB_wayC_chained : chained [wayA; wayB; wayC] wayB wayC.
Proof.
  assert (wayB ∈ [wayA; wayB; wayC]) as HB
    by apply list_elem_of_further, list_elem_of_here.
  assert (wayC ∈ [wayA; wayB; wayC]) as HC
    by apply list_elem_of_further, list_elem_of_further, list_elem_of_here.
  apply chained_step with wayC; [done|done| |by apply chained_refl].
  exists 3%Z. split; [|apply list_elem_of_further]; apply list_elem_of_here.
Qed.

(** C2 fails on the code.  On the ways A = [1, 2], B = [3, 4], C = [2, 3]
    taken in this order, C is put in the group of A and B stays alone,
    although B and C share node 3. *)
Theorem deduplicateRoundabouts_misses_bridge :
  groupIds (deduplicateRoundabouts [wayA; wayB; wayC]) = [[1; 3]; [2]]%Z ∧
  sharesNode wayB wayC ∧
  chained [wayA; wayB; wayC] wayB wayC ∧
  ¬ sameGroup (deduplicateRoundabouts [wayA; wayB; wayC]) wayB wayC.
Proof.
  split; [by rewrite groups_A_B_C|]. split; [|split].
  - exists 3%Z. split; [|apply list_elem_of_further]; apply list_elem_of_here.
  - apply wayB_wayC_chained.
  - apply wayB_wayC_split.
Qed.

(** C3 fails on the code.  The same three ways in the order A, C, B form one
    group; in the order A, B, C they form two. *)
Theorem deduplicateRoundabouts_order_dependent :
  [wayA; wayB; wayC] ≡ₚ [wayA; wayC; wayB] ∧
  groupIds (deduplicateRoundabouts [wayA; wayB; wayC]) = [[1; 3]; [2]]%Z ∧
  groupIds (deduplicateRoundabouts [wayA; wayC; wayB]) = [[1; 3; 2]]%Z ∧
  sameGroup (deduplicateRoundabouts [wayA; wayC; wayB]) wayB wayC ∧
  ¬ sameGroup (deduplicateRoundabouts [wayA; wayB; wayC]) wayB wayC.
Proof.
  split; [|split; [|split; [|split]]].
  - constructor. apply Permutation_swap.
  - by rewrite groups_A_B_C.
  - by rewrite groups_A_C_B.
  - rewrite groups_A_C_B. eexists. split; [apply list_elem_of_here|].
    simpl. split.
    + apply list_elem_of_further, list_elem_of_further, list_elem_of_here.
    + apply list_elem_of_further, list_elem_of_here.
  - apply wayB_wayC_split.
Qed.

End Grouper.

(** ** Centroid *)

Section Centroid.

Lemma addNode_fold (nodePositions : gmap Z LatLon) (nodes : list Z)
    (sumLat sumLon : R) (count : nat) :
  let ps := omap (fun nodeId => nodePositions !! nodeId) nodes in
  fold_left (addNode nodePositions) nodes (sumLat, sumLon, count) =
  (sumLat + sumR (pos_lat <$> ps), sumLon + sumR (pos_lon <$> ps),
   (count + length ps)%nat).
Proof.
  revert sumLat sumLon count. unfold sumR.
  induction nodes as [|nodeId nodes IH]; intros sumLat sumLon count; simpl.
  - f_equal; [f_equal; lra|lia].
  - destruct (nodePositions !! nodeId) as [pos|]; simpl; [|apply IH].
    rewrite IH. simpl.
    f_equal; [f_equal; apply Rplus_assoc|symmetry; apply Nat.add_succ_r].
Qed.

Lemma groupSums_fold (nodePositions : gmap Z LatLon) (ways : list Element)
    (sumLat sumLon : R) (count : nat) :
  let ps := resolvedPositions nodePositions ways in
  fold_left (fun acc w0 => fold_left (addNode nodePositions) (el_nodes w0) acc)
            ways (sumLat, sumLon, count) =
  (sumLat + sumR (pos_lat <$> ps), sumLon + sumR (pos_lon <$> ps),
   (count + length ps)%nat).
Proof.
  unfold resolvedPositions. revert sumLat sumLon count.
  induction ways as [|w0 ways IH]; intros sumLat sumLon count; simpl.
  - unfold sumR. simpl. f_equal; [f_equal; lra|lia].
  - rewrite addNode_fold, IH. rewrite omap_app, !fmap_app, length_app.
    unfold sumR. rewrite !foldr_app.
    assert (∀ (l : list R) (x : R), foldr Rplus x l = foldr Rplus 0 l + x) as Hf.
    { induction l as [|y l IHl]; intros x; simpl; [lra|]. rewrite IHl. lra. }
    rewrite (Hf (pos_lat <$> _) (foldr _ _ _)), (Hf (pos_lon <$> _) (foldr _ _ _)).
    f_equal; [f_equal; lra|lia].
Qed.

Lemma centroidOf_meanPosition (nodePositions : gmap Z LatLon) (ways : list Element) :
  centroidOf nodePositions ways = meanPosition (resolvedPositions nodePositions ways).
Proof.
  unfold centroidOf, groupSums. rewrite groupSums_fold. simpl.
  destruct (resolvedPositions nodePositions ways) as [|p ps]; [done|].
  unfold meanPosition, mean. rewrite !length_fmap. simpl length.
  rewrite !Rplus_0_l. done.
Qed.

(** C5, as the code has it.  The centroid of a group is the arithmetic mean
    of the positions that the table holds for the node references of its
    ways, one contribution per reference (a node id listed twice counts
    twice); a group none of whose references has a position has no centroid
    and leaves the count as it is. *)
Theorem centroidOf_mean_of_references (nodePositions : gmap Z LatLon)
    (ways : list Element) (coords : list Point) (nearCount : nat) (gid : option nat) :
  centroidOf nodePositions ways =
    meanPosition (resolvedPositions nodePositions ways) ∧
  (resolvedPositions nodePositions ways = [] →
   centroidOf nodePositions ways = None ∧
   countGroup nodePositions coords nearCount (gid, ways) = nearCount).
Proof.
  split; [apply centroidOf_meanPosition|].
  intros Hnone. unfold countGroup. simpl.
  by rewrite centroidOf_meanPosition, Hnone.
Qed.

Lemma ring_resolved :
  resolvedPositions ringPositions [ringWay] = [mkLatLon 0 0; mkLatLon 3 3; mkLatLon 0 0] ∧
  distinctPositions ringPositions [ringWay] = [mkLatLon 3 3; mkLatLon 0 0].
Proof. split; reflexivity. Qed.

(** The theorem at a way whose nodes are unknown to the table. *)
Lemma centroidOf_mean_of_references_witness :
  resolvedPositions ∅ [ringWay] = [] ∧
  centroidOf ∅ [ringWay] = None ∧
  countGroup ∅ [(0, 0); (1, 1)] 4 (Some 0%nat, [ringWay]) = 4%nat.
Proof.
  split; [reflexivity|].
  apply (centroidOf_mean_of_references ∅ [ringWay] [(0, 0); (1, 1)] 4 (Some 0%nat)).
  reflexivity.
Defined.

(** C5 as stated fails: node 1 closes the ring and is counted twice, so the
    centroid is (1, 1) and not the mean (3/2, 3/2) of the two distinct
    nodes. *)
Lemma centroidOf_counts_repeated_node :
  centroidOf ringPositions [ringWay] = Some (1, 1) ∧
  meanPosition (distinctPositions ringPositions [ringWay]) = Some (3 / 2, 3 / 2) ∧
  centroidOf ringPositions [ringWay] ≠
    meanPosition (distinctPositions ringPositions [ringWay]).
Proof.
  destruct ring_resolved as [E1 E2].
  assert (centroidOf ringPositions [ringWay] = Some (1, 1)) as H1.
  { rewrite centroidOf_meanPosition, E1. unfold meanPosition, mean, sumR. simpl.
    f_equal. f_equal; lra. }
  assert (meanPosition (distinctPositions ringPositions [ringWay])
          = Some (3 / 2, 3 / 2)) as H2.
  { rewrite E2. unfold meanPosition, mean, sumR. simpl. f_equal. f_equal; lra. }
  split; [done|]. split; [done|].
  rewrite H1, H2. intros [= H _]. lra.
Qed.

End Centroid.

(** ** Spatial query client *)

Section QueryClient.
Variable host : Host.

(** A response that is not [ok]: what is thrown, and what the world is
    afterwards. *)
Lemma queryOverpassBboxes_http_error (bboxes : list Bbox) (w : World)
    (res : Response) :
  overpass host (requests w) (requestBody host bboxes) = Resolved res →
  ok res = false →
  queryOverpassBboxes host bboxes w =
  match body res with
  | Text text =>
      (Thrown (httpError res),
       mkWorld (clock w) (S (requests w))
         (console w ++ [queryLine host bboxes] ++
          [Err ["[Overpass] HTTP error:"; pretty (status res);
                utf8 (substring0 200 text)]]))
  | Unreadable err =>
      (Thrown err,
       mkWorld (clock w) (S (requests w)) (console w ++ [queryLine host bboxes]))
  end.
Proof.
  intros Hres Hok. unfold queryOverpassBboxes, requestBody in *. run_M.
  rewrite Hres, Hok. simpl. destruct (body res); simpl; [|done].
  by rewrite <- app_assoc.
Qed.

Lemma httpError_status (res res' : Response) :
  httpError res' = httpError res → status res' = status res.
Proof.
  unfold httpError. intros [= H]. by apply pretty_nat_inj in H.
Qed.

(** C9, as the code has it.  When the service answers with a status outside
    200-299 and the body of the answer can be read, [queryOverpassBboxes]
    throws an error whose message is the text Overpass API HTTP followed by
    the status, so that the error determines the status; the first 200
    code units of the body go to the console with the status, not into the
    error.  When the body cannot be read, the error of the reading is
    thrown instead, and no error line is written. *)
Theorem queryOverpassBboxes_http_status (bboxes : list Bbox) (w : World)
    (res : Response) :
  overpass host (requests w) (requestBody host bboxes) = Resolved res →
  ok res = false →
  ∃ o w',
    queryOverpassBboxes host bboxes w = (o, w') ∧
    (∀ text, body res = Text text →
       o = Thrown (httpError res) ∧
       console w' = console w ++ [queryLine host bboxes] ++
                    [Err ["[Overpass] HTTP error:"; pretty (status res);
                          utf8 (substring0 200 text)]]) ∧
    (∀ err, body res = Unreadable err →
       o = Thrown err ∧ console w' = console w ++ [queryLine host bboxes]) ∧
    message (httpError res) = "Overpass API HTTP " +:+ pretty (status res) ∧
    (∀ res', httpError res' = httpError res → status res' = status res).
Proof.
  intros Hres Hok. rewrite (queryOverpassBboxes_http_error bboxes w res Hres Hok).
  destruct (body res) as [text|err]; eexists _, _; (split; [reflexivity|]).
  - split; [by intros ? [= <-]|]. split; [done|]. split; [done|].
    intros res'. apply httpError_status.
  - split; [done|]. split; [by intros ? [= <-]|]. split; [done|].
    intros res'. apply httpError_status.
Qed.

End QueryClient.

(** The theorem at a service that answers 500 with the body busy. *)
Lemma queryOverpassBboxes_http_status_witness :
  ∃ w', queryOverpassBboxes (constantHost 500 busy) [] emptyWorld
        = (Thrown (Error "Overpass API HTTP 500"), w') ∧
        last (console w') = Some (Err ["[Overpass] HTTP error:"; "500"; "busy"]).
Proof.
  destruct (queryOverpassBboxes_http_status (constantHost 500 busy) []
              emptyWorld (mkResponse 500 (Text busy)))
    as (o & w' & E & Htext & _); [reflexivity|reflexivity|].
  destruct (Htext busy eq_refl) as [-> Hconsole].
  exists w'. split; [exact E|]. rewrite Hconsole. reflexivity.
Defined.

(** C9 as stated fails: two answers with the same status and different
    bodies make [queryOverpassBboxes] throw the same error, so the error does
    not carry the body. *)
Lemma queryOverpassBboxes_error_without_body :
  (queryOverpassBboxes (constantHost 500 busy) [] emptyWorld).1
    = Thrown (Error "Overpass API HTTP 500") ∧
  (queryOverpassBboxes (constantHost 500 down) [] emptyWorld).1
    = Thrown (Error "Overpass API HTTP 500") ∧
  substring0 200 busy ≠ substring0 200 down.
Proof. split; [|split]; [reflexivity|reflexivity|discriminate]. Qed.

(** ** Batch orchestrator and counter *)

Section Orchestrator.
Variable host : Host.

(** What a query gives depends on the world through the number of requests
    made before it only, and it makes one request. *)
Lemma queryOverpassBboxes_answer (bboxes : list Bbox) (w : World) :
  ∃ w', queryOverpassBboxes host bboxes w = (answer host (requests w) bboxes, w') ∧
        requests w' = S (requests w).
Proof.
  unfold answer, queryOverpassBboxes. run_M.
  destruct (overpass host (requests w) _) as [res|err]; simpl; [|by eexists].
  destruct (negb (ok res)); simpl.
  - destruct (body res); simpl; by eexists.
  - destruct (body res); simpl; [|by eexists].
    destruct (JSON_parse host text); simpl; by eexists.
Qed.

(** One attempt: a query followed by the push of its elements. *)
Lemma attempt_run (bboxes : list Bbox) (allElements : list Feature) (w : World) :
  ∃ w', requests w' = S (requests w) ∧
    ((data ← queryOverpassBboxes host bboxes ; pushElements allElements data) w =
       (Returned (allElements ++ default [] (attemptGain host (requests w) bboxes)), w')
     ∧ is_Some (attemptGain host (requests w) bboxes)
     ∨ ∃ err,
       (data ← queryOverpassBboxes host bboxes ; pushElements allElements data) w =
         (Thrown err, w')
       ∧ attemptGain host (requests w) bboxes = None).
Proof.
  destruct (queryOverpassBboxes_answer bboxes w) as (w' & E & Hreq).
  exists w'. split; [done|]. unfold mbind, M_bind. rewrite E. unfold attemptGain.
  destruct (answer host (requests w) bboxes) as [data|err]; [|right; by eexists].
  unfold pushElements. destruct (elements data); [left|right]; by eauto.
Qed.

(** The retry loop never throws; box number [j] of the batch is asked by
    request number [requests w + j]. *)
Lemma retryEach_run (batch : list Bbox) (allElements : list Feature) (w : World) :
  ∃ w', requests w' = (requests w + length batch)%nat ∧
    retryEach host batch allElements w =
    (Returned (allElements ++
               concat (imap (fun j b => retryGain host (requests w + j) b) batch)), w').
Proof.
  revert allElements w. induction batch as [|b batch IH]; intros allElements w.
  - exists w. simpl. rewrite app_nil_r. split; [lia|done].
  - cbn [retryEach]. unfold mbind at 1, M_bind at 1, try_catch.
    unfold mbind at 1, M_bind at 1, delay.
    set (w1 := mkWorld (clock w + 5000) (requests w) (console w)).
    assert (∃ w3, requests w3 = S (requests w) ∧
      (let (o, w') :=
         (data ← queryOverpassBboxes host [b] ; pushElements allElements data) w1 in
       match o with
       | Returned a => (Returned a, w')
       | Thrown err =>
           (console_error ["[Overpass] Single bbox retry also failed:"; message err] ;;
            mret allElements) w'
       end) = (Returned (allElements ++ retryGain host (requests w) b), w3))
      as (w3 & Hreq3 & ->).
    { destruct (attempt_run [b] allElements w1) as (w2 & Hreq2 & [[-> _]|(err & -> & Hn)]).
      - by exists w2.
      - unfold retryGain. simpl in Hn. rewrite Hn. simpl. rewrite app_nil_r.
        eexists. run_M. split; [|done]. done. }
    destruct (IH (allElements ++ retryGain host (requests w) b) w3) as (w4 & Hreq4 & ->).
    exists w4. split; [simpl; lia|].
    f_equal. f_equal. rewrite <- app_assoc. f_equal.
    simpl. rewrite Nat.add_0_r. f_equal.
    rewrite Hreq3. f_equal. apply imap_ext. intros j x _. simpl. f_equal. lia.
Qed.

(** The batch loop never throws, and gathers what the answers of the
    service determine. *)
Lemma batchLoop_run (bboxes : list Bbox) (idxs : list nat)
    (allElements : list Feature) (w : World) :
  ∃ w', batchLoop host bboxes idxs allElements w =
        (Returned (allElements ++ gathered host bboxes idxs (requests w)), w').
Proof.
  revert allElements w. induction idxs as [|i idxs IH]; intros allElements w.
  - exists w. simpl. by rewrite app_nil_r.
  - cbn [batchLoop gathered]. unfold mbind at 1, M_bind at 1, try_catch.
    set (batch := slice i (i + BATCH_SIZE) bboxes).
    assert (∃ w2, requests w2 = (requests w + (batchGain host (requests w) batch).2)%nat ∧
      (let (o, w') :=
         (data ← queryOverpassBboxes host batch ; pushElements allElements data) w in
       match o with
       | Returned a => (Returned a, w')
       | Thrown err =>
           (console_error [String.concat EmptyString
                             ["[Overpass] Batch "; pretty (i / BATCH_SIZE + 1)%nat;
                              " failed:"]; message err] ;;
            retryEach host batch allElements) w'
       end) = (Returned (allElements ++ (batchGain host (requests w) batch).1), w2))
      as (w2 & Hreq2 & ->).
    { unfold batchGain.
      destruct (attempt_run batch allElements w) as (w1 & Hreq1 & [[-> Hs]|(err & -> & Hn)]).
      - destruct Hs as [els ->]. simpl. exists w1. split; [lia|done].
      - rewrite Hn. simpl. unfold mbind, M_bind, console_error.
        edestruct retryEach_run as (w' & Hreq' & ->). exists w'.
        simpl in *. rewrite Hreq1 in *. split; [lia|done]. }
    unfold mbind at 1, M_bind at 1.
    assert (∃ w3, requests w3 = requests w2 ∧
      (if (i + BATCH_SIZE <? length bboxes)%nat then delay 2000 else mret tt) w2
      = (Returned tt, w3)) as (w3 & Hreq3 & ->).
    { destruct (i + BATCH_SIZE <? length bboxes)%nat;
        (eexists; split; [|reflexivity]; reflexivity). }
    destruct (IH (allElements ++ (batchGain host (requests w) batch).1) w3) as (w4 & ->).
    exists w4. rewrite Hreq3, Hreq2. by rewrite <- app_assoc.
Qed.

(** [countRoundabouts] makes of what the batch loop gathers what [countOf]
    says. *)
Lemma countRoundabouts_run (geometry : Geometry) (w : World) :
  let coords := coordinates geometry in
  let bboxes := computeSegmentBboxes coords 12 in
  ∃ w', countRoundabouts host geometry w =
    (countOf coords
       (gathered host bboxes
          (strided (length bboxes) 0 BATCH_SIZE (length bboxes)) (requests w)), w').
Proof.
  intros coords bboxes. unfold countRoundabouts.
  unfold mbind at 1, M_bind at 1, console_log at 1.
  unfold mbind at 1, M_bind at 1. fold coords. fold bboxes.
  edestruct batchLoop_run as (w' & ->). cbn [app].
  unfold countOf, mbind, M_bind, settle.
  destruct (uniqueEntries _) as [elements|err]; [|by eexists].
  destruct (groupsOf elements) as [groups|err]; [|by eexists].
  unfold console_log, mret, M_ret. by eexists.
Qed.

Lemma gathered_nothing (bboxes : list Bbox) (idxs : list nat) (k : nat) :
  allQueriesFail host → gathered host bboxes idxs k = [].
Proof.
  intros Hfail.
  assert (∀ k batch, attemptGain host k batch = None) as Hnone.
  { intros k' batch. unfold attemptGain. by destruct (Hfail k' batch) as [err ->]. }
  assert (∀ k l, concat (imap (fun j b => retryGain host (k + j) b) l) = []) as Hretry.
  { intros k' l. revert k'. induction l as [|b l IHl]; intros k'; [done|].
    simpl. unfold retryGain at 1. rewrite Hnone. simpl.
    rewrite <- (IHl (S k')). f_equal. apply imap_ext. intros j x _. simpl.
    f_equal. lia. }
  revert k. induction idxs as [|i idxs IH]; intros k; [done|].
  simpl. unfold batchGain. rewrite Hnone. simpl. rewrite (Hretry (S k)). by rewrite IH.
Qed.

End Orchestrator.

(** ** Entries that are not elements *)

Section Entries.

Lemma om_get_fields (m : list (string * Feature)) (k : string) :
  om_get (fieldsAt <$> m) k = fieldsOf <$> om_get m k.
Proof.
  induction m as [|[k' f] m IH]; [done|]. cbn [fmap list_fmap fieldsAt om_get fst snd].
  by destruct (decide (k = k')).
Qed.

Lemma om_has_fields (m : list (string * Feature)) (k : string) :
  om_has (fieldsAt <$> m) k = om_has m k.
Proof. unfold om_has. rewrite om_get_fields. by destruct (om_get m k). Qed.

Lemma om_set_fields (m : list (string * Feature)) (k : string) (f : Feature) :
  fieldsAt <$> om_set m k f = om_set (fieldsAt <$> m) k (fieldsOf f).
Proof.
  induction m as [|[k' f'] m IH]; [done|].
  cbn [om_set fmap list_fmap fieldsAt fst snd].
  destruct (decide (k = k')); [done|]. cbn [fmap list_fmap fieldsAt fst snd].
  by rewrite <- IH.
Qed.

Lemma objects_fields (entries : list Feature) :
  Forall (fun f => is_Some (objectOf f)) entries →
  objects entries = fieldsOf <$> entries.
Proof.
  induction 1 as [|f entries [el Hf] _ IH]; [done|].
  unfold objects in *. cbn [omap list_omap fmap list_fmap]. rewrite Hf, IH.
  unfold fieldsOf. by rewrite Hf.
Qed.

Lemma om_set_values {V : Type} (m : list (string * V)) (k : string) (v x : V) :
  x ∈ om_values (om_set m k v) → x = v ∨ x ∈ om_values m.
Proof.
  unfold om_values. induction m as [|[k' v'] m IH]; cbn [om_set].
  - intros H. apply list_elem_of_singleton in H. by left.
  - destruct (decide (k = k')); cbn [fmap list_fmap snd]; intros H.
    + apply elem_of_cons in H as [->|H]; [by left|].
      right. by apply list_elem_of_further.
    + apply elem_of_cons in H as [->|H]; [right; apply list_elem_of_here|].
      destruct (IH H) as [->|H']; [by left|]. right. by apply list_elem_of_further.
Qed.

(** The loop over the entries returns exactly when none is [null]; it
    then does on the entries what the loop of [uniqueElements] does on their
    fields, and it keeps entries only. *)
Lemma dedupEntries_run (m : list (string * Feature)) (entries : list Feature) :
  Forall (fun f => is_Some (objectOf f)) (om_values m) →
  match dedupEntries m entries with
  | Returned m' =>
      Forall (fun f => is_Some (objectOf f)) entries ∧
      Forall (fun f => is_Some (objectOf f)) (om_values m') ∧
      (∀ f, f ∈ om_values m' → f ∈ om_values m ∨ f ∈ entries) ∧
      fieldsAt <$> m' =
        fold_left dedupStep (objects entries) (fieldsAt <$> m)
  | Thrown err => Null err ∈ entries
  end.
Proof.
  revert m. induction entries as [|f entries IH]; intros m Hm.
  { cbn [dedupEntries]. split; [done|]. split; [done|]. split; [by left|done]. }
  cbn [dedupEntries]. destruct f as [err|el|el err]; cbn [dedupEntry].
  - apply list_elem_of_here.
  - set (m1 := if truthy (el_id el) && negb (om_has m (elementKey el))
               then om_set m (elementKey el) (Whole el) else m).
    assert (Forall (fun f => is_Some (objectOf f)) (om_values m1)) as Hm1.
    { unfold m1. destruct (_ && _); [|done]. apply Forall_forall. intros x Hx.
      apply om_set_values in Hx as [->|Hx]; [by eexists|].
      by apply (proj1 (Forall_forall _ _) Hm). }
    specialize (IH m1 Hm1). destruct (dedupEntries m1 entries) as [m'|err'].
    + destruct IH as (H1 & H2 & H3 & H4). split; [|split; [exact H2|split]].
      * apply Forall_cons. split; [by eexists|done].
      * intros x Hx. destruct (H3 x Hx) as [Hx'|Hx'].
        -- unfold m1 in Hx'. destruct (_ && _).
           ++ apply om_set_values in Hx' as [->|Hx'];
                [right; apply list_elem_of_here|by left].
           ++ by left.
        -- right. by apply list_elem_of_further.
      * rewrite H4. unfold objects. cbn [omap list_omap objectOf fold_left].
        f_equal. unfold m1, dedupStep. rewrite om_has_fields.
        destruct (_ && _); [|done]. by rewrite om_set_fields.
    + by apply list_elem_of_further.
  - set (m1 := if truthy (el_id el) && negb (om_has m (elementKey el))
               then om_set m (elementKey el) (Nodeless el err) else m).
    assert (Forall (fun f => is_Some (objectOf f)) (om_values m1)) as Hm1.
    { unfold m1. destruct (_ && _); [|done]. apply Forall_forall. intros x Hx.
      apply om_set_values in Hx as [->|Hx]; [by eexists|].
      by apply (proj1 (Forall_forall _ _) Hm). }
    specialize (IH m1 Hm1). destruct (dedupEntries m1 entries) as [m'|err'].
    + destruct IH as (H1 & H2 & H3 & H4). split; [|split; [exact H2|split]].
      * apply Forall_cons. split; [by eexists|done].
      * intros x Hx. destruct (H3 x Hx) as [Hx'|Hx'].
        -- unfold m1 in Hx'. destruct (_ && _).
           ++ apply om_set_values in Hx' as [->|Hx'];
                [right; apply list_elem_of_here|by left].
           ++ by left.
        -- right. by apply list_elem_of_further.
      * rewrite H4. unfold objects. cbn [omap list_omap objectOf fold_left].
        f_equal. unfold m1, dedupStep. rewrite om_has_fields.
        destruct (_ && _); [|done]. by rewrite om_set_fields.
    + by apply list_elem_of_further.
Qed.

(** What [uniqueEntries] gives: an error when an entry is [null]; if not,
    entries that were sent, whose fields are what [uniqueElements] makes of
    the fields of the entries. *)
Lemma uniqueEntries_run (entries : list Feature) :
  match uniqueEntries entries with
  | Returned elements =>
      Forall (fun f => is_Some (objectOf f)) entries ∧
      elements ⊆ entries ∧
      objects elements = uniqueElements (objects entries)
  | Thrown err => Null err ∈ entries
  end.
Proof.
  unfold uniqueEntries.
  pose proof (dedupEntries_run [] entries (Forall_nil_2 _)) as H.
  destruct (dedupEntries [] entries) as [m'|err]; [|done].
  destruct H as (H1 & H2 & H3 & H4). split; [done|]. split.
  - intros f Hf. destruct (H3 f Hf) as [Hn|Hin]; [|done]. by apply elem_of_nil in Hn.
  - rewrite objects_fields by done. unfold uniqueElements.
    change (fold_left dedupStep (objects entries) [])
      with (fold_left dedupStep (objects entries) (fieldsAt <$> [])).
    rewrite <- H4. unfold om_values. rewrite <- list_fmap_compose.
    rewrite <- !list_fmap_compose. by apply list_fmap_ext.
Qed.

Lemma nodesError_wellFormed (elements : list Feature) :
  wellFormed elements → nodesError elements = None.
Proof. induction 1 as [|f elements [el ->] _ IH]; [done|]. exact IH. Qed.

(** A [null] among the entries makes the count throw. *)
Lemma countOf_null (coords : list Point) (entries : list Feature) (err : Exn) :
  Null err ∈ entries → ∃ err', countOf coords entries = Thrown err'.
Proof.
  intros Hin. unfold countOf. pose proof (uniqueEntries_run entries) as H.
  destruct (uniqueEntries entries) as [elements|err']; [|by eexists].
  destruct H as (Hall & _). apply (proj1 (Forall_forall _ _) Hall) in Hin.
  by destruct Hin.
Qed.

(** A count that is returned is the count of the fields of the entries. *)
Lemma countOf_returned (coords : list Point) (entries : list Feature) (count : nat) :
  countOf coords entries = Returned count →
  Forall (fun f => is_Some (objectOf f)) entries ∧
  count = nearCountOf coords (objects entries).
Proof.
  unfold countOf, nearCountOf. pose proof (uniqueEntries_run entries) as H.
  destruct (uniqueEntries entries) as [elements|err']; [|done].
  destruct H as (Hall & _ & Hobj). unfold groupsOf.
  destruct (nodesError elements); [done|]. rewrite Hobj. by intros [= <-].
Qed.

(** Entries that are elements are counted. *)
Lemma countOf_wellFormed (coords : list Point) (entries : list Feature) :
  wellFormed entries →
  countOf coords entries = Returned (nearCountOf coords (objects entries)).
Proof.
  intros Hwf. unfold countOf, nearCountOf. pose proof (uniqueEntries_run entries) as H.
  destruct (uniqueEntries entries) as [elements|err'].
  - destruct H as (_ & Hsub & Hobj). unfold groupsOf.
    rewrite nodesError_wellFormed; [by rewrite Hobj|].
    apply Forall_forall. intros f Hf. apply Hsub in Hf.
    by apply (proj1 (Forall_forall _ _) Hwf).
  - apply (proj1 (Forall_forall _ _) Hwf) in H. by destruct H.
Qed.

Lemma objects_whole (els : list Element) : objects (Whole <$> els) = els.
Proof.
  induction els as [|el els IH]; [done|].
  change (objects (Whole <$> el :: els)) with (el :: objects (Whole <$> els)).
  by rewrite IH.
Qed.

Lemma wellFormed_whole (els : list Element) : wellFormed (Whole <$> els).
Proof. apply Forall_fmap, Forall_forall. intros el _. by exists el. Qed.

End Entries.

Section RetryFallback.
Local Open Scope nat_scope.

Lemma strided_one_batch (len : nat) :
  1 ≤ len → len ≤ BATCH_SIZE → strided len 0 BATCH_SIZE len = [0].
Proof.
  intros H1 H2. unfold BATCH_SIZE in *. rewrite strided_from_0 by lia.
  assert (ceil_div len 12 = 1) as ->; [|done].
  pose proof (ceil_div_le len 12 1 ltac:(lia)) as [_ A].
  pose proof (ceil_div_gt len 12 0 ltac:(lia)) as [_ B]. lia.
Qed.

Lemma slice_whole {A : Type} (l : list A) (j : nat) : length l ≤ j → slice 0 j l = l.
Proof. intros H. unfold slice. rewrite drop_0. apply take_ge. lia. Qed.

(** With twelve boxes at most there is one batch, which holds them all. *)
Lemma gathered_one_batch (host : Host) (bboxes : list Bbox) (k : nat) :
  length bboxes ≤ BATCH_SIZE →
  gathered host bboxes (strided (length bboxes) 0 BATCH_SIZE (length bboxes)) k =
  match bboxes with [] => [] | _ => (batchGain host k bboxes).1 end.
Proof.
  intros Hlen. destruct bboxes as [|b bboxes]; [done|].
  rewrite strided_one_batch by (simpl in *; lia).
  cbn [gathered]. rewrite slice_whole by (unfold BATCH_SIZE in *; lia).
  by rewrite app_nil_r.
Qed.

Lemma retry_gains (host : Host) (contrib : Bbox → list Feature)
    (batch : list Bbox) (k : nat) :
  (∀ j b, batch !! j = Some b → retryGain host (k + j) b = contrib b) →
  concat (imap (fun j b => retryGain host (k + j) b) batch) = flat_map contrib batch.
Proof.
  intros H. rewrite flat_map_concat_map. f_equal.
  rewrite (imap_ext _ (fun _ b => contrib b)) by done.
  apply (imap_const contrib).
Qed.

(** When the answer to the batch query lists the entries of the boxes box
    after box, as the retry loop gathers them, the two runs end alike. *)
Lemma countRoundabouts_retry_in_box_order (direct flaky : Host)
    (geometry : Geometry) (contrib : Bbox → list Feature) (w : World) :
  let bboxes := computeSegmentBboxes (coordinates geometry) 12 in
  answer direct (requests w) bboxes
    = Returned (mkData (Returned (flat_map contrib bboxes))) →
  (∃ err, answer flaky (requests w) bboxes = Thrown err) →
  (∀ k b, requests w < k → b ∈ bboxes →
     answer flaky k [b] = Returned (mkData (Returned (contrib b)))) →
  ∃ result wd wf,
    countRoundabouts direct geometry w = (result, wd) ∧
    countRoundabouts flaky geometry w = (result, wf).
Proof.
  intros bboxes Hdirect [err Hbatch] Hretry.
  destruct (countRoundabouts_run direct geometry w) as (wd & Ed).
  destruct (countRoundabouts_run flaky geometry w) as (wf & Ef).
  fold bboxes in Ed, Ef.
  assert (length bboxes ≤ BATCH_SIZE) as Hlen.
  { unfold BATCH_SIZE. apply computeSegmentBboxes_length. lia. }
  rewrite gathered_one_batch in Ed, Ef by done.
  assert ((batchGain direct (requests w) bboxes).1 = flat_map contrib bboxes) as Gd.
  { unfold batchGain, attemptGain. by rewrite Hdirect. }
  assert ((batchGain flaky (requests w) bboxes).1 = flat_map contrib bboxes) as Gf.
  { unfold batchGain, attemptGain. rewrite Hbatch. simpl.
    apply (retry_gains flaky contrib bboxes (S (requests w))).
    intros j b Hj. unfold retryGain, attemptGain.
    rewrite Hretry; [done|lia|]. by apply list_elem_of_lookup_2 in Hj. }
  rewrite Gd in Ed. rewrite Gf in Ef.
  eexists _, wd, wf. split; [exact Ed|exact Ef].
Qed.

(** With entries that are elements [countRoundabouts] returns a count, and
    the count is zero when every query fails. *)
Lemma countRoundabouts_returns (host : Host) (geometry : Geometry) (w : World) :
  let coords := coordinates geometry in
  let bboxes := computeSegmentBboxes coords 12 in
  let allElements :=
    gathered host bboxes (strided (length bboxes) 0 BATCH_SIZE (length bboxes))
      (requests w) in
  (wellFormed allElements →
   ∃ w', countRoundabouts host geometry w =
         (Returned (nearCountOf coords (objects allElements)), w')) ∧
  (allQueriesFail host →
   ∃ w', countRoundabouts host geometry w = (Returned 0, w')).
Proof.
  intros coords bboxes allElements.
  destruct (countRoundabouts_run host geometry w) as (w' & E).
  fold coords bboxes allElements in E. split.
  - intros Hwf. exists w'. by rewrite E, countOf_wellFormed.
  - intros Hfail. exists w'. rewrite E. unfold allElements.
    by rewrite gathered_nothing.
Qed.

(** A [null] among the entries gathered makes [countRoundabouts] throw. *)
Lemma countRoundabouts_throws_on_null (host : Host) (geometry : Geometry)
    (w : World) (err : Exn) :
  let bboxes := computeSegmentBboxes (coordinates geometry) 12 in
  Null err ∈ gathered host bboxes
               (strided (length bboxes) 0 BATCH_SIZE (length bboxes)) (requests w) →
  ∃ err' w', countRoundabouts host geometry w = (Thrown err', w').
Proof.
  intros bboxes Hin. subst bboxes.
  destruct (countRoundabouts_run host geometry w) as (w' & E). cbv zeta in E.
  destruct (countOf_null (coordinates geometry) _ err Hin) as [err' E'].
  exists err', w'. by rewrite E, E'.
Qed.

End RetryFallback.

(** With a service that is down the count is zero. *)
Lemma countRoundabouts_service_down :
  ∃ w', countRoundabouts failingHost twoPoints emptyWorld = (Returned 0%nat, w').
Proof.
  apply (countRoundabouts_returns failingHost twoPoints emptyWorld).
  intros k bboxes. eexists. reflexivity.
Qed.

(** C1 fails on an answer that the service sends with status 200 and that
    holds an entry that is not an element.  With the body
    [{elements: [null]}] the loop of the deduplication reads [el.id] of
    [null]; with a roundabout way that has no nodes [deduplicateRoundabouts]
    iterates nodes that are not there.  Both happen after the two [try]
    blocks: [countRoundabouts] throws instead of returning a count. *)
Theorem countRoundabouts_throws_on_malformed_entry :
  (∃ w', countRoundabouts nullHost twoPoints emptyWorld = (Thrown nullError, w')) ∧
  (∃ w', countRoundabouts nodelessHost twoPoints emptyWorld
         = (Thrown nodesMissing, w')).
Proof.
  split.
  - destruct (countRoundabouts_run nullHost twoPoints emptyWorld) as (w' & E).
    exists w'. rewrite E. reflexivity.
  - destruct (countRoundabouts_run nodelessHost twoPoints emptyWorld) as (w' & E).
    exists w'. rewrite E. reflexivity.
Qed.

(** ** Proximity filter *)

Section Proximity.

Lemma coarseLoop_true (centroidLat centroidLon : R) (routeCoords : list Point)
    (maxDistMeters : R) (step : nat) (idxs : list nat) (minDist : xnum) :
  xltb minDist (Fin maxDistMeters) = false →
  coarseLoop centroidLat centroidLon routeCoords maxDistMeters step idxs minDist = true ↔
  ∃ i, i ∈ idxs ∧
       coarseSkipped centroidLat centroidLon routeCoords step i = false ∧
       coarseDist centroidLat centroidLon routeCoords step i < maxDistMeters.
Proof.
  revert minDist. induction idxs as [|i idxs IH]; intros minDist Hinv;
    cbn [coarseLoop].
  - split; [done|]. intros (i & Hi & _). by apply elem_of_nil in Hi.
  - destruct (coarseSkipped centroidLat centroidLon routeCoords step i) eqn:Hskip.
    + rewrite IH by done. split.
      * intros (j & Hj & H). exists j. split; [by apply list_elem_of_further|done].
      * intros (j & [->|Hj]%elem_of_cons & Hs & Hd); [congruence|by exists j].
    + set (dist := coarseDist centroidLat centroidLon routeCoords step i).
      destruct (Rlt_dec dist maxDistMeters) as [Hlt|Hge].
      * assert (xltb (Fin dist) minDist = true) as ->.
        { destruct minDist as [a| |]; simpl in *; [|done|done].
          apply ltb_lt. apply ltb_ge in Hinv. lra. }
        simpl. assert (ltb dist maxDistMeters = true) as -> by by apply ltb_lt.
        split; [|done]. intros _. exists i. split; [apply list_elem_of_here|done].
      * assert (xltb (if xltb (Fin dist) minDist then Fin dist else minDist)
                     (Fin maxDistMeters) = false) as Hinv'.
        { destruct (xltb (Fin dist) minDist); [|done]. simpl. apply ltb_ge. lra. }
        rewrite Hinv'. rewrite IH by done. split.
        -- intros (j & Hj & H). exists j. split; [by apply list_elem_of_further|done].
        -- intros (j & [->|Hj]%elem_of_cons & Hs & Hd); [done|by exists j].
Qed.

Lemma coarsePass_true (centroidLat centroidLon : R) (routeCoords : list Point)
    (maxDistMeters : R) :
  coarsePass centroidLat centroidLon routeCoords maxDistMeters = true ↔
  ∃ d, d ∈ coarseDists centroidLat centroidLon routeCoords ∧ d < maxDistMeters.
Proof.
  unfold coarsePass, coarseDists. rewrite coarseLoop_true by done. split.
  - intros (i & Hi & Hs & Hd). eexists. split; [|exact Hd].
    apply list_elem_of_fmap. exists i. split; [done|].
    apply list_elem_of_In, filter_In. split; [by apply list_elem_of_In|by rewrite Hs].
  - intros (d & (i & -> & Hi)%list_elem_of_fmap & Hd).
    apply list_elem_of_In, filter_In in Hi as [Hi Hs]. exists i.
    split; [by apply list_elem_of_In|]. split; [|done].
    by destruct (coarseSkipped _ _ _ _ i).
Qed.

Lemma finePass_true (centroidLat centroidLon : R) (routeCoords : list Point)
    (maxDistMeters : R) :
  finePass centroidLat centroidLon routeCoords maxDistMeters = true ↔
  ∃ d, d ∈ fineDists centroidLat centroidLon routeCoords ∧ d < maxDistMeters.
Proof.
  induction routeCoords as [|[lon1 lat1] rest IH].
  { simpl. split; [done|]. intros (d & Hd & _). by apply elem_of_nil in Hd. }
  destruct rest as [|[lon2 lat2] rest].
  { simpl. split; [done|]. intros (d & Hd & _). by apply elem_of_nil in Hd. }
  cbn [finePass fineDists].
  destruct (fineSkip centroidLat centroidLon lon1 lat1 lon2 lat2); [exact IH|].
  destruct (Rlt_dec (fineDist centroidLat centroidLon lon1 lat1 lon2 lat2) maxDistMeters)
    as [Hlt|Hge].
  - assert (ltb (fineDist centroidLat centroidLon lon1 lat1 lon2 lat2) maxDistMeters
            = true) as -> by by apply ltb_lt.
    split; [|done]. intros _. eexists. split; [apply list_elem_of_here|done].
  - assert (ltb (fineDist centroidLat centroidLon lon1 lat1 lon2 lat2) maxDistMeters
            = false) as -> by (apply ltb_ge; lra).
    rewrite IH. split.
    + intros (d & Hd & H). exists d. split; [by apply list_elem_of_further|done].
    + intros (d & [->|Hd]%elem_of_cons & H); [done|by exists d].
Qed.

Lemma isNearRoute_true (centroidLat centroidLon : R) (routeCoords : list Point)
    (maxDistMeters : R) :
  isNearRoute centroidLat centroidLon routeCoords maxDistMeters = true ↔
  ∃ d, d ∈ coarseDists centroidLat centroidLon routeCoords ++
           fineDists centroidLat centroidLon routeCoords ∧
       d < maxDistMeters.
Proof.
  unfold isNearRoute.
  destruct (coarsePass centroidLat centroidLon routeCoords maxDistMeters) eqn:Hc.
  - split; [|done]. intros _. apply coarsePass_true in Hc as (d & Hd & Hlt).
    exists d. split; [|done]. apply elem_of_app. by left.
  - rewrite finePass_true. split.
    + intros (d & Hd & Hlt). exists d. split; [|done]. apply elem_of_app. by right.
    + intros (d & [Hd|Hd]%elem_of_app & Hlt); [|by exists d].
      assert (coarsePass centroidLat centroidLon routeCoords maxDistMeters = true);
        [|congruence].
      apply coarsePass_true. by exists d.
Qed.

Lemma isNearRoute_false (centroidLat centroidLon : R) (routeCoords : list Point)
    (maxDistMeters : R) :
  (∀ d, d ∈ coarseDists centroidLat centroidLon routeCoords ++
            fineDists centroidLat centroidLon routeCoords → maxDistMeters <= d) →
  coarsePass centroidLat centroidLon routeCoords maxDistMeters = false ∧
  finePass centroidLat centroidLon routeCoords maxDistMeters = false ∧
  isNearRoute centroidLat centroidLon routeCoords maxDistMeters = false.
Proof.
  intros Hall.
  assert (coarsePass centroidLat centroidLon routeCoords maxDistMeters = false) as Hc.
  { apply not_true_is_false. intros (d & Hd & Hlt)%coarsePass_true.
    specialize (Hall d). rewrite elem_of_app in Hall. specialize (Hall (or_introl Hd)). lra. }
  assert (finePass centroidLat centroidLon routeCoords maxDistMeters = false) as Hf.
  { apply not_true_is_false. intros (d & Hd & Hlt)%finePass_true.
    specialize (Hall d). rewrite elem_of_app in Hall. specialize (Hall (or_intror Hd)). lra. }
  unfold isNearRoute. by rewrite Hc, Hf.
Qed.

(** C10. The threshold is exclusive.  When the least of the distances that
    the two loops compute for a centroid is exactly [maxDistMeters],
    neither loop accepts and [isNearRoute] answers [false]; with the
    threshold of 50 that [countRoundabouts] passes, a group with this
    centroid leaves the count as it is. *)
Theorem isNearRoute_threshold_exclusive (centroidLat centroidLon : R)
    (routeCoords : list Point) (maxDistMeters : R) :
  minimumOf (coarseDists centroidLat centroidLon routeCoords ++
             fineDists centroidLat centroidLon routeCoords) maxDistMeters →
  coarsePass centroidLat centroidLon routeCoords maxDistMeters = false ∧
  finePass centroidLat centroidLon routeCoords maxDistMeters = false ∧
  isNearRoute centroidLat centroidLon routeCoords maxDistMeters = false ∧
  (maxDistMeters = 50 →
   ∀ nodePositions ways gid nearCount,
     centroidOf nodePositions ways = Some (centroidLat, centroidLon) →
     countGroup nodePositions routeCoords nearCount (gid, ways) = nearCount).
Proof.
  intros [_ Hmin].
  destruct (isNearRoute_false _ _ _ _ Hmin) as (Hc & Hf & Hn).
  repeat split; try done.
  intros -> nodePositions ways gid nearCount Hcen.
  unfold countGroup. simpl. by rewrite Hcen, Hn.
Qed.

End Proximity.

Section ProximityExamples.

Lemma hypot_left (x : R) : x <= 0 → hypot x 0 = - x.
Proof.
  intros Hx. unfold hypot. replace (x * x + 0 * 0) with ((- x) * (- x)) by lra.
  apply sqrt_square. lra.
Qed.

Lemma boundary_coarseDists : coarseDists 0 boundaryLon diagonalRoute = [].
Proof.
  unfold coarseDists, diagonalRoute, boundaryLon. simpl length.
  change (strided 2 0 (Nat.max 1 (2 / 500)) (2 - 1)) with [0%nat].
  cbn [List.filter].
  assert (coarseSkipped 0 (- (50 / 111320)) [(0, 0); (1, 1)] (Nat.max 1 (2 / 500)) 0
          = true) as ->; [|done].
  unfold coarseSkipped, coarseSkip, at_index. simpl.
  apply andb_true_iff. split; apply ltb_lt; real_arith.
Qed.

Lemma boundary_fineDists : fineDists 0 boundaryLon diagonalRoute = [50].
Proof.
  unfold diagonalRoute, boundaryLon. cbn [fineDists].
  assert (fineSkip 0 (- (50 / 111320)) 0 0 1 1 = false) as ->.
  { unfold fineSkip. repeat (apply orb_false_iff; split); apply ltb_ge; real_arith. }
  f_equal. unfold fineDist, distToSegment.
  assert (eqb ((1 - 0) * (1 - 0) + (1 - 0) * (1 - 0)) 0 = false) as ->
    by (apply eqb_neq; lra).
  assert (Rmax 0 (Rmin 1 (((- (50 / 111320) - 0) * (1 - 0) + (0 - 0) * (1 - 0)) /
                          ((1 - 0) * (1 - 0) + (1 - 0) * (1 - 0)))) = 0) as ->
    by real_arith.
  replace (- (50 / 111320) - (0 + 0 * (1 - 0))) with (- (50 / 111320)) by lra.
  replace (0 - (0 + 0 * (1 - 0))) with 0 by lra.
  rewrite hypot_left by lra.
  replace (0 * PI / 180) with 0 by lra. rewrite cos_0. lra.
Qed.

(** The theorem at a centroid whose only computed distance is exactly
    50. *)
Lemma isNearRoute_threshold_exclusive_witness :
  minimumOf (coarseDists 0 boundaryLon diagonalRoute ++
             fineDists 0 boundaryLon diagonalRoute) 50 ∧
  isNearRoute 0 boundaryLon diagonalRoute 50 = false.
Proof.
  assert (minimumOf (coarseDists 0 boundaryLon diagonalRoute ++
                     fineDists 0 boundaryLon diagonalRoute) 50) as Hmin.
  { rewrite boundary_coarseDists, boundary_fineDists. split.
    - apply list_elem_of_here.
    - intros d Hd. apply list_elem_of_singleton in Hd. lra. }
  split; [exact Hmin|].
  exact (proj1 (proj2 (proj2
    (isNearRoute_threshold_exclusive 0 boundaryLon diagonalRoute 50 Hmin)))).
Defined.

End ProximityExamples.

(** ** Great-circle distance against planar distance *)

Section Sphere.

Lemma haversineMeters_A (lat1 lon1 lat2 lon2 : R) :
  haversineMeters lat1 lon1 lat2 lon2 =
  6371000 * 2 * atan2 (sqrt (haversineA lat1 lon1 lat2 lon2))
                      (sqrt (1 - haversineA lat1 lon1 lat2 lon2)).
Proof. reflexivity. Qed.

Lemma sin_lower (x : R) : 0 <= x → x <= 4 → x - x ^ 3 / 6 <= sin x.
Proof.
  intros H0 H4. destruct (pre_sin_bound x 0 H0 H4) as [H _].
  unfold sin_approx, sin_term in H. simpl in H. lra.
Qed.

Lemma cos_lower (x : R) : -2 <= x → x <= 2 → 1 - x ^ 2 / 2 <= cos x.
Proof.
  intros H0 H2. destruct (pre_cos_bound x 0 H0 H2) as [H _].
  unfold cos_approx, cos_term in H. simpl in H. lra.
Qed.

Lemma sin_abs_le (x : R) : 0 <= x → - x <= sin x <= x.
Proof.
  intros [Hx| <-]; [|rewrite sin_0; lra].
  pose proof (sin_lt_x x Hx). pose proof (SIN_bound x) as [Hl _].
  destruct (Rle_dec 1 x) as [H1|H1]; [lra|].
  pose proof PI2_1. pose proof (sin_gt_0 x Hx ltac:(lra)). lra.
Qed.

Lemma sin_sqr_le (x : R) : sin x ^ 2 <= x ^ 2.
Proof.
  destruct (Rle_dec 0 x) as [Hx|Hx].
  - pose proof (sin_abs_le x Hx). nra.
  - pose proof (sin_abs_le (- x) ltac:(lra)) as H. rewrite sin_neg in H. nra.
Qed.

Lemma haversineA_le (lat1 lon1 lat2 lon2 : R) :
  haversineA lat1 lon1 lat2 lon2 <=
  (PI / 360) ^ 2 * ((lon2 - lon1) * (lon2 - lon1) + (lat2 - lat1) * (lat2 - lat1)).
Proof.
  unfold haversineA, toRad.
  pose proof (sin_sqr_le ((lat2 - lat1) * PI / 180 / 2)) as H1.
  pose proof (sin_sqr_le ((lon2 - lon1) * PI / 180 / 2)) as H2.
  pose proof (COS_bound (lat1 * PI / 180)) as C1.
  pose proof (COS_bound (lat2 * PI / 180)) as C2.
  pose proof (pow2_ge_0 (sin ((lon2 - lon1) * PI / 180 / 2))) as P.
  assert (cos (lat1 * PI / 180) * cos (lat2 * PI / 180) <= 1) as C by nra.
  assert (cos (lat1 * PI / 180) * cos (lat2 * PI / 180) *
          sin ((lon2 - lon1) * PI / 180 / 2) ^ 2
          <= sin ((lon2 - lon1) * PI / 180 / 2) ^ 2) as C' by nra.
  nra.
Qed.

Lemma atan_lt_of_tan (z t : R) :
  - (PI / 2) < t < PI / 2 → z < tan t → atan z < t.
Proof.
  intros Ht Hz. rewrite <- (atan_tan t Ht). by apply atan_increasing.
Qed.

Lemma atan_le_of_tan (z t : R) :
  - (PI / 2) < t < PI / 2 → tan t <= z → t <= atan z.
Proof.
  intros Ht [Hz|Hz].
  - rewrite <- (atan_tan t Ht) at 1. left. by apply atan_increasing.
  - rewrite <- Hz, atan_tan by done. lra.
Qed.

Lemma tan_lower (t : R) : 0 <= t → t <= 1 → t - t ^ 3 / 6 <= tan t.
Proof.
  intros H0 H1. pose proof PI2_1 as HPI.
  pose proof (sin_lower t H0 ltac:(lra)) as Hs.
  pose proof (cos_gt_0 t ltac:(lra) ltac:(lra)) as Hc.
  pose proof (COS_bound t) as [_ Hc1].
  pose proof (sin_ge_0 t H0 ltac:(lra)) as Hs0.
  unfold tan. apply Rle_trans with (sin t); [done|].
  apply Rle_trans with (sin t / 1); [lra|].
  unfold Rdiv. apply Rmult_le_compat_l; [done|].
  rewrite Rinv_1. rewrite <- Rinv_1 at 1. apply Rinv_le_contravar; lra.
Qed.

Lemma hypot_sqr (x y d : R) : 0 <= d → hypot x y <= d → x * x + y * y <= d * d.
Proof.
  intros Hd H. unfold hypot in H.
  apply sqrt_le_0; [nra|nra|]. by rewrite (sqrt_square d Hd).
Qed.

(** A point within 0.0045 degrees of the centroid in the plane is less than
    1000 m from it on the sphere. *)
Lemma haversineMeters_near (centroidLat centroidLon lat lon : R) :
  hypot (centroidLon - lon) (centroidLat - lat) <= 0.0045 →
  haversineMeters centroidLat centroidLon lat lon < 1000.
Proof.
  intros HD. apply hypot_sqr in HD; [|lra].
  rewrite haversineMeters_A.
  set (a := haversineA centroidLat centroidLon lat lon).
  pose proof (haversineA_le centroidLat centroidLon lat lon) as Ha. fold a in Ha.
  pose proof PI_4 as HPI4. pose proof PI_RGT_0 as HPI0.
  assert (a <= 0.00005 * 0.00005) as Ha0.
  { eapply Rle_trans; [exact Ha|].
    apply Rle_trans with ((4 / 360) ^ 2 * (0.0045 * 0.0045)); [|simpl; lra].
    apply Rmult_le_compat.
    - apply pow2_ge_0.
    - apply Rplus_le_le_0_compat; apply Rle_0_sqr.
    - apply pow_incr. lra.
    - replace ((lon - centroidLon) * (lon - centroidLon))
        with ((centroidLon - lon) * (centroidLon - lon)) by ring.
      replace ((lat - centroidLat) * (lat - centroidLat))
        with ((centroidLat - lat) * (centroidLat - lat)) by ring.
      exact HD. }
  assert (sqrt a <= 0.00005) as Hsa.
  { rewrite <- (sqrt_square 0.00005) by lra. by apply sqrt_le_1_alt. }
  assert (0.9 <= sqrt (1 - a)) as Hs1.
  { rewrite <- (sqrt_square 0.9) by lra. apply sqrt_le_1_alt. lra. }
  pose proof (sqrt_pos a) as Hsa0.
  unfold atan2. assert (ltb 0 (sqrt (1 - a)) = true) as -> by (apply ltb_lt; lra).
  assert (atan (sqrt a / sqrt (1 - a)) < 0.000078); [|lra].
  pose proof PI2_1 as HPI2.
  apply atan_lt_of_tan; [lra|].
  pose proof (tan_lower 0.000078 ltac:(lra) ltac:(lra)) as Ht.
  assert (sqrt a / sqrt (1 - a) <= 0.00005 / 0.9); [|lra].
  unfold Rdiv. apply Rmult_le_compat; [done| |done|].
  - left. apply Rinv_0_lt_compat. lra.
  - apply Rinv_le_contravar; lra.
Qed.

End Sphere.

Section ProximityClaim.

Lemma strided_bound (fuel start step stop i : nat) :
  i ∈ strided fuel start step stop → (start ≤ i < stop)%nat.
Proof.
  revert start. induction fuel as [|fuel IH]; intros start; simpl.
  - intros H. by apply elem_of_nil in H.
  - destruct (Nat.ltb_spec start stop) as [Hlt|Hge].
    + intros [->|H]%elem_of_cons; [lia|]. apply IH in H. lia.
    + intros H. by apply elem_of_nil in H.
Qed.

(** The distances of the second loop belong to consecutive points. *)
Lemma fineDists_inv (centroidLat centroidLon : R) (routeCoords : list Point) (d : R) :
  d ∈ fineDists centroidLat centroidLon routeCoords →
  ∃ i lon1 lat1 lon2 lat2,
    routeCoords !! i = Some (lon1, lat1) ∧
    routeCoords !! S i = Some (lon2, lat2) ∧
    d = fineDist centroidLat centroidLon lon1 lat1 lon2 lat2.
Proof.
  induction routeCoords as [|[lon1 lat1] rest IH].
  { intros H. by apply elem_of_nil in H. }
  destruct rest as [|[lon2 lat2] rest].
  { intros H. by apply elem_of_nil in H. }
  cbn [fineDists].
  destruct (fineSkip centroidLat centroidLon lon1 lat1 lon2 lat2).
  - intros H. apply IH in H as (i & a1 & a2 & b1 & b2 & H1 & H2 & ->).
    by exists (S i), a1, a2, b1, b2.
  - intros [->|H]%elem_of_cons.
    + by exists 0%nat, lon1, lat1, lon2, lat2.
    + apply IH in H as (i & a1 & a2 & b1 & b2 & H1 & H2 & ->).
      by exists (S i), a1, a2, b1, b2.
Qed.

Lemma fineDists_elem (centroidLat centroidLon : R) (routeCoords : list Point)
    (i : nat) (lon1 lat1 lon2 lat2 : R) :
  routeCoords !! i = Some (lon1, lat1) →
  routeCoords !! S i = Some (lon2, lat2) →
  fineSkip centroidLat centroidLon lon1 lat1 lon2 lat2 = false →
  fineDist centroidLat centroidLon lon1 lat1 lon2 lat2
    ∈ fineDists centroidLat centroidLon routeCoords.
Proof.
  revert i. induction routeCoords as [|[a1 a2] rest IH]; intros i H1 H2 Hskip.
  { done. }
  destruct rest as [|[b1 b2] rest]; [done|].
  cbn [fineDists]. destruct i as [|i].
  - simpl in H1, H2. injection H1 as -> ->. injection H2 as -> ->.
    rewrite Hskip. apply list_elem_of_here.
  - simpl in H1, H2. specialize (IH i H1 H2 Hskip).
    destruct (fineSkip centroidLat centroidLon a1 a2 b1 b2); [done|].
    by apply list_elem_of_further.
Qed.

(** The point that [distToSegment] measures to lies on the segment. *)
Lemma distToSegment_foot (px py ax ay bx b_y : R) :
  ∃ t, 0 <= t <= 1 ∧
       distToSegment px py ax ay bx b_y =
       hypot (px - (ax + t * (bx - ax))) (py - (ay + t * (b_y - ay))).
Proof.
  unfold distToSegment.
  destruct (eqb ((bx - ax) * (bx - ax) + (b_y - ay) * (b_y - ay)) 0).
  - exists 0. split; [lra|]. f_equal; lra.
  - eexists. split; [|reflexivity]. real_arith.
Qed.

Lemma hypot_0 : hypot 0 0 = 0.
Proof. unfold hypot. replace (0 * 0 + 0 * 0) with 0 by lra. apply sqrt_0. Qed.

(** On the midpoint of a segment the planar distance is zero. *)
Lemma distToSegment_midpoint (ax ay bx b_y : R) :
  distToSegment ((ax + bx) / 2) ((ay + b_y) / 2) ax ay bx b_y = 0.
Proof.
  unfold distToSegment.
  destruct (eqb ((bx - ax) * (bx - ax) + (b_y - ay) * (b_y - ay)) 0) eqn:E.
  - apply eqb_eq in E.
    assert (bx - ax = 0 ∧ b_y - ay = 0) as [Hx Hy]
      by (apply Rplus_sqr_eq_0; exact E).
    replace ((ax + bx) / 2 - ax) with 0 by lra.
    replace ((ay + b_y) / 2 - ay) with 0 by lra. apply hypot_0.
  - apply eqb_neq in E.
    assert ((((ax + bx) / 2 - ax) * (bx - ax) + ((ay + b_y) / 2 - ay) * (b_y - ay)) /
            ((bx - ax) * (bx - ax) + (b_y - ay) * (b_y - ay)) = 1 / 2) as ->.
    { field. exact E. }
    assert (Rmax 0 (Rmin 1 (1 / 2)) = 1 / 2) as -> by real_arith.
    replace ((ax + bx) / 2 - (ax + 1 / 2 * (bx - ax))) with 0 by lra.
    replace ((ay + b_y) / 2 - (ay + 1 / 2 * (b_y - ay))) with 0 by lra.
    apply hypot_0.
Qed.

Lemma isNearRoute_midpoint (routeCoords : list Point) (i : nat)
    (lon1 lat1 lon2 lat2 : R) :
  routeCoords !! i = Some (lon1, lat1) →
  routeCoords !! S i = Some (lon2, lat2) →
  isNearRoute ((lat1 + lat2) / 2) ((lon1 + lon2) / 2) routeCoords 50 = true.
Proof.
  intros H1 H2. apply isNearRoute_true. exists 0. split; [|lra].
  apply elem_of_app. right.
  replace 0 with (fineDist ((lat1 + lat2) / 2) ((lon1 + lon2) / 2) lon1 lat1 lon2 lat2).
  - apply (fineDists_elem _ _ _ i); [done|done|].
    unfold fineSkip. repeat (apply orb_false_iff; split); apply ltb_ge; real_arith.
  - unfold fineDist. rewrite distToSegment_midpoint. lra.
Qed.

(** The distances of the second loop to a route that is 1000 m away are
    50 m and more, whatever the length of the route. *)
Lemma fineDists_far (centroidLat centroidLon : R) (routeCoords : list Point) (d : R) :
  1 / 10 <= cos (centroidLat * PI / 180) →
  farFromRoute centroidLat centroidLon routeCoords 1000 →
  d ∈ fineDists centroidLat centroidLon routeCoords → 50 <= d.
Proof.
  intros Hcos Hfar Hd.
  apply fineDists_inv in Hd as (i & lon1 & lat1 & lon2 & lat2 & E1 & E2 & ->).
  unfold fineDist.
  destruct (distToSegment_foot centroidLon centroidLat lon1 lat1 lon2 lat2)
    as (t & Ht & ->).
  set (qlon := lon1 + t * (lon2 - lon1)). set (qlat := lat1 + t * (lat2 - lat1)).
  assert (1000 <= haversineMeters centroidLat centroidLon qlat qlon) as Hq.
  { apply Hfar. by exists i, lon1, lat1, lon2, lat2, t. }
  destruct (Rle_dec 50 (hypot (centroidLon - qlon) (centroidLat - qlat) * 111320 *
                        cos (centroidLat * PI / 180))) as [|Hn]; [done|].
  exfalso.
  assert (0 <= hypot (centroidLon - qlon) (centroidLat - qlat)) as H0
    by apply sqrt_pos.
  pose proof (haversineMeters_near centroidLat centroidLon qlat qlon) as Hnear.
  assert (hypot (centroidLon - qlon) (centroidLat - qlat) <= 0.0045); [nra|].
  specialize (Hnear ltac:(done)). lra.
Qed.

(** The second loop rejects a centroid that is 1000 m from the route. *)
Lemma finePass_far (centroidLat centroidLon : R) (routeCoords : list Point) :
  1 / 10 <= cos (centroidLat * PI / 180) →
  farFromRoute centroidLat centroidLon routeCoords 1000 →
  finePass centroidLat centroidLon routeCoords 50 = false.
Proof.
  intros Hcos Hfar.
  destruct (finePass centroidLat centroidLon routeCoords 50) eqn:E; [|done].
  apply finePass_true in E as (d & Hd & Hlt).
  pose proof (fineDists_far _ _ _ d Hcos Hfar Hd). lra.
Qed.

Lemma isNearRoute_far (centroidLat centroidLon : R) (routeCoords : list Point) :
  (length routeCoords < 1000)%nat →
  1 / 10 <= cos (centroidLat * PI / 180) →
  farFromRoute centroidLat centroidLon routeCoords 1000 →
  isNearRoute centroidLat centroidLon routeCoords 50 = false.
Proof.
  intros Hlen Hcos Hfar. apply isNearRoute_false.
  intros d [Hd|Hd]%elem_of_app.
  - unfold coarseDists in Hd.
    assert (Nat.max 1 (length routeCoords / 500) = 1%nat) as Hstep.
    { assert (length routeCoords / 500 < 2)%nat; [|lia].
      apply Nat.Div0.div_lt_upper_bound. lia. }
    rewrite Hstep in Hd.
    apply list_elem_of_fmap in Hd as (i & -> & Hi).
    apply list_elem_of_In, filter_In in Hi as [Hi _].
    apply list_elem_of_In, strided_bound in Hi.
    unfold coarseDist, at_index.
    replace (Nat.min (i + 1) (length routeCoords - 1)) with (S i) by lia.
    destruct (routeCoords !! i) as [[lon1 lat1]|] eqn:E1;
      [|apply lookup_ge_None in E1; unfold Point in *; lia].
    destruct (routeCoords !! S i) as [[lon2 lat2]|] eqn:E2;
      [|apply lookup_ge_None in E2; unfold Point in *; lia].
    simpl.
    assert (1000 <= haversineMeters centroidLat centroidLon
                      (lat1 + (lat2 - lat1) * 0.5) (lon1 + (lon2 - lon1) * 0.5)); [|lra].
    apply Hfar. exists i, lon1, lat1, lon2, lat2, 0.5.
    split; [done|]. split; [done|]. split; [lra|]. f_equal; lra.
  - by eapply fineDists_far.
Qed.

(** What holds of the two halves of C8.  With the threshold of 50 m a
    centroid on the midpoint of a segment of the route is accepted.  A
    centroid that is 1000 m or more (by [haversineMeters]) from every point
    of the route is rejected when the route has fewer than 1000 points, so
    that the first loop samples every segment, and the cosine of the
    centroid's latitude is at least 1/10, so that the second loop's
    conversion of degrees to metres does not shrink the distance
    twentyfold. *)
Lemma isNearRoute_midpoint_and_far :
  (∀ (routeCoords : list Point) (i : nat) (lon1 lat1 lon2 lat2 : R),
     routeCoords !! i = Some (lon1, lat1) →
     routeCoords !! S i = Some (lon2, lat2) →
     isNearRoute ((lat1 + lat2) / 2) ((lon1 + lon2) / 2) routeCoords 50 = true) ∧
  (∀ (centroidLat centroidLon : R) (routeCoords : list Point),
     (length routeCoords < 1000)%nat →
     1 / 10 <= cos (centroidLat * PI / 180) →
     farFromRoute centroidLat centroidLon routeCoords 1000 →
     isNearRoute centroidLat centroidLon routeCoords 50 = false).
Proof.
  split.
  - apply isNearRoute_midpoint.
  - apply isNearRoute_far.
Qed.

End ProximityClaim.

(** ** A long route whose samples cut a corner *)

Section Corner.

Lemma theta0_range : 0 < theta0 ∧ theta0 < 1 / 1000 ∧ theta0 < PI / 2.
Proof. pose proof PI2_1. unfold theta0. repeat split; lra. Qed.

Lemma toRad_delta : toRad delta = 2 * theta0.
Proof.
  unfold toRad, delta, theta0. pose proof PI_neq0. field. done.
Qed.

Lemma delta_pos : 0 < delta.
Proof.
  unfold delta. pose proof PI_RGT_0.
  apply Rdiv_lt_0_compat; lra.
Qed.

Lemma atan2_lower (t a : R) :
  0 <= t < PI / 2 → sin t ^ 2 <= a → t <= atan2 (sqrt a) (sqrt (1 - a)).
Proof.
  intros [Ht0 Ht1] Ha.
  pose proof (sin_ge_0 t Ht0 ltac:(pose proof PI_RGT_0; lra)) as Hs.
  pose proof (cos_gt_0 t ltac:(lra) Ht1) as Hc.
  assert (sin t <= sqrt a) as Hsa.
  { rewrite <- (sqrt_square (sin t)) by done. apply sqrt_le_1_alt. lra. }
  unfold atan2. destruct (Rlt_dec 0 (sqrt (1 - a))) as [Hpos|Hzero].
  - assert (ltb 0 (sqrt (1 - a)) = true) as -> by by apply ltb_lt.
    apply atan_le_of_tan; [lra|]. unfold tan.
    assert (sqrt (1 - a) <= cos t) as Hca.
    { rewrite <- (sqrt_square (cos t)) by lra. apply sqrt_le_1_alt.
      pose proof (sin2_cos2 t) as E. unfold Rsqr in E. lra. }
    apply Rle_trans with (sqrt a / cos t).
    + unfold Rdiv. apply Rmult_le_compat_r; [|done].
      left. by apply Rinv_0_lt_compat.
    + unfold Rdiv. apply Rmult_le_compat_l; [apply sqrt_pos|].
      by apply Rinv_le_contravar.
  - assert (sqrt (1 - a) = 0) as ->.
    { pose proof (sqrt_pos (1 - a)). lra. }
    assert (ltb 0 0 = false) as -> by (apply ltb_ge; lra).
    destruct (Rlt_dec 0 (sqrt a)) as [Hy|Hy].
    + assert (ltb 0 (sqrt a) = true) as -> by by apply ltb_lt. lra.
    + exfalso. assert (1 <= a) as H1.
      { destruct (Rle_dec 1 a) as [|Hn]; [done|]. exfalso. apply Hzero.
        apply sqrt_lt_R0. lra. }
      apply Hy. apply sqrt_lt_R0. lra.
Qed.

Lemma haversineMeters_lower (lat1 lon1 lat2 lon2 : R) :
  sin theta0 ^ 2 <= haversineA lat1 lon1 lat2 lon2 →
  1000 <= haversineMeters lat1 lon1 lat2 lon2.
Proof.
  intros Ha. rewrite haversineMeters_A.
  pose proof theta0_range as (H0 & H1 & H2).
  pose proof (atan2_lower theta0 _ ltac:(lra) Ha) as H.
  unfold theta0 in H at 1. lra.
Qed.

Lemma sin_theta0_sqr : 0 <= sin theta0 ^ 2 <= 1 / 1000000.
Proof.
  pose proof theta0_range as (H0 & H1 & H2).
  pose proof (sin_sqr_le theta0). pose proof (pow2_ge_0 (sin theta0)).
  split; [done|]. nra.
Qed.

(** On the parallel [delta], seen from (0, 0). *)
Lemma haversineA_parallel (lon : R) :
  haversineA 0 0 delta lon =
  sin theta0 ^ 2 + cos (2 * theta0) * sin (toRad lon / 2) ^ 2.
Proof.
  unfold haversineA. rewrite !Rminus_0_r, toRad_delta.
  replace (toRad 0) with 0 by (unfold toRad; lra). rewrite cos_0.
  replace (2 * theta0 / 2) with theta0 by lra. lra.
Qed.

Lemma far_on_parallel (lon : R) : 1000 <= haversineMeters 0 0 delta lon.
Proof.
  apply haversineMeters_lower. rewrite haversineA_parallel.
  pose proof theta0_range as (H0 & H1 & H2).
  pose proof (cos_ge_0 (2 * theta0) ltac:(lra) ltac:(pose proof PI2_1; lra)).
  pose proof (pow2_ge_0 (sin (toRad lon / 2))). nra.
Qed.

(** On the meridian 90, between the parallels [- delta] and [delta]. *)
Lemma far_on_meridian (lat : R) :
  - delta <= lat <= delta → 1000 <= haversineMeters 0 0 lat 90.
Proof.
  intros Hlat. apply haversineMeters_lower. unfold haversineA.
  rewrite !Rminus_0_r.
  replace (toRad 0) with 0 by (unfold toRad; lra). rewrite cos_0.
  replace (toRad 90 / 2) with (PI / 4) by (unfold toRad; lra).
  rewrite sin_PI4.
  assert ((1 / sqrt 2) ^ 2 = 1 / 2) as ->.
  { pose proof (sqrt_sqrt 2 ltac:(lra)) as E. pose proof (sqrt_lt_R0 2 ltac:(lra)).
    field_simplify; [|lra]. simpl. rewrite Rmult_1_r, E. lra. }
  pose proof theta0_range as (H0 & H1 & H2).
  assert (- (2 * theta0) <= toRad lat <= 2 * theta0) as Hr.
  { rewrite <- toRad_delta. unfold toRad. pose proof PI_RGT_0. split; nra. }
  pose proof (cos_lower (toRad lat) ltac:(lra) ltac:(lra)) as Hc.
  pose proof sin_theta0_sqr as [Hs0 Hs1].
  pose proof (pow2_ge_0 (sin (toRad lat / 2))).
  assert (toRad lat ^ 2 <= 1 / 100) by nra.
  nra.
Qed.

Lemma cornerRoute_far : farFromRoute 0 0 cornerRoute 1000.
Proof.
  pose proof delta_pos as Hd.
  intros lon lat (i & lon1 & lat1 & lon2 & lat2 & t & H1 & H2 & Ht & E).
  injection E as -> ->.
  destruct i as [|[|i]].
  - change (Some ((-90, delta) : Point) = Some (lon1, lat1)) in H1.
    change (Some ((90, delta) : Point) = Some (lon2, lat2)) in H2.
    injection H1 as <- <-. injection H2 as <- <-.
    replace (delta + t * (delta - delta)) with delta by lra.
    apply far_on_parallel.
  - change (Some ((90, delta) : Point) = Some (lon1, lat1)) in H1.
    change (Some ((90, - delta) : Point) = Some (lon2, lat2)) in H2.
    injection H1 as <- <-. injection H2 as <- <-.
    replace (90 + t * (90 - 90)) with 90 by lra.
    apply far_on_meridian. split; nra.
  - change (replicate 998 ((90, - delta) : Point) !! i = Some (lon1, lat1)) in H1.
    change (replicate 998 ((90, - delta) : Point) !! S i = Some (lon2, lat2)) in H2.
    apply lookup_replicate in H1 as [[= -> ->] _].
    apply lookup_replicate in H2 as [[= -> ->] _].
    replace (90 + t * (90 - 90)) with 90 by lra.
    apply far_on_meridian. split; nra.
Qed.

(** The nearest point of the route is (0, delta), in the middle of the
    first segment, due north of the centroid and exactly 1000 m away. *)
Lemma cornerRoute_nearest :
  onPolyline (0, delta) cornerRoute ∧ haversineMeters 0 0 delta 0 = 1000.
Proof.
  split.
  - exists 0%nat, (-90), delta, 90, delta, (1 / 2).
    split; [done|]. split; [done|]. split; [lra|]. f_equal; lra.
  - apply Rle_antisym; [|apply far_on_parallel].
    rewrite haversineMeters_A, haversineA_parallel.
    replace (toRad 0 / 2) with 0 by (unfold toRad; lra). rewrite sin_0.
    replace (sin theta0 ^ 2 + cos (2 * theta0) * 0 ^ 2) with (sin theta0 * sin theta0)
      by (simpl; lra).
    pose proof theta0_range as (H0 & H1 & H2).
    pose proof (sin_gt_0 theta0 H0 ltac:(lra)) as Hs.
    pose proof (cos_gt_0 theta0 ltac:(lra) H2) as Hc.
    rewrite sqrt_square by lra.
    replace (1 - sin theta0 * sin theta0) with (cos theta0 * cos theta0)
      by (pose proof (sin2_cos2 theta0) as E; unfold Rsqr in E; lra).
    rewrite sqrt_square by lra.
    unfold atan2. assert (ltb 0 (cos theta0) = true) as -> by by apply ltb_lt.
    change (sin theta0 / cos theta0) with (tan theta0).
    rewrite atan_tan by lra. unfold theta0. lra.
Qed.

Lemma haversineMeters_same (lat lon : R) : haversineMeters lat lon lat lon = 0.
Proof.
  rewrite haversineMeters_A. unfold haversineA.
  replace (toRad (lat - lat) / 2) with 0 by (unfold toRad; lra).
  replace (toRad (lon - lon) / 2) with 0 by (unfold toRad; lra).
  rewrite sin_0.
  replace (0 ^ 2 + cos (toRad lat) * cos (toRad lat) * 0 ^ 2) with 0 by (simpl; lra).
  rewrite sqrt_0, Rminus_0_r, sqrt_1. unfold atan2.
  assert (ltb 0 1 = true) as -> by (apply ltb_lt; lra).
  replace (0 / 1) with 0 by lra. rewrite atan_0. lra.
Qed.

Lemma cornerRoute_accepted : isNearRoute 0 0 cornerRoute 50 = true.
Proof.
  apply isNearRoute_true. exists 0. split; [|lra].
  apply elem_of_app. left. unfold coarseDists.
  assert (length cornerRoute = 1000%nat) as -> by reflexivity.
  change (Nat.max 1 (1000 / 500)) with 2%nat.
  change (strided 1000 0 2 (1000 - 1)) with (0%nat :: strided 999 2 2 999).
  assert (coarseSkipped 0 0 cornerRoute 2 0 = false) as Hskip.
  { unfold coarseSkipped. assert (length cornerRoute = 1000%nat) as -> by reflexivity.
    change (at_index cornerRoute 0) with ((-90, delta) : Point).
    change (at_index cornerRoute (Nat.min (0 + 2) (1000 - 1)))
      with ((90, - delta) : Point).
    cbv beta iota. unfold coarseSkip.
    apply andb_false_iff. left. apply ltb_ge.
    replace ((delta + - delta) / 2) with 0 by lra.
    rewrite Rminus_0_r, Rabs_R0. lra. }
  cbn [List.filter]. rewrite Hskip. cbn [negb map].
  assert (coarseDist 0 0 cornerRoute 2 0 = 0) as ->; [|apply list_elem_of_here].
  unfold coarseDist. assert (length cornerRoute = 1000%nat) as -> by reflexivity.
  change (at_index cornerRoute 0) with ((-90, delta) : Point).
  change (at_index cornerRoute (Nat.min (0 + 2) (1000 - 1)))
    with ((90, - delta) : Point).
  cbv beta iota.
  replace (delta + (- delta - delta) * 0.5) with 0 by lra.
  replace (-90 + (90 - -90) * 0.5) with 0 by lra.
  apply haversineMeters_same.
Qed.

(** C8 fails on the code.  The centroid (0, 0) is 1000 m from the nearest
    point of [cornerRoute], a route of 1000 points, straight south of the
    middle of its first segment.  The second loop, which measures to the
    segments of the route, rejects it; the first loop has accepted it
    before: on a route of 1000 points and more it measures to the middle of
    the chord from a point to the next but one, here from the first point
    to the third, and that middle is no point of the route.  [isNearRoute]
    answers [true] where C8 wants a rejection. *)
Theorem isNearRoute_accepts_far_centroid :
  length cornerRoute = 1000%nat ∧
  farFromRoute 0 0 cornerRoute 1000 ∧
  onPolyline (0, delta) cornerRoute ∧
  haversineMeters 0 0 delta 0 = 1000 ∧
  finePass 0 0 cornerRoute 50 = false ∧
  coarsePass 0 0 cornerRoute 50 = true ∧
  isNearRoute 0 0 cornerRoute 50 = true.
Proof.
  split; [reflexivity|]. split; [apply cornerRoute_far|].
  destruct cornerRoute_nearest as [H1 H2].
  split; [done|]. split; [done|].
  assert (finePass 0 0 cornerRoute 50 = false) as Hfine.
  { apply finePass_far; [|apply cornerRoute_far].
    replace (0 * PI / 180) with 0 by lra. rewrite cos_0. lra. }
  pose proof cornerRoute_accepted as Hnear.
  split; [exact Hfine|]. split; [|exact Hnear].
  unfold isNearRoute in Hnear.
  destruct (coarsePass 0 0 cornerRoute 50); [done|]. congruence.
Qed.

End Corner.

Lemma parallelRoute_far : farFromRoute 0 0 parallelRoute 1000.
Proof.
  intros lon lat (i & lon1 & lat1 & lon2 & lat2 & t & H1 & H2 & Ht & E).
  injection E as -> ->.
  destruct i as [|i]; [|destruct i; discriminate H2].
  injection H1 as <- <-. injection H2 as <- <-.
  replace (delta + t * (delta - delta)) with delta by lra.
  apply far_on_parallel.
Qed.

Lemma cos_equator : 1 / 10 <= cos (0 * PI / 180).
Proof. replace (0 * PI / 180) with 0 by lra. rewrite cos_0. lra. Qed.

(** The theorem at the midpoint of the segment from (0, 0) to (1, 1), and at
    the centroid (0, 0), 1000 m south of a route of two points. *)
Lemma isNearRoute_midpoint_and_far_witness :
  isNearRoute ((0 + 1) / 2) ((0 + 1) / 2) diagonalRoute 50 = true ∧
  farFromRoute 0 0 parallelRoute 1000 ∧
  isNearRoute 0 0 parallelRoute 50 = false.
Proof.
  destruct isNearRoute_midpoint_and_far as [Haccept Hreject].
  split; [|split].
  - apply (Haccept diagonalRoute 0%nat 0 0 1 1); reflexivity.
  - exact parallelRoute_far.
  - apply (Hreject 0 0 parallelRoute).
    + simpl. lia.
    + exact cos_equator.
    + exact parallelRoute_far.
Defined.

(** ** A route near the pole *)

Section Pole.

(** The cosine of the latitude 89.99 degrees. *)
Lemma cos_polar :
  cos (toRad 89.99) = sin (0.01 * PI / 180) ∧
  0.00016 <= cos (toRad 89.99) <= 0.000223.
Proof.
  assert (cos (toRad 89.99) = sin (0.01 * PI / 180)) as E.
  { rewrite <- cos_shift. f_equal. unfold toRad. lra. }
  split; [done|]. rewrite E.
  pose proof PI_4. pose proof PI2_3_2.
  pose proof (sin_abs_le (0.01 * PI / 180) ltac:(lra)) as [_ Hu].
  pose proof (sin_lower (0.01 * PI / 180) ltac:(lra) ltac:(lra)) as Hl.
  assert (0.01 * PI / 180 <= 0.000223) by lra.
  assert (0.000166 <= 0.01 * PI / 180) by lra.
  assert ((0.01 * PI / 180) ^ 3 <= 0.000000001) by (simpl; nra).
  split; lra.
Qed.

Lemma polarRoute_accepted : isNearRoute 89.99 0 polarRoute 50 = true.
Proof.
  apply isNearRoute_true.
  exists (fineDist 89.99 0 0 89 100 89.99). split.
  - apply elem_of_app. right. apply (fineDists_elem _ _ _ 0%nat); [done|done|].
    unfold fineSkip. repeat (apply orb_false_iff; split); apply ltb_ge; real_arith.
  - unfold fineDist, distToSegment.
    assert (eqb ((100 - 0) * (100 - 0) + (89.99 - 89) * (89.99 - 89)) 0 = false) as ->
      by (apply eqb_neq; lra).
    assert (((0 - 0) * (100 - 0) + (89.99 - 89) * (89.99 - 89)) /
            ((100 - 0) * (100 - 0) + (89.99 - 89) * (89.99 - 89))
            = 9801 / 100009801) as -> by (field_simplify; lra).
    assert (Rmax 0 (Rmin 1 (9801 / 100009801)) = 9801 / 100009801) as ->
      by real_arith.
    assert (hypot (0 - (0 + 9801 / 100009801 * (100 - 0)))
                  (89.99 - (89 + 9801 / 100009801 * (89.99 - 89))) <= 1) as Hflat.
    { unfold hypot. rewrite <- sqrt_1. apply sqrt_le_1_alt. lra. }
    pose proof (sqrt_pos ((0 - (0 + 9801 / 100009801 * (100 - 0))) *
                          (0 - (0 + 9801 / 100009801 * (100 - 0))) +
                          (89.99 - (89 + 9801 / 100009801 * (89.99 - 89))) *
                          (89.99 - (89 + 9801 / 100009801 * (89.99 - 89))))) as Hpos.
    fold (hypot (0 - (0 + 9801 / 100009801 * (100 - 0)))
                (89.99 - (89 + 9801 / 100009801 * (89.99 - 89)))) in Hpos.
    destruct cos_polar as [_ [Hc0 Hc1]]. unfold toRad in Hc0, Hc1.
    nra.
Qed.

Lemma sin_theta0_small : sin theta0 ^ 2 <= 0.00000001.
Proof.
  pose proof (sin_sqr_le theta0) as H. unfold theta0 in *.
  eapply Rle_trans; [exact H|]. simpl. lra.
Qed.

Lemma polarRoute_far : farFromRoute 89.99 0 polarRoute 1000.
Proof.
  intros lon lat (i & lon1 & lat1 & lon2 & lat2 & t & H1 & H2 & Ht & E).
  injection E as -> ->.
  destruct i as [|i]; [|destruct i; discriminate H2].
  injection H1 as <- <-. injection H2 as <- <-.
  apply haversineMeters_lower. unfold haversineA.
  destruct cos_polar as [_ [Hc0 Hc1]].
  pose proof PI_4 as HPI4. pose proof PI2_3_2 as HPI3.
  set (lat := 89 + t * (89.99 - 89)). set (lon := 0 + t * (100 - 0)).
  assert (cos (toRad 89.99) <= cos (toRad lat)) as Hlat.
  { apply cos_decr_1; unfold toRad, lat; nra. }
  pose proof (pow2_ge_0 (sin (toRad (lat - 89.99) / 2))) as Hp1.
  pose proof (pow2_ge_0 (sin (toRad (lon - 0) / 2))) as Hp2.
  assert (0.00016 * 0.00016 <= cos (toRad 89.99) * cos (toRad lat)) as Hcc by nra.
  assert (0 <= cos (toRad 89.99) * cos (toRad lat) * sin (toRad (lon - 0) / 2) ^ 2)
    as Hterm by (apply Rmult_le_pos; lra).
  destruct (Rle_dec t 0.99) as [Hlow|Hhigh].
  - assert (sin theta0 ^ 2 <= sin (toRad (lat - 89.99) / 2) ^ 2); [|lra].
    replace (toRad (lat - 89.99) / 2) with (- (toRad (89.99 - lat) / 2))
      by (unfold toRad; lra).
    rewrite sin_neg.
    replace ((- sin (toRad (89.99 - lat) / 2)) ^ 2)
      with (sin (toRad (89.99 - lat) / 2) ^ 2) by (simpl; lra).
    pose proof theta0_range as (T0 & T1 & T2).
    assert (theta0 <= toRad (89.99 - lat) / 2 <= PI / 2) as [Ya Yb].
    { unfold toRad, lat, theta0. split; nra. }
    pose proof (sin_incr_1 theta0 (toRad (89.99 - lat) / 2)
                  ltac:(lra) ltac:(lra) ltac:(lra) ltac:(lra) Ya) as Hs.
    pose proof (sin_ge_0 theta0 ltac:(lra) ltac:(lra)) as Hs0.
    simpl. nra.
  - assert (1 / 2 <= sin (toRad (lon - 0) / 2) ^ 2) as Hhalf.
    { assert (PI / 4 <= toRad (lon - 0) / 2 <= PI / 2) as [Ya Yb].
      { unfold toRad, lon. split; nra. }
      pose proof (sin_incr_1 (PI / 4) (toRad (lon - 0) / 2)
                    ltac:(lra) ltac:(lra) ltac:(lra) ltac:(lra) Ya) as Hs.
      rewrite sin_PI4 in Hs.
      pose proof (sqrt_sqrt 2 ltac:(lra)) as E2.
      pose proof (sqrt_lt_R0 2 ltac:(lra)) as Hs2.
      assert (1 / sqrt 2 * (1 / sqrt 2) = 1 / 2) as E.
      { field_simplify; [|lra]. simpl. rewrite Rmult_1_r, E2. lra. }
      assert (0 < 1 / sqrt 2) by (apply Rdiv_lt_0_compat; lra).
      simpl. nra. }
    pose proof sin_theta0_small as Hsmall.
    assert (0.00016 * 0.00016 * (1 / 2) <=
            cos (toRad 89.99) * cos (toRad lat) * sin (toRad (lon - 0) / 2) ^ 2)
      by (apply Rmult_le_compat; lra).
    lra.
Qed.

(** Near the pole a centroid 1000 m and more from every point of the route
    is accepted: the second loop multiplies degrees of latitude by the
    cosine of the latitude as it does degrees of longitude. *)
Lemma polar_centroid_accepted :
  farFromRoute 89.99 0 polarRoute 1000 ∧
  cos (89.99 * PI / 180) < 1 / 10 ∧
  isNearRoute 89.99 0 polarRoute 50 = true.
Proof.
  split; [apply polarRoute_far|]. split; [|apply polarRoute_accepted].
  destruct cos_polar as [_ [_ Hc]]. unfold toRad in Hc. lra.
Qed.

End Pole.

(** ** The count and the order of the features *)

Section CountAndOrder.

Lemma origin_near : isNearRoute 0 0 throughOrigin 50 = true.
Proof.
  replace 0 with ((-1 + 1) / 2) by lra.
  by apply (isNearRoute_midpoint throughOrigin 0 (-1) (-1) 1 1).
Qed.

Lemma countGroup_at_origin (nodePositions : gmap Z LatLon) (ways : list Element)
    (gid : option nat) (nearCount : nat) :
  resolvedPositions nodePositions ways ≠ [] →
  Forall (fun pos => pos = mkLatLon 0 0) (resolvedPositions nodePositions ways) →
  countGroup nodePositions throughOrigin nearCount (gid, ways) = S nearCount.
Proof.
  intros Hne Hall. unfold countGroup. simpl. rewrite centroidOf_meanPosition.
  assert (∀ ps, Forall (fun pos => pos = mkLatLon 0 0) ps →
                sumR (pos_lat <$> ps) = 0 ∧ sumR (pos_lon <$> ps) = 0) as Hsum.
  { induction 1 as [|p ps -> _ [IH1 IH2]]; [done|].
    rewrite !fmap_cons. unfold sumR in *. cbn [foldr pos_lat pos_lon].
    rewrite IH1, IH2. split; lra. }
  destruct (resolvedPositions nodePositions ways) as [|p ps] eqn:E; [done|].
  destruct (Hsum _ Hall) as [H1 H2].
  unfold meanPosition, mean. rewrite H1, H2.
  replace (0 / INR (length (pos_lat <$> p :: ps))) with 0 by (unfold Rdiv; lra).
  replace (0 / INR (length (pos_lon <$> p :: ps))) with 0 by (unfold Rdiv; lra).
  by rewrite origin_near.
Qed.

(** The count follows the grouping: the same features, all on the route,
    count as two junctions in the order A, B, C and as one in the order
    A, C, B. *)
Lemma nearCountOf_order_dependent :
  nearCountOf throughOrigin ([wayA; wayB; wayC] ++ fourNodes) = 2%nat ∧
  nearCountOf throughOrigin ([wayA; wayC; wayB] ++ fourNodes) = 1%nat.
Proof.
  split.
  - unfold nearCountOf.
    assert (deduplicateRoundabouts (uniqueElements ([wayA; wayB; wayC] ++ fourNodes))
            = [(Some 0%nat, [wayA; wayC]); (Some 1%nat, [wayB])]) as ->
      by (vm_compute; reflexivity).
    cbn [fold_left].
    rewrite !countGroup_at_origin; try done;
      repeat (constructor; try reflexivity).
  - unfold nearCountOf.
    assert (deduplicateRoundabouts (uniqueElements ([wayA; wayC; wayB] ++ fourNodes))
            = [(Some 0%nat, [wayA; wayC; wayB])]) as ->
      by (vm_compute; reflexivity).
    cbn [fold_left].
    rewrite !countGroup_at_origin; try done;
      repeat (constructor; try reflexivity).
Qed.

End CountAndOrder.

(** ** The count after a retry *)

Section RetryOrder.

(** On a point of a segment the planar distance is zero. *)
Lemma distToSegment_on_segment (ax ay bx b_y t : R) :
  0 <= t <= 1 →
  distToSegment (ax + t * (bx - ax)) (ay + t * (b_y - ay)) ax ay bx b_y = 0.
Proof.
  intros Ht. unfold distToSegment.
  destruct (eqb ((bx - ax) * (bx - ax) + (b_y - ay) * (b_y - ay)) 0) eqn:E.
  - apply eqb_eq in E.
    assert (bx - ax = 0 ∧ b_y - ay = 0) as [Hx Hy]
      by (apply Rplus_sqr_eq_0; exact E).
    rewrite Hx, Hy.
    replace (ax + t * 0 - ax) with 0 by lra.
    replace (ay + t * 0 - ay) with 0 by lra. apply hypot_0.
  - apply eqb_neq in E.
    assert (((ax + t * (bx - ax) - ax) * (bx - ax) +
             (ay + t * (b_y - ay) - ay) * (b_y - ay)) /
            ((bx - ax) * (bx - ax) + (b_y - ay) * (b_y - ay)) = t) as ->.
    { field. exact E. }
    assert (Rmax 0 (Rmin 1 t) = t) as -> by real_arith.
    replace (ax + t * (bx - ax) - (ax + t * (bx - ax))) with 0 by lra.
    replace (ay + t * (b_y - ay) - (ay + t * (b_y - ay))) with 0 by lra.
    apply hypot_0.
Qed.

(** A centroid on the route is accepted. *)
Lemma isNearRoute_on_route (routeCoords : list Point) (lat lon : R) :
  onPolyline (lon, lat) routeCoords → isNearRoute lat lon routeCoords 50 = true.
Proof.
  intros (i & lon1 & lat1 & lon2 & lat2 & t & H1 & H2 & Ht & [= -> ->]).
  apply isNearRoute_true. exists 0. split; [|lra].
  apply elem_of_app. right.
  replace 0 with (fineDist (lat1 + t * (lat2 - lat1)) (lon1 + t * (lon2 - lon1))
                    lon1 lat1 lon2 lat2).
  - apply (fineDists_elem _ _ _ i); [done|done|].
    assert (Rmin lat1 lat2 <= lat1 + t * (lat2 - lat1) <= Rmax lat1 lat2) as Hlat
      by (split_real_cases; nra).
    assert (Rmin lon1 lon2 <= lon1 + t * (lon2 - lon1) <= Rmax lon1 lon2) as Hlon
      by (split_real_cases; nra).
    unfold fineSkip. repeat (apply orb_false_iff; split); apply ltb_ge; lra.
  - unfold fineDist. rewrite distToSegment_on_segment by done. lra.
Qed.

Lemma countGroup_on_route (nodePositions : gmap Z LatLon) (coords : list Point)
    (ways : list Element) (gid : option nat) (nearCount : nat) (lat lon : R) :
  meanPosition (resolvedPositions nodePositions ways) = Some (lat, lon) →
  onPolyline (lon, lat) coords →
  countGroup nodePositions coords nearCount (gid, ways) = S nearCount.
Proof.
  intros Hmean Hon. unfold countGroup. cbn [snd].
  rewrite centroidOf_meanPosition, Hmean. by rewrite isNearRoute_on_route.
Qed.

Variables x1 x2 x3 x4 : R.

Let nodes : list Element := [nodeOn 1 x1; nodeOn 2 x2; nodeOn 3 x3; nodeOn 4 x4].
Let together : list Element := [wayA; wayB; wayC] ++ nodes.
Let boxAfterBox : list Element :=
  [wayA; wayC; nodeOn 1 x1; nodeOn 2 x2; nodeOn 3 x3] ++
  [wayB; wayC; nodeOn 2 x2; nodeOn 3 x3; nodeOn 4 x4].

Lemma together_groups :
  deduplicateRoundabouts (uniqueElements together)
    = [(Some 0%nat, [wayA; wayC]); (Some 1%nat, [wayB])] ∧
  resolvedPositions (nodePositionsOf (uniqueElements together)) [wayA; wayC]
    = [mkLatLon 0 x1; mkLatLon 0 x2; mkLatLon 0 x2; mkLatLon 0 x3] ∧
  resolvedPositions (nodePositionsOf (uniqueElements together)) [wayB]
    = [mkLatLon 0 x3; mkLatLon 0 x4].
Proof. split; [|split]; vm_compute; reflexivity. Qed.

Lemma boxAfterBox_groups :
  deduplicateRoundabouts (uniqueElements boxAfterBox)
    = [(Some 0%nat, [wayA; wayC; wayB])] ∧
  resolvedPositions (nodePositionsOf (uniqueElements boxAfterBox)) [wayA; wayC; wayB]
    = [mkLatLon 0 x1; mkLatLon 0 x2; mkLatLon 0 x2; mkLatLon 0 x3;
       mkLatLon 0 x3; mkLatLon 0 x4].
Proof. split; vm_compute; reflexivity. Qed.

End RetryOrder.

(** The boxes of [equatorRoute]. *)
Lemma equatorRoute_boxes :
  computeSegmentBboxes (coordinates equatorRoute) 12 =
  [mkBbox (Fin (0 - buffer)) (Fin (0 + buffer)) (Fin (0 - buffer)) (Fin (1 + buffer));
   mkBbox (Fin (0 - buffer)) (Fin (0 + buffer)) (Fin (1 - buffer)) (Fin (2 + buffer));
   mkBbox (Fin (0 - buffer)) (Fin (0 + buffer)) (Fin (2 - buffer)) (Fin (2 + buffer))].
Proof.
  assert (ltb 0 0 = false) as H00 by (apply ltb_ge; lra).
  assert (ltb 1 0 = false) as H10 by (apply ltb_ge; lra).
  assert (ltb 2 1 = false) as H21 by (apply ltb_ge; lra).
  assert (ltb 0 1 = true) as H01 by (apply ltb_lt; lra).
  assert (ltb 1 2 = true) as H12 by (apply ltb_lt; lra).
  change (computeSegmentBboxes (coordinates equatorRoute) 12)
    with [bboxOf [((0, 0) : Point); (1, 0)]; bboxOf [((1, 0) : Point); (2, 0)];
          bboxOf [((2, 0) : Point)]].
  unfold bboxOf. cbn [fold_left extend xltb minLat maxLat minLon maxLon xsub xadd].
  by rewrite H00, H10, H21, H01, H12.
Qed.

(** The features of the three boxes together count as two junctions, and
    those of the boxes one after the other as one. *)
Lemma nearCountOf_retry_order :
  nearCountOf (coordinates equatorRoute) allBoxes = 2%nat ∧
  nearCountOf (coordinates equatorRoute) (firstBox ++ secondBox) = 1%nat.
Proof.
  split; unfold nearCountOf.
  - destruct (together_groups 0.5 0.99 1.01 1.5) as (Hg & H1 & H2).
    change (deduplicateRoundabouts (uniqueElements allBoxes)
            = [(Some 0%nat, [wayA; wayC]); (Some 1%nat, [wayB])]) in Hg.
    change (resolvedPositions (nodePositionsOf (uniqueElements allBoxes)) [wayA; wayC]
            = [mkLatLon 0 0.5; mkLatLon 0 0.99; mkLatLon 0 0.99; mkLatLon 0 1.01]) in H1.
    change (resolvedPositions (nodePositionsOf (uniqueElements allBoxes)) [wayB]
            = [mkLatLon 0 1.01; mkLatLon 0 1.5]) in H2.
    rewrite Hg. cbn [fold_left].
    rewrite (countGroup_on_route _ _ [wayA; wayC] _ _ 0 0.8725).
    + rewrite (countGroup_on_route _ _ [wayB] _ _ 0 1.255); [done| |].
      * rewrite H2. unfold meanPosition, mean, sumR.
        cbn [fmap list_fmap foldr pos_lat pos_lon length INR]. do 2 f_equal; lra.
      * exists 1%nat, 1, 0, 2, 0, 0.255. repeat split; try done; try lra.
        f_equal; lra.
    + rewrite H1. unfold meanPosition, mean, sumR.
      cbn [fmap list_fmap foldr pos_lat pos_lon length INR]. do 2 f_equal; lra.
    + exists 0%nat, 0, 0, 1, 0, 0.8725. repeat split; try done; try lra.
      f_equal; lra.
  - destruct (boxAfterBox_groups 0.5 0.99 1.01 1.5) as (Hg & H1).
    change (deduplicateRoundabouts (uniqueElements (firstBox ++ secondBox))
            = [(Some 0%nat, [wayA; wayC; wayB])]) in Hg.
    change (resolvedPositions (nodePositionsOf (uniqueElements (firstBox ++ secondBox)))
              [wayA; wayC; wayB]
            = [mkLatLon 0 0.5; mkLatLon 0 0.99; mkLatLon 0 0.99; mkLatLon 0 1.01;
               mkLatLon 0 1.01; mkLatLon 0 1.5]) in H1.
    rewrite Hg. cbn [fold_left].
    rewrite (countGroup_on_route _ _ [wayA; wayC; wayB] _ _ 0 1); [done| |].
    + rewrite H1. unfold meanPosition, mean, sumR.
      cbn [fmap list_fmap foldr pos_lat pos_lon length INR]. do 2 f_equal; lra.
    + exists 0%nat, 0, 0, 1, 0, 1. repeat split; try done; try lra.
      f_equal; lra.
Qed.

(** C4 fails.  The route runs along the equator and has three boxes.  The
    ways A and B have their nodes in the first and in the second box, the
    way C has a node in each, and the third box is empty.  One service
    answers the query of the three boxes with the features of all, each
    once and the ways in the order of their ids; the other cuts that query
    and answers the query of each box with the features of that box.  The
    features are the same and both runs return, the first with the count 2
    and the second with the count 1: a way that touches two groups joins
    the first only, so the count follows the order in which the ways
    arrive. *)
Theorem countRoundabouts_retry_differs_from_batch :
  let bboxes := computeSegmentBboxes (coordinates equatorRoute) 12 in
  bboxes =
    [mkBbox (Fin (0 - buffer)) (Fin (0 + buffer)) (Fin (0 - buffer)) (Fin (1 + buffer));
     mkBbox (Fin (0 - buffer)) (Fin (0 + buffer)) (Fin (1 - buffer)) (Fin (2 + buffer));
     mkBbox (Fin (0 - buffer)) (Fin (0 + buffer)) (Fin (2 - buffer)) (Fin (2 + buffer))] ∧
  (0 - buffer <= 0.5 ∧ 0.99 < 1 - buffer ∧ 1 + buffer < 1.01 ∧ 1.5 < 2 - buffer) ∧
  answer batchHost 0 bboxes = Returned (mkData (Returned (Whole <$> allBoxes))) ∧
  answer boxwiseHost 0 bboxes = Thrown (Error "The operation was aborted") ∧
  (∀ b, answer boxwiseHost 1 [b] = Returned (mkData (Returned (Whole <$> firstBox)))) ∧
  (∀ b, answer boxwiseHost 2 [b] = Returned (mkData (Returned (Whole <$> secondBox)))) ∧
  (∀ b, answer boxwiseHost 3 [b] = Returned (mkData (Returned []))) ∧
  (∀ el, el ∈ allBoxes ↔ el ∈ firstBox ++ secondBox) ∧
  (∃ w', countRoundabouts batchHost equatorRoute emptyWorld = (Returned 2%nat, w')) ∧
  (∃ w', countRoundabouts boxwiseHost equatorRoute emptyWorld = (Returned 1%nat, w')).
Proof.
  cbv zeta. split; [apply equatorRoute_boxes|].
  split; [unfold buffer; lra|].
  split; [reflexivity|]. split; [reflexivity|]. split; [reflexivity|].
  split; [reflexivity|]. split; [reflexivity|]. split; [|split].
  - intros el. unfold allBoxes, firstBox, secondBox, equatorNodes.
    rewrite !elem_of_app, !elem_of_cons, !elem_of_nil. tauto.
  - destruct (countRoundabouts_returns batchHost equatorRoute emptyWorld) as [Hret _].
    destruct Hret as (w' & E).
    { change (wellFormed (Whole <$> allBoxes)). apply wellFormed_whole. }
    exists w'. rewrite E. f_equal. f_equal.
    change (nearCountOf (coordinates equatorRoute) (objects (Whole <$> allBoxes)) = 2%nat).
    rewrite objects_whole. apply nearCountOf_retry_order.
  - destruct (countRoundabouts_returns boxwiseHost equatorRoute emptyWorld) as [Hret _].
    destruct Hret as (w' & E).
    { change (wellFormed (Whole <$> firstBox ++ secondBox)).
      apply wellFormed_whole. }
    exists w'. rewrite E. f_equal. f_equal.
    change (nearCountOf (coordinates equatorRoute)
              (objects (Whole <$> firstBox ++ secondBox)) = 1%nat).
    rewrite objects_whole. apply nearCountOf_retry_order.
Qed.

(** ** Boxes of the segmenter *)

Section Boxes.

Lemma xltb_irrefl (x : R) : xltb (Fin x) (Fin x) = false.
Proof. simpl. apply ltb_ge. lra. Qed.

Lemma xltb_min_keeps (x y : R) (m : xnum) :
  xltb (Fin x) m = false →
  xltb (Fin x) (if xltb (Fin y) m then Fin y else m) = false.
Proof.
  intros H. destruct (xltb (Fin y) m) eqn:E; [|done].
  destruct m as [a| |]; simpl in *; try done.
  apply ltb_ge. apply ltb_ge in H. apply ltb_lt in E. lra.
Qed.

Lemma xltb_max_keeps (x y : R) (m : xnum) :
  xltb m (Fin x) = false →
  xltb (if xltb m (Fin y) then Fin y else m) (Fin x) = false.
Proof.
  intros H. destruct (xltb m (Fin y)) eqn:E; [|done].
  destruct m as [a| |]; simpl in *; try done.
  apply ltb_ge. apply ltb_ge in H. apply ltb_lt in E. lra.
Qed.

Lemma extend_holds_new (acc : Extent) (p : Point) : holds (extend acc p) p.
Proof.
  destruct p as [lon lat]. unfold holds, extend.
  cbn [minLat maxLat minLon maxLon fst snd].
  repeat split.
  - destruct (xltb (Fin lat) (minLat acc)) eqn:E; [apply xltb_irrefl|done].
  - destruct (xltb (maxLat acc) (Fin lat)) eqn:E; [apply xltb_irrefl|done].
  - destruct (xltb (Fin lon) (minLon acc)) eqn:E; [apply xltb_irrefl|done].
  - destruct (xltb (maxLon acc) (Fin lon)) eqn:E; [apply xltb_irrefl|done].
Qed.

Lemma extend_holds_old (acc : Extent) (p q : Point) :
  holds acc q → holds (extend acc p) q.
Proof.
  destruct p as [lon lat]. unfold holds, extend.
  cbn [minLat maxLat minLon maxLon fst snd].
  intros (H1 & H2 & H3 & H4).
  repeat split; first [by apply xltb_min_keeps|by apply xltb_max_keeps].
Qed.

Lemma extent_holds (segment : list Point) (acc : Extent) (q : Point) :
  holds acc q ∨ q ∈ segment → holds (fold_left extend segment acc) q.
Proof.
  revert acc. induction segment as [|p segment IH]; intros acc [H|H]; simpl.
  - done.
  - by apply elem_of_nil in H.
  - apply IH. left. by apply extend_holds_old.
  - apply elem_of_cons in H as [->|H].
    + apply IH. left. apply extend_holds_new.
    + apply IH. by right.
Qed.

(** Each side of the extent is the side it started from or a coordinate of
    a point met. *)
Lemma extent_attained (segment : list Point) (acc : Extent) :
  let ex := fold_left extend segment acc in
  (minLat ex = minLat acc ∨ ∃ p, p ∈ segment ∧ minLat ex = Fin p.2) ∧
  (maxLat ex = maxLat acc ∨ ∃ p, p ∈ segment ∧ maxLat ex = Fin p.2) ∧
  (minLon ex = minLon acc ∨ ∃ p, p ∈ segment ∧ minLon ex = Fin p.1) ∧
  (maxLon ex = maxLon acc ∨ ∃ p, p ∈ segment ∧ maxLon ex = Fin p.1).
Proof.
  revert acc. induction segment as [|p segment IH]; intros acc; simpl.
  { repeat split; by left. }
  destruct (IH (extend acc p)) as (H1 & H2 & H3 & H4).
  assert (∀ (f : Extent → xnum) (g : Point → R),
    (f (extend acc p) = f acc ∨ f (extend acc p) = Fin (g p)) →
    (f (fold_left extend segment (extend acc p)) = f (extend acc p) ∨
     ∃ q, q ∈ segment ∧ f (fold_left extend segment (extend acc p)) = Fin (g q)) →
    f (fold_left extend segment (extend acc p)) = f acc ∨
    ∃ q, q ∈ p :: segment ∧ f (fold_left extend segment (extend acc p)) = Fin (g q)) as Hstep.
  { intros f g Hp [Hq|(q & Hq & E)].
    - rewrite Hq. destruct Hp as [Hp|Hp]; [by left|].
      right. exists p. split; [apply list_elem_of_here|done].
    - right. exists q. split; [by apply list_elem_of_further|done]. }
  destruct p as [lon lat].
  repeat split.
  - apply (Hstep minLat snd); [|done]. cbn [extend minLat snd].
    destruct (xltb (Fin lat) (minLat acc)); first [by right|by left].
  - apply (Hstep maxLat snd); [|done]. cbn [extend maxLat snd].
    destruct (xltb (maxLat acc) (Fin lat)); first [by right|by left].
  - apply (Hstep minLon fst); [|done]. cbn [extend minLon fst].
    destruct (xltb (Fin lon) (minLon acc)); first [by right|by left].
  - apply (Hstep maxLon fst); [|done]. cbn [extend maxLon fst].
    destruct (xltb (maxLon acc) (Fin lon)); first [by right|by left].
Qed.

(** The box of a segment that is not empty: finite, around every point of
    the segment with the buffer to spare, and no larger than that. *)
Lemma bboxOf_spec (segment : list Point) :
  segment ≠ [] →
  Forall (withinBox buffer (bboxOf segment)) segment ∧
  touchesBox buffer (bboxOf segment) segment.
Proof.
  intros Hne.
  pose proof (extent_attained segment (mkExtent PInf NInf PInf NInf)) as Hatt.
  simpl in Hatt.
  assert (∃ q, q ∈ segment) as [q Hq].
  { destruct segment as [|q ?]; [done|]. exists q. apply list_elem_of_here. }
  pose proof (extent_holds segment (mkExtent PInf NInf PInf NInf) q (or_intror Hq))
    as (Q1 & Q2 & Q3 & Q4).
  destruct Hatt as (H1 & H2 & H3 & H4).
  destruct H1 as [H1|(p1 & Hp1 & H1)]; [rewrite H1 in Q1; done|].
  destruct H2 as [H2|(p2 & Hp2 & H2)]; [rewrite H2 in Q2; done|].
  destruct H3 as [H3|(p3 & Hp3 & H3)]; [rewrite H3 in Q3; done|].
  destruct H4 as [H4|(p4 & Hp4 & H4)]; [rewrite H4 in Q4; done|].
  split.
  - apply Forall_forall. intros p Hp.
    pose proof (extent_holds segment (mkExtent PInf NInf PInf NInf) p (or_intror Hp))
      as (P1 & P2 & P3 & P4).
    rewrite H1 in P1. rewrite H2 in P2. rewrite H3 in P3. rewrite H4 in P4.
    simpl in P1, P2, P3, P4.
    apply ltb_ge in P1, P2, P3, P4.
    exists (p1.2 - buffer), (p2.2 + buffer), (p3.1 - buffer), (p4.1 + buffer).
    split.
    + unfold bboxOf. by rewrite H1, H2, H3, H4.
    + lra.
  - unfold touchesBox, bboxOf. rewrite H1, H2, H3, H4. simpl.
    repeat split; eauto.
Qed.

Lemma segments_nonempty (coords : list Point) (maxSegments k : nat) (chunk : list Point) :
  segments coords maxSegments !! k = Some chunk → chunk ≠ [].
Proof.
  intros H. apply segments_lookup in H as [-> Hk].
  rewrite slice_full. intros E.
  assert (length (take (S (segmentSize (length coords) maxSegments))
                       (drop (k * segmentSize (length coords) maxSegments) coords)) = 0%nat)
    as HL by by rewrite E.
  rewrite length_take, length_drop in HL. lia.
Qed.

Lemma segments_cover (coords : list Point) (maxSegments : nat) (p : Point) :
  p ∈ coords → ∃ chunk, chunk ∈ segments coords maxSegments ∧ p ∈ chunk.
Proof.
  intros Hp.
  assert (1 ≤ length coords)%nat as HL.
  { destruct coords; [by apply elem_of_nil in Hp|simpl; lia]. }
  pose proof (segments_reconstruct coords maxSegments HL) as E.
  rewrite <- E in Hp. apply elem_of_app in Hp as [Hp|Hp].
  - apply list_elem_of_In, in_concat in Hp as (c' & Hc' & Hp).
    apply in_map_iff in Hc' as (c & <- & Hc).
    exists c. split.
    + apply list_elem_of_In. clear -Hc.
      induction (segments coords maxSegments) as [|x l IH]; [done|].
      simpl in Hc. destruct l; [done|]. destruct Hc as [->|Hc]; [by left|].
      right. by apply IH.
    + apply list_elem_of_In. clear -Hp.
      induction c as [|x l IH]; [done|].
      simpl in Hp. destruct l; [done|]. destruct Hp as [->|Hp]; [by left|].
      right. by apply IH.
  - destruct (last (segments coords maxSegments)) as [c|] eqn:El;
      [|by apply elem_of_nil in Hp].
    exists c. split; [|done].
    apply last_Some in El as [l' ->]. apply elem_of_app. right.
    apply list_elem_of_here.
Qed.

(** X1. Every box of [computeSegmentBboxes] is finite and is the extent of
    its chunk grown by the buffer of 0.003 degree: each point of the chunk is
    inside the box, 0.003 degree or more from its sides, and each side is at
    0.003 degree exactly from a point of the chunk.  Every point of the
    polyline is inside one of the boxes, with the same margin. *)
Theorem computeSegmentBboxes_covers (coords : list Point) (maxSegments : nat) :
  (∀ k box, computeSegmentBboxes coords maxSegments !! k = Some box →
     ∃ chunk, segments coords maxSegments !! k = Some chunk ∧
              Forall (withinBox buffer box) chunk ∧ touchesBox buffer box chunk) ∧
  (∀ p, p ∈ coords →
     ∃ box, box ∈ computeSegmentBboxes coords maxSegments ∧ withinBox buffer box p).
Proof.
  split.
  - intros k box. rewrite computeSegmentBboxes_segments, list_lookup_fmap.
    destruct (segments coords maxSegments !! k) as [chunk|] eqn:E; [|done].
    simpl. intros [= <-]. exists chunk. split; [done|].
    apply bboxOf_spec. by eapply segments_nonempty.
  - intros p Hp. destruct (segments_cover coords maxSegments p Hp) as (chunk & Hc & Hin).
    exists (bboxOf chunk). split.
    + rewrite computeSegmentBboxes_segments. apply list_elem_of_fmap. by exists chunk.
    + apply list_elem_of_lookup in Hc as [k Hk].
      apply segments_nonempty in Hk.
      destruct (bboxOf_spec chunk Hk) as [Hall _].
      rewrite Forall_forall in Hall. by apply Hall.
Qed.

End Boxes.

(** ** Laws of the deduplicator and of the node table *)

Section DeduplicatorLaws.

Lemma uniqueElements_keepFirst (l : list Element) :
  uniqueElements l = keepFirst [] (List.filter (fun el => truthy (el_id el)) l).
Proof. unfold uniqueElements. by rewrite dedup_loop by constructor. Qed.

Lemma keepFirst_sublist (seen : list (EType * Z)) (l : list Element) :
  keepFirst seen l `sublist_of` l.
Proof.
  revert seen. induction l as [|x l IH]; intros seen; simpl; [done|].
  case_bool_decide; [apply sublist_cons|apply sublist_skip]; apply IH.
Qed.

Lemma filter_sublist {A : Type} (f : A → bool) (l : list A) :
  List.filter f l `sublist_of` l.
Proof.
  induction l as [|x l IH]; simpl; [done|].
  destruct (f x); [by apply sublist_skip|by apply sublist_cons].
Qed.

Lemma keepFirst_truthy (seen : list (EType * Z)) (l : list Element) (el : Element) :
  el ∈ keepFirst seen (List.filter (fun el => truthy (el_id el)) l) →
  truthy (el_id el) = true.
Proof.
  intros H. apply (sublist_subseteq _ _ (keepFirst_sublist _ _)) in H.
  by apply list_elem_of_In, filter_In in H as [_ H].
Qed.

(** Every identity met is seen already or kept. *)
Lemma keepFirst_complete (seen : list (EType * Z)) (l : list Element) (el : Element) :
  el ∈ l → identity el ∈ seen ∨ identity el ∈ identity <$> keepFirst seen l.
Proof.
  revert seen. induction l as [|x l IH]; intros seen H; [by apply elem_of_nil in H|].
  simpl. apply elem_of_cons in H as [->|H].
  - case_bool_decide as Hx; [by left|]. right. rewrite fmap_cons. apply list_elem_of_here.
  - case_bool_decide as Hx; [by apply IH|].
    destruct (IH (seen ++ [identity x]) H) as [[Hs|Hs]%elem_of_app|Hk].
    + by left.
    + apply list_elem_of_singleton in Hs. right. rewrite fmap_cons, Hs.
      apply list_elem_of_here.
    + right. rewrite fmap_cons. by apply list_elem_of_further.
Qed.

(** A list without a repeated identity and without an identity seen is kept
    whole. *)
Lemma keepFirst_id (seen : list (EType * Z)) (l : list Element) :
  NoDup (identity <$> l) → (∀ el, el ∈ l → identity el ∉ seen) →
  keepFirst seen l = l.
Proof.
  revert seen. induction l as [|x l IH]; intros seen Hnd Hfresh; simpl; [done|].
  rewrite fmap_cons in Hnd. apply NoDup_cons in Hnd as [Hx Hnd].
  rewrite bool_decide_eq_false_2 by (apply Hfresh, list_elem_of_here).
  f_equal. apply IH; [done|].
  intros el Hel [Hs|Hs]%elem_of_app.
  - by apply (Hfresh el); [apply list_elem_of_further|].
  - apply list_elem_of_singleton in Hs. apply Hx. rewrite <- Hs.
    apply list_elem_of_fmap. by exists el.
Qed.

(** What follows a list whose identities are all seen already or in that
    list adds nothing. *)
Lemma keepFirst_app (seen : list (EType * Z)) (l1 l2 : list Element) :
  keepFirst seen (l1 ++ l2) =
  keepFirst seen l1 ++ keepFirst (seen ++ (identity <$> keepFirst seen l1)) l2.
Proof.
  revert seen. induction l1 as [|x l1 IH]; intros seen; simpl.
  - by rewrite app_nil_r.
  - case_bool_decide as Hx; [apply IH|].
    simpl. f_equal. rewrite IH. by rewrite <- app_assoc.
Qed.

Lemma keepFirst_all_seen (seen : list (EType * Z)) (l : list Element) :
  (∀ el, el ∈ l → identity el ∈ seen) → keepFirst seen l = [].
Proof.
  induction l as [|x l IH]; intros H; simpl; [done|].
  rewrite bool_decide_eq_true_2 by (apply H, list_elem_of_here).
  apply IH. intros el Hel. by apply H, list_elem_of_further.
Qed.

Lemma filter_truthy_app (l1 l2 : list Element) :
  List.filter (fun el => truthy (el_id el)) (l1 ++ l2) =
  List.filter (fun el => truthy (el_id el)) l1 ++
  List.filter (fun el => truthy (el_id el)) l2.
Proof. apply List.filter_app. Qed.

Lemma uniqueElements_sublist (allElements : list Element) :
  uniqueElements allElements `sublist_of` allElements.
Proof.
  rewrite uniqueElements_keepFirst.
  etrans; [apply keepFirst_sublist|apply filter_sublist].
Qed.

(** X2. The features that [uniqueElements] keeps are features of the input,
    in the order of the input; every feature of the input whose id is not
    zero has its identity among them; none of them has the id zero; and
    deduplicating a second time changes nothing. *)
Theorem uniqueElements_laws (allElements : list Element) :
  uniqueElements allElements `sublist_of` allElements ∧
  (∀ el, el ∈ allElements → el_id el ≠ 0%Z →
         ∃ el', el' ∈ uniqueElements allElements ∧ identity el' = identity el) ∧
  (∀ el, el ∈ uniqueElements allElements → el_id el ≠ 0%Z) ∧
  uniqueElements (uniqueElements allElements) = uniqueElements allElements.
Proof.
  rewrite !uniqueElements_keepFirst.
  set (l := List.filter (fun el => truthy (el_id el)) allElements).
  assert (∀ el, el ∈ keepFirst [] l → truthy (el_id el) = true) as Ht.
  { intros el. apply keepFirst_truthy. }
  repeat split.
  - unfold l. rewrite <- uniqueElements_keepFirst. apply uniqueElements_sublist.
  - intros el Hel Hid.
    assert (el ∈ l) as Hl.
    { apply list_elem_of_In, filter_In. split; [by apply list_elem_of_In|].
      unfold truthy. apply negb_true_iff. by apply Z.eqb_neq. }
    destruct (keepFirst_complete [] l el Hl) as [H|H]; [by apply elem_of_nil in H|].
    apply list_elem_of_fmap in H as (el' & E & H). by exists el'.
  - intros el Hel. apply Ht in Hel. unfold truthy in Hel.
    apply negb_true_iff in Hel. by apply Z.eqb_neq.
  - assert (List.filter (fun el => truthy (el_id el)) (keepFirst [] l) = keepFirst [] l) as ->.
    { apply forallb_filter_id, forallb_forall. intros el Hel.
      by apply Ht, list_elem_of_In. }
    apply keepFirst_id; [apply keepFirst_NoDup|].
    intros el _. apply not_elem_of_nil.
Qed.

(** X3. Features that come again add nothing: when every feature of [more]
    whose id is not zero has the identity of a feature of [first],
    deduplicating [first ++ more] gives what deduplicating [first] gives. *)
Theorem uniqueElements_absorbs (first more : list Element) :
  (∀ el, el ∈ more → el_id el ≠ 0%Z →
         ∃ el', el' ∈ first ∧ identity el' = identity el) →
  uniqueElements (first ++ more) = uniqueElements first.
Proof.
  intros Hmore. rewrite !uniqueElements_keepFirst, filter_truthy_app, keepFirst_app.
  rewrite (keepFirst_all_seen _ (List.filter _ more)); [by rewrite app_nil_r|].
  intros el Hel. simpl.
  apply list_elem_of_In, filter_In in Hel as [Hel Ht].
  destruct (Hmore el) as (el' & Hel' & E).
  { by apply list_elem_of_In. }
  { unfold truthy in Ht. apply negb_true_iff in Ht. by apply Z.eqb_neq. }
  assert (el' ∈ List.filter (fun el => truthy (el_id el)) first) as Hf.
  { apply list_elem_of_In, filter_In. split; [by apply list_elem_of_In|].
    unfold identity in E. injection E as _ E. by rewrite E. }
  destruct (keepFirst_complete [] _ el' Hf) as [H|H]; [by apply elem_of_nil in H|].
  by rewrite <- E.
Qed.

End DeduplicatorLaws.

(** The theorem at a node followed by the same node and a node of id 0. *)
Lemma uniqueElements_absorbs_witness :
  uniqueElements ([aNode] ++ [aNode; zeroNode]) = uniqueElements [aNode].
Proof.
  apply uniqueElements_absorbs. intros el Hel Hid. exists aNode.
  split; [apply list_elem_of_here|].
  apply elem_of_cons in Hel as [->|Hel]; [reflexivity|].
  apply list_elem_of_singleton in Hel as ->. by destruct Hid.
Defined.

Section NodeTable.

Lemma nodePositions_snoc (l : list Element) (el : Element) :
  nodePositionsOf (l ++ [el]) = recordPosition (nodePositionsOf l) el.
Proof. unfold nodePositionsOf. by rewrite fold_left_app. Qed.

(** A position in the table comes from a node feature with coordinates. *)
Lemma nodePositions_sound (l : list Element) (id : Z) (pos : LatLon) :
  nodePositionsOf l !! id = Some pos →
  ∃ el, el ∈ l ∧ el_type el = node ∧ el_id el = id ∧
        el_lat el = Some (pos_lat pos) ∧ el_lon el = Some (pos_lon pos).
Proof.
  induction l as [|x l IH] using rev_ind.
  - unfold nodePositionsOf. simpl. by rewrite lookup_empty.
  - rewrite nodePositions_snoc. unfold recordPosition.
    assert (nodePositionsOf l !! id = Some pos →
            ∃ el, el ∈ l ++ [x] ∧ el_type el = node ∧ el_id el = id ∧
                  el_lat el = Some (pos_lat pos) ∧ el_lon el = Some (pos_lon pos)) as Hold.
    { intros H. destruct (IH H) as (el & Hel & Hrest). exists el.
      split; [|done]. apply elem_of_app. by left. }
    destruct (el_type x) eqn:Et; try done.
    destruct (el_lat x) as [lat|] eqn:Elat; try done.
    destruct (el_lon x) as [lon|] eqn:Elon; try done.
    destruct (decide (el_id x = id)) as [<-|Hne].
    + rewrite lookup_insert_eq. intros [= <-]. exists x. simpl.
      split; [|done]. apply elem_of_app. right. apply list_elem_of_here.
    + by rewrite lookup_insert_ne.
Qed.

(** With no identity repeated, the position of a node feature with
    coordinates is in the table under its id. *)
Lemma nodePositions_complete (l : list Element) (el : Element) (lat lon : R) :
  NoDup (identity <$> l) →
  el ∈ l → el_type el = node → el_lat el = Some lat → el_lon el = Some lon →
  nodePositionsOf l !! el_id el = Some (mkLatLon lat lon).
Proof.
  induction l as [|x l IH] using rev_ind; intros Hnd Hel Ht Hlat Hlon.
  - by apply elem_of_nil in Hel.
  - rewrite fmap_app in Hnd. apply NoDup_app in Hnd as (Hnd & Hx & _).
    rewrite nodePositions_snoc.
    apply elem_of_app in Hel as [Hel|Hel].
    + specialize (IH Hnd Hel Ht Hlat Hlon).
      unfold recordPosition.
      destruct (el_type x) eqn:Etx; try done.
      destruct (el_lat x); try done. destruct (el_lon x); try done.
      rewrite lookup_insert_ne; [done|].
      intros E. apply (Hx (identity el)).
      * apply list_elem_of_fmap. by exists el.
      * simpl. apply list_elem_of_singleton. unfold identity. congruence.
    + apply list_elem_of_singleton in Hel as ->.
      unfold recordPosition. rewrite Ht, Hlat, Hlon. by rewrite lookup_insert_eq.
Qed.

(** X4. The table of node positions built from the deduplicated features
    holds a position under an id exactly when a kept feature is a node with
    that id and these coordinates. *)
Theorem nodePositionsOf_lookup (allElements : list Element) (id : Z) (pos : LatLon) :
  nodePositionsOf (uniqueElements allElements) !! id = Some pos ↔
  ∃ el, el ∈ uniqueElements allElements ∧ el_type el = node ∧ el_id el = id ∧
        el_lat el = Some (pos_lat pos) ∧ el_lon el = Some (pos_lon pos).
Proof.
  split; [apply nodePositions_sound|].
  intros (el & Hel & Ht & <- & Hlat & Hlon).
  destruct pos as [lat lon]. simpl in *.
  apply nodePositions_complete; try done.
  rewrite uniqueElements_keepFirst. apply keepFirst_NoDup.
Qed.

End NodeTable.


(** ** Laws of the junction grouper *)

Section GroupTable.
Context {K V : Type} `{EqDecision K}.

Lemma om_get_Some (m : list (K * V)) (k : K) (v : V) :
  om_get m k = Some v → ∃ m1 m2, m = m1 ++ (k, v) :: m2 ∧ k ∉ m1.*1.
Proof.
  induction m as [|[k' v'] m IH]; simpl; [done|].
  destruct (decide (k = k')) as [->|Hne].
  - intros [= ->]. exists [], m. split; [done|]. apply not_elem_of_nil.
  - intros H. destruct (IH H) as (m1 & m2 & -> & Hk).
    exists ((k', v') :: m1), m2. split; [done|].
    rewrite fmap_cons. simpl. by apply not_elem_of_cons.
Qed.

Lemma om_set_present (m1 m2 : list (K * V)) (k : K) (v v' : V) :
  k ∉ m1.*1 → om_set (m1 ++ (k, v) :: m2) k v' = m1 ++ (k, v') :: m2.
Proof.
  induction m1 as [|[k1 v1] m1 IH]; simpl; intros Hk.
  - by rewrite decide_True.
  - apply not_elem_of_cons in Hk as [Hne Hk]. rewrite decide_False by done.
    by rewrite IH.
Qed.

Lemma om_get_app_fresh (m : list (K * V)) (k : K) (v : V) :
  om_get m k = None → om_get (m ++ [(k, v)]) k = Some v.
Proof.
  induction m as [|[k' v'] m IH]; simpl.
  - by rewrite decide_True.
  - destruct (decide (k = k')); [done|]. apply IH.
Qed.

End GroupTable.

Section Collect.
Variable wayToGroup : gmap Z nat.

(** A way goes to the end of the group of its key, and a key not met
    before opens a group at the end of the table. *)
Lemma collectWay_shape (groups : list (option nat * list Element)) (w0 : Element) :
  let gid := wayToGroup !! el_id w0 in
  (∃ g1 l g2, groups = g1 ++ (gid, l) :: g2 ∧ (gid ∉ g1.*1) ∧
              collectWay wayToGroup groups w0 = g1 ++ (gid, l ++ [w0]) :: g2) ∨
  ((gid ∉ groups.*1) ∧ collectWay wayToGroup groups w0 = groups ++ [(gid, [w0])]).
Proof.
  intros gid. unfold collectWay. fold gid. unfold om_has.
  destruct (om_get groups gid) as [l|] eqn:E.
  - left. destruct (om_get_Some _ _ _ E) as (g1 & g2 & -> & Hk).
    exists g1, l, g2. split; [done|]. split; [done|].
    rewrite E. simpl. by rewrite om_set_present.
  - right. split; [by apply om_get_None|].
    rewrite (om_set_fresh groups gid []) by done.
    rewrite om_get_app_fresh by done. simpl.
    pose proof (om_get_None groups gid) as [Hn _]. specialize (Hn E).
    replace (groups ++ [(gid, [])]) with (groups ++ (gid, []) :: []) by done.
    by rewrite om_set_present.
Qed.

(** What the second loop builds from the table [groups0]. *)
Lemma collect_fold (ways : list Element) (groups0 : list (option nat * list Element)) :
  let groups := fold_left (collectWay wayToGroup) ways groups0 in
  concat groups.*2 ≡ₚ concat groups0.*2 ++ ways ∧
  (NoDup groups0.*1 → NoDup groups.*1) ∧
  (Forall (fun g => g.2 ≠ []) groups0 → Forall (fun g => g.2 ≠ []) groups) ∧
  (∀ P : option nat → Element → Prop,
     (∀ w0, w0 ∈ ways → P (wayToGroup !! el_id w0) w0) →
     Forall (fun g => Forall (P g.1) g.2) groups0 →
     Forall (fun g => Forall (P g.1) g.2) groups).
Proof.
  revert groups0. induction ways as [|w0 ways IH]; intros groups0; simpl.
  { rewrite app_nil_r. done. }
  destruct (IH (collectWay wayToGroup groups0 w0)) as (H1 & H2 & H3 & H4).
  destruct (collectWay_shape groups0 w0) as
    [(g1 & l & g2 & E0 & Hk & E)|[Hk E]]; rewrite E in *; clear E.
  - subst groups0. repeat split.
    + rewrite H1. rewrite !fmap_app, !fmap_cons, !concat_app. simpl.
      rewrite <- !app_assoc. do 2 f_equiv. simpl. apply Permutation_middle.
    + intros Hnd. apply H2. by rewrite fmap_app, fmap_cons in *.
    + intros Hne. apply H3. rewrite Forall_app, Forall_cons in *.
      destruct Hne as (A & _ & C). repeat split; [done| |done]. simpl.
      by destruct l.
    + intros P HP HF. apply H4.
      * intros w1 Hw1. by apply HP, list_elem_of_further.
      * rewrite Forall_app, Forall_cons in *. destruct HF as (A & B & C).
        repeat split; [done| |done]. simpl in *. apply Forall_app. split; [done|].
        apply Forall_singleton. apply HP, list_elem_of_here.
  - repeat split.
    + rewrite H1. rewrite !fmap_app, !concat_app. simpl.
      by rewrite <- !app_assoc.
    + intros Hnd. apply H2. rewrite fmap_app. simpl. apply NoDup_app.
      repeat split; [done| |apply NoDup_singleton].
      intros k Hin Hk'. apply list_elem_of_singleton in Hk' as ->. done.
    + intros Hne. apply H3. apply Forall_app. split; [done|].
      by apply Forall_singleton.
    + intros P HP HF. apply H4.
      * intros w1 Hw1. by apply HP, list_elem_of_further.
      * apply Forall_app. split; [done|]. apply Forall_singleton. simpl.
        apply Forall_singleton. apply HP, list_elem_of_here.
Qed.

End Collect.

Section Assign.

Lemma groupingOf_snoc (done : list Element) (w0 : Element) :
  groupingOf (done ++ [w0]) = assignWay (groupingOf done) w0.
Proof. unfold groupingOf. by rewrite fold_left_app. Qed.

Lemma setNodes_lookup (nodes : list Z) (g : nat) (m : gmap Z nat) (x : Z) :
  setNodes nodes g m !! x = if bool_decide (x ∈ nodes) then Some g else m !! x.
Proof.
  unfold setNodes. revert m. induction nodes as [|n nodes IH]; intros m;
    cbn [fold_left].
  - rewrite bool_decide_eq_false_2; [done|apply not_elem_of_nil].
  - rewrite IH. destruct (decide (x ∈ nodes)) as [Hin|Hout].
    + rewrite !bool_decide_eq_true_2; [done|by apply list_elem_of_further|done].
    + rewrite (bool_decide_eq_false_2 (x ∈ nodes)) by done.
      destruct (decide (x = n)) as [->|Hne].
      * rewrite lookup_insert_eq.
        by rewrite bool_decide_eq_true_2 by apply list_elem_of_here.
      * rewrite lookup_insert_ne by done.
        rewrite bool_decide_eq_false_2; [done|].
        by intros [?|?]%elem_of_cons.
Qed.

Lemma existingGroupOf_Some (m : gmap Z nat) (nodes : list Z) (g : nat) :
  existingGroupOf m nodes = Some g → ∃ x, x ∈ nodes ∧ m !! x = Some g.
Proof.
  induction nodes as [|n nodes IH]; simpl; [done|].
  destruct (m !! n) as [g'|] eqn:E.
  - intros [= ->]. exists n. split; [apply list_elem_of_here|done].
  - intros H. destruct (IH H) as (x & Hx & Hm). exists x.
    split; [by apply list_elem_of_further|done].
Qed.

Lemma existingGroupOf_None (m : gmap Z nat) (nodes : list Z) :
  existingGroupOf m nodes = None ↔ ∀ x, x ∈ nodes → m !! x = None.
Proof.
  induction nodes as [|n nodes IH]; simpl.
  - split; [|done]. intros _ x Hx. by apply elem_of_nil in Hx.
  - destruct (m !! n) as [g'|] eqn:E.
    + split; [done|]. intros H. specialize (H n (list_elem_of_here _ _)). congruence.
    + rewrite IH. split.
      * intros H x [->|Hx]%elem_of_cons; [done|by apply H].
      * intros H x Hx. by apply H, list_elem_of_further.
Qed.

(** The fields of the state after one more way. *)
Lemma assignWay_fields (st : Grouping) (w0 : Element) :
  ∃ g, (existingGroupOf (nodeToGroup st) (el_nodes w0) = Some g ∧
        groupId (assignWay st w0) = groupId st
        ∨ existingGroupOf (nodeToGroup st) (el_nodes w0) = None ∧
          g = groupId st ∧ groupId (assignWay st w0) = S (groupId st)) ∧
       nodeToGroup (assignWay st w0) = setNodes (el_nodes w0) g (nodeToGroup st) ∧
       wayToGroup (assignWay st w0) = <[el_id w0 := g]> (wayToGroup st).
Proof.
  unfold assignWay.
  destruct (existingGroupOf (nodeToGroup st) (el_nodes w0)) as [g|] eqn:E.
  - exists g. simpl. split; [by left|done].
  - exists (groupId st). simpl. split; [by right|done].
Qed.

(** Every group number in use is below the counter, and every way met has
    one. *)
Lemma groupingOf_numbers (ways : list Element) :
  let st := groupingOf ways in
  (∀ x g, nodeToGroup st !! x = Some g → (g < groupId st)%nat) ∧
  (∀ w0, w0 ∈ ways → ∃ g, wayToGroup st !! el_id w0 = Some g ∧ (g < groupId st)%nat).
Proof.
  induction ways as [|w0 ways IH] using rev_ind.
  { split; [intros x g; unfold groupingOf; simpl; by rewrite lookup_empty|].
    intros w0 H. by apply elem_of_nil in H. }
  simpl in IH. destruct IH as [IHn IHw]. rewrite groupingOf_snoc. simpl.
  destruct (assignWay_fields (groupingOf ways) w0) as (g & Hg & -> & ->).
  assert ((g < groupId (assignWay (groupingOf ways) w0))%nat ∧
          (groupId (groupingOf ways) ≤ groupId (assignWay (groupingOf ways) w0))%nat)
    as [Hlt Hle].
  { destruct Hg as [[E ->]|(E & -> & ->)]; [|lia].
    apply existingGroupOf_Some in E as (x & _ & Hx). apply IHn in Hx. lia. }
  split.
  - intros x g'. rewrite setNodes_lookup. case_bool_decide.
    + by intros [= <-].
    + intros Hx. apply IHn in Hx. lia.
  - intros w1 [Hw1|Hw1]%elem_of_app;
      [|apply list_elem_of_singleton in Hw1 as ->].
    + destruct (decide (el_id w1 = el_id w0)) as [->|Hne].
      * exists g. by rewrite lookup_insert_eq.
      * rewrite lookup_insert_ne by done.
        destruct (IHw w1 Hw1) as (g' & E & Hg'). exists g'. split; [done|lia].
    + exists g. by rewrite lookup_insert_eq.
Qed.

End Assign.

Section Chains.

Lemma sharesNode_sym (a b : Element) : sharesNode a b → sharesNode b a.
Proof. intros (x & Ha & Hb). by exists x. Qed.

Lemma chained_mono (l l' : list Element) (a b : Element) :
  l ⊆ l' → chained l a b → chained l' a b.
Proof.
  intros Hsub H. induction H as [a Ha|a b c Ha Hb Hs _ IH].
  - apply chained_refl. by apply Hsub.
  - eapply chained_step; [by apply Hsub|by apply Hsub|done|done].
Qed.

Lemma chained_trans (l : list Element) (a b c : Element) :
  chained l a b → chained l b c → chained l a c.
Proof.
  intros H. revert c. induction H as [a Ha|a m b Ha Hm Hs Hmb IH]; intros c Hc.
  - exact Hc.
  - apply (chained_step l a m c); [done|done|done|by apply IH].
Qed.

Lemma chained_sym (l : list Element) (a b : Element) :
  chained l a b → chained l b a.
Proof.
  intros H. induction H as [a Ha|a b c Ha Hb Hs _ IH]; [by apply chained_refl|].
  eapply chained_trans; [exact IH|].
  apply (chained_step l b a a);
    [done|done|by apply sharesNode_sym|by apply chained_refl].
Qed.

(** With distinct way ids: a node of a group is a node of a way of that
    group, and two ways of one group are chained. *)
Lemma groupingOf_chained (ways : list Element) :
  NoDup (el_id <$> ways) →
  let st := groupingOf ways in
  (∀ x g, nodeToGroup st !! x = Some g →
     ∃ w0, w0 ∈ ways ∧ x ∈ el_nodes w0 ∧ wayToGroup st !! el_id w0 = Some g) ∧
  (∀ a b g, a ∈ ways → b ∈ ways →
     wayToGroup st !! el_id a = Some g → wayToGroup st !! el_id b = Some g →
     chained ways a b).
Proof.
  induction ways as [|w0 ways IH] using rev_ind; intros Hnd.
  { split; [intros x g; unfold groupingOf; simpl; by rewrite lookup_empty|].
    intros a b g H. by apply elem_of_nil in H. }
  rewrite fmap_app in Hnd. apply NoDup_app in Hnd as (Hnd & Hfresh & _).
  assert (∀ w1, w1 ∈ ways → el_id w0 ≠ el_id w1) as Hne.
  { intros w1 Hw1 E. apply (Hfresh (el_id w1)).
    - apply list_elem_of_fmap. by exists w1.
    - rewrite <- E. apply list_elem_of_here. }
  specialize (IH Hnd). simpl in IH. destruct IH as [IHn IHc].
  destruct (groupingOf_numbers ways) as [Nn Nw]. simpl in Nn, Nw.
  rewrite groupingOf_snoc. simpl.
  destruct (assignWay_fields (groupingOf ways) w0) as (g & Hg & -> & ->).
  assert (w0 ∈ ways ++ [w0]) as Hlast.
  { apply elem_of_app. right. apply list_elem_of_here. }
  assert (ways ⊆ ways ++ [w0]) as Hsub.
  { intros w1 Hw1. apply elem_of_app. by left. }
  (* The ways met before that are in the group of [w0] are chained to it. *)
  assert (∀ b, b ∈ ways → wayToGroup (groupingOf ways) !! el_id b = Some g →
               chained (ways ++ [w0]) w0 b) as Hjoin.
  { intros b Hb Eb. destruct Hg as [[E _]|(_ & -> & _)].
    - apply existingGroupOf_Some in E as (x & Hx & Hm).
      destruct (IHn x g Hm) as (w1 & Hw1 & Hxw1 & Ew1).
      apply (chained_step _ w0 w1 b); [done|by apply Hsub|by exists x|].
      eapply chained_mono; [exact Hsub|]. by eapply IHc.
    - destruct (Nw b Hb) as (g' & Eg' & Hlt). rewrite Eb in Eg'.
      injection Eg' as <-. lia. }
  split.
  - intros x g'. rewrite setNodes_lookup. case_bool_decide as Hx.
    + intros [= <-]. exists w0. split; [done|]. split; [done|].
      by rewrite lookup_insert_eq.
    + intros Hm. destruct (IHn x g' Hm) as (w1 & Hw1 & Hxw1 & Ew1).
      exists w1. split; [by apply Hsub|]. split; [done|].
      rewrite lookup_insert_ne; [done|]. by apply Hne.
  - intros a b g' [Ha|Ha]%elem_of_app [Hb|Hb]%elem_of_app;
      try apply list_elem_of_singleton in Ha as ->;
      try apply list_elem_of_singleton in Hb as ->.
    + rewrite !lookup_insert_ne by by apply Hne.
      intros Ea Eb. eapply chained_mono; [exact Hsub|]. by eapply IHc.
    + rewrite lookup_insert_eq. rewrite lookup_insert_ne by by apply Hne.
      intros Ea [= <-]. apply chained_sym. by apply Hjoin.
    + rewrite lookup_insert_eq. rewrite lookup_insert_ne by by apply Hne.
      intros [= <-] Eb. by apply Hjoin.
    + intros _ _. by apply chained_refl.
Qed.

End Chains.

Section GrouperLaws.

Lemma nonempty_groups_length {A B : Type} (groups : list (A * list B)) :
  Forall (fun g => g.2 ≠ []) groups → (length groups ≤ length (concat groups.*2))%nat.
Proof.
  induction groups as [|[k l] groups IH]; intros H; [done|].
  apply Forall_cons in H as [Hne H]. specialize (IH H).
  rewrite fmap_cons. cbn [concat snd]. rewrite length_app.
  destruct l; [done|]. cbn [length]. lia.
Qed.

(** The groups split the roundabout ways of the input. *)
Lemma groups_partition (elements : list Element) :
  let roundaboutWays := List.filter isRoundaboutWay elements in
  let groups := deduplicateRoundabouts elements in
  concat (om_values groups) ≡ₚ roundaboutWays ∧
  Forall (fun g => g.2 ≠ []) groups ∧
  NoDup groups.*1 ∧
  Forall (fun g => is_Some g.1) groups ∧
  (length groups ≤ length roundaboutWays)%nat.
Proof.
  intros ways groups. unfold groups, deduplicateRoundabouts. fold ways.
  set (wtg := wayToGroup (groupingOf ways)).
  destruct (collect_fold wtg ways []) as (H1 & H2 & H3 & H4). simpl in *.
  specialize (H2 (NoDup_nil_2)). specialize (H3 (Forall_nil_2 _)).
  assert (Forall (fun g : option nat * list Element => is_Some g.1)
            (fold_left (collectWay wtg) ways [])) as Hkeys.
  { specialize (H4 (fun k _ => is_Some k)). simpl in H4.
    assert (Forall (fun g : option nat * list Element =>
                      Forall (fun _ : Element => is_Some g.1) g.2)
              (fold_left (collectWay wtg) ways [])) as HA.
    { apply H4; [|done]. intros w0 Hw0.
      destruct (groupingOf_numbers ways) as [_ Nw].
      destruct (Nw w0 Hw0) as (g & E & _). unfold wtg. by rewrite E. }
    rewrite Forall_forall in *. intros g Hg.
    specialize (H3 g Hg). specialize (HA g Hg).
    destruct g as [k [|w1 l]]; [done|]. simpl in *.
    by apply Forall_cons in HA as [? _]. }
  repeat split; try done.
  apply Permutation_length in H1. rewrite <- H1.
  by apply nonempty_groups_length.
Qed.

(** X5. The groups of [deduplicateRoundabouts] split the roundabout ways
    of the input: the ways of all the groups together are these ways, each
    as many times as the input has it; no group is empty; the groups have
    distinct numbers; and there are at most as many groups as ways. *)
Theorem deduplicateRoundabouts_partition (elements : list Element) :
  let roundaboutWays := List.filter isRoundaboutWay elements in
  let groups := deduplicateRoundabouts elements in
  concat (om_values groups) ≡ₚ roundaboutWays ∧
  Forall (fun g => g.2 ≠ []) groups ∧
  NoDup groups.*1 ∧
  Forall (fun g => is_Some g.1) groups ∧
  (length groups ≤ length roundaboutWays)%nat.
Proof. apply groups_partition. Qed.

(** X6. With distinct way ids, two ways that [deduplicateRoundabouts] puts
    in one group are linked by a chain of roundabout ways of the input in
    which each way shares a node with the next: a group never joins ways
    that are not connected. *)
Theorem deduplicateRoundabouts_groups_chained (elements : list Element)
    (a b : Element) :
  let roundaboutWays := List.filter isRoundaboutWay elements in
  NoDup (el_id <$> roundaboutWays) →
  sameGroup (deduplicateRoundabouts elements) a b →
  chained roundaboutWays a b.
Proof.
  intros ways Hnd ([k l] & Hg & Ha & Hb). simpl in *.
  unfold deduplicateRoundabouts in Hg. fold ways in Hg.
  set (wtg := wayToGroup (groupingOf ways)) in *.
  destruct (collect_fold wtg ways []) as (_ & _ & _ & H4). simpl in H4.
  specialize (H4 (fun k w0 => w0 ∈ ways ∧ wtg !! el_id w0 = k)). simpl in H4.
  assert (Forall (fun g : option nat * list Element =>
                    Forall (fun w0 => w0 ∈ ways ∧ wtg !! el_id w0 = g.1) g.2)
            (fold_left (collectWay wtg) ways [])) as HA.
  { apply H4; [|done]. intros w0 Hw0. by split. }
  clear H4. rewrite Forall_forall in HA. specialize (HA _ Hg). simpl in HA.
  rewrite Forall_forall in HA. rename HA into H4.
  destruct (H4 a Ha) as [Haw Hak]. destruct (H4 b Hb) as [Hbw Hbk].
  destruct (groupingOf_numbers ways) as [_ Nw].
  destruct (Nw a Haw) as (g & Eg & _). fold wtg in Eg.
  destruct (groupingOf_chained ways Hnd) as [_ Hc].
  apply (Hc a b g); try done. fold wtg. congruence.
Qed.

End GrouperLaws.

(** The theorem at the ways A, C, B, which make one group. *)
Lemma deduplicateRoundabouts_groups_chained_witness :
  chained (List.filter isRoundaboutWay [wayA; wayC; wayB]) wayA wayB.
Proof.
  apply (deduplicateRoundabouts_groups_chained [wayA; wayC; wayB] wayA wayB).
  - apply (bool_decide_unpack (NoDup _)). vm_compute. exact I.
  - rewrite groups_A_C_B. eexists. split; [apply list_elem_of_here|].
    simpl. split; [apply list_elem_of_here|].
    apply list_elem_of_further, list_elem_of_further, list_elem_of_here.
Defined.

Section SeparateAndTouching.

(** Every node of a way met is recorded. *)
Lemma groupingOf_nodes_recorded (ways : list Element) (w0 : Element) (x : Z) :
  w0 ∈ ways → x ∈ el_nodes w0 → is_Some (nodeToGroup (groupingOf ways) !! x).
Proof.
  induction ways as [|w1 ways IH] using rev_ind; intros Hw Hx.
  { by apply elem_of_nil in Hw. }
  rewrite groupingOf_snoc.
  destruct (assignWay_fields (groupingOf ways) w1) as (g & _ & -> & _).
  rewrite setNodes_lookup. case_bool_decide as Hin; [done|].
  apply elem_of_app in Hw as [Hw|Hw]; [by apply IH|].
  by apply list_elem_of_singleton in Hw as ->.
Qed.

(** Keys that are all new open one group each, in order. *)
Lemma collect_new_keys (wayToGroup : gmap Z nat) (l : list Element)
    (groups0 : list (option nat * list Element)) (n : nat) :
  (∀ k, k ∈ groups0.*1 → ∃ j, k = Some j ∧ (j < n)%nat) →
  (∀ i w0, l !! i = Some w0 → wayToGroup !! el_id w0 = Some (n + i)%nat) →
  fold_left (collectWay wayToGroup) l groups0 =
  groups0 ++ imap (fun i w0 => (Some (n + i)%nat, [w0])) l.
Proof.
  revert groups0 n. induction l as [|w0 l IH]; intros groups0 n Hkeys Hl; simpl.
  { by rewrite app_nil_r. }
  pose proof (Hl 0%nat w0 eq_refl) as E0. rewrite Nat.add_0_r in E0.
  destruct (collectWay_shape wayToGroup groups0 w0) as
    [(g1 & l0 & g2 & -> & _ & _)|[_ ->]].
  { destruct (Hkeys (wayToGroup !! el_id w0)) as (j & Ej & Hj).
    - rewrite fmap_app, fmap_cons. apply elem_of_app. right. apply list_elem_of_here.
    - rewrite E0 in Ej. injection Ej as <-. lia. }
  rewrite (IH _ (S n)).
  - rewrite <- app_assoc. simpl. rewrite E0, Nat.add_0_r. do 2 f_equal.
    apply imap_ext. intros i w1 _. simpl. do 2 f_equal. lia.
  - intros k. rewrite fmap_app. intros [Hk|Hk]%elem_of_app.
    + destruct (Hkeys k Hk) as (j & -> & Hj). exists j. split; [done|lia].
    + simpl in Hk. apply list_elem_of_singleton in Hk as ->. exists n.
      split; [done|lia].
  - intros i w1 Hi. rewrite (Hl (S i) w1 Hi). f_equal. lia.
Qed.

(** One key for all the ways makes one group of them all. *)
Lemma collect_one_key (wayToGroup : gmap Z nat) (l l0 : list Element) :
  (∀ w0, w0 ∈ l → wayToGroup !! el_id w0 = Some 0%nat) →
  fold_left (collectWay wayToGroup) l [(Some 0%nat, l0)] = [(Some 0%nat, l0 ++ l)].
Proof.
  revert l0. induction l as [|w0 l IH]; intros l0 H; simpl.
  { by rewrite app_nil_r. }
  assert (collectWay wayToGroup [(Some 0%nat, l0)] w0 = [(Some 0%nat, l0 ++ [w0])]) as ->.
  { unfold collectWay. rewrite (H w0) by apply list_elem_of_here. reflexivity. }
  rewrite IH.
  - by rewrite <- app_assoc.
  - intros w1 Hw1. by apply H, list_elem_of_further.
Qed.

(** Ways that share no node get the numbers 0, 1, 2, ... in order. *)
Lemma groupingOf_separate (ways : list Element) :
  NoDup (el_id <$> ways) →
  (∀ a b, a ∈ ways → b ∈ ways → sharesNode a b → a = b) →
  groupId (groupingOf ways) = length ways ∧
  ∀ i w0, ways !! i = Some w0 → wayToGroup (groupingOf ways) !! el_id w0 = Some i.
Proof.
  induction ways as [|w0 ways IH] using rev_ind; intros Hnd Hsep.
  { split; [done|]. intros i w0 H. by rewrite lookup_nil in H. }
  pose proof Hnd as Hnd'. rewrite fmap_app in Hnd'.
  apply NoDup_app in Hnd' as (Hnd' & Hfresh & _).
  assert (∀ w1, w1 ∈ ways → el_id w0 ≠ el_id w1) as Hne.
  { intros w1 Hw1 E. apply (Hfresh (el_id w1)).
    - apply list_elem_of_fmap. by exists w1.
    - rewrite <- E. apply list_elem_of_here. }
  destruct IH as [IHg IHw]; [done| |].
  { intros a b Ha Hb. apply Hsep; apply elem_of_app; by left. }
  destruct (groupingOf_chained ways Hnd') as [Hn _]. simpl in Hn.
  rewrite groupingOf_snoc.
  destruct (assignWay_fields (groupingOf ways) w0) as (g & Hg & _ & ->).
  destruct Hg as [[E _]|(_ & -> & ->)].
  { exfalso. apply existingGroupOf_Some in E as (x & Hx & Hm).
    destruct (Hn x g Hm) as (w1 & Hw1 & Hxw1 & _).
    assert (w1 = w0) as ->.
    { apply Hsep; [apply elem_of_app; by left| |by exists x].
      apply elem_of_app. right. apply list_elem_of_here. }
    by apply (Hne w0). }
  split; [rewrite length_app; simpl; lia|].
  intros i w1 Hi. apply lookup_app_Some in Hi as [Hi|[Hlen Hi]].
  - rewrite lookup_insert_ne; [by apply IHw|].
    apply Hne. by eapply list_elem_of_lookup_2.
  - destruct (i - length ways)%nat as [|m] eqn:Em; [|done].
    injection Hi as <-. rewrite lookup_insert_eq, IHg. f_equal. lia.
Qed.

(** When every way but the first shares a node with a way before it, the
    counter stops at one and every way has the number 0. *)
Lemma groupingOf_touching (ways : list Element) :
  ways ≠ [] →
  (∀ i w0, ways !! S i = Some w0 →
     ∃ j w1, (j ≤ i)%nat ∧ ways !! j = Some w1 ∧ sharesNode w1 w0) →
  groupId (groupingOf ways) = 1%nat ∧
  ∀ w0, w0 ∈ ways → wayToGroup (groupingOf ways) !! el_id w0 = Some 0%nat.
Proof.
  induction ways as [|w0 ways IH] using rev_ind; intros Hne Htouch; [done|].
  rewrite groupingOf_snoc.
  destruct (assignWay_fields (groupingOf ways) w0) as (g & Hg & _ & ->).
  destruct ways as [|w' ways'] eqn:Eways.
  { destruct Hg as [[E _]|(_ & -> & ->)].
    - apply existingGroupOf_Some in E as (x & _ & Hm).
      unfold groupingOf in Hm. simpl in Hm. by rewrite lookup_empty in Hm.
    - split; [done|]. intros w1 Hw1. apply list_elem_of_singleton in Hw1 as ->.
      by rewrite lookup_insert_eq. }
  rewrite <- Eways in *.
  destruct IH as [IHg IHw].
  { by rewrite Eways. }
  { intros i w1 Hi. destruct (Htouch i w1) as (j & w2 & Hj & Ew2 & Hs).
    - by apply lookup_app_l_Some.
    - exists j, w2. split; [done|]. split; [|done].
      rewrite lookup_app_l in Ew2; [done|].
      apply lookup_lt_Some in Hi. lia. }
  assert (g = 0%nat ∧ groupId (assignWay (groupingOf ways) w0) = 1%nat) as [-> ->].
  { assert (length ways = S (length ways')) as Hlen by by rewrite Eways.
    destruct (Htouch (length ways') w0) as (j & w1 & Hj & Ew1 & (x & Hx1 & Hx0)).
    { rewrite <- Hlen. by rewrite list_lookup_middle. }
    rewrite lookup_app_l in Ew1 by lia.
    apply list_elem_of_lookup_2 in Ew1.
    pose proof (groupingOf_nodes_recorded ways w1 x Ew1 Hx1) as [g' Hg'].
    destruct (groupingOf_numbers ways) as [Nn _]. simpl in Nn.
    destruct Hg as [[E ->]|(E & _ & _)].
    - apply existingGroupOf_Some in E as (y & _ & Hm). apply Nn in Hm.
      split; [lia|done].
    - pose proof (proj1 (existingGroupOf_None _ _) E x Hx0). congruence. }
  split; [done|].
  intros w1 [Hw1|Hw1]%elem_of_app.
  - destruct (decide (el_id w0 = el_id w1)) as [->|Hd].
    + by rewrite lookup_insert_eq.
    + rewrite lookup_insert_ne by done. by apply IHw.
  - apply list_elem_of_singleton in Hw1 as ->. by rewrite lookup_insert_eq.
Qed.

(** X7. With distinct way ids, roundabout ways of which no two share a node
    are each a group of their own: the groups are the ways one by one, in
    the order of the input, numbered from 0. *)
Theorem deduplicateRoundabouts_separate_ways (elements : list Element) :
  let roundaboutWays := List.filter isRoundaboutWay elements in
  NoDup (el_id <$> roundaboutWays) →
  (∀ a b, a ∈ roundaboutWays → b ∈ roundaboutWays → sharesNode a b → a = b) →
  deduplicateRoundabouts elements = imap (fun i w0 => (Some i, [w0])) roundaboutWays.
Proof.
  intros ways Hnd Hsep. unfold deduplicateRoundabouts. fold ways.
  destruct (groupingOf_separate ways Hnd Hsep) as [_ Hw].
  rewrite (collect_new_keys _ ways [] 0%nat); [done| |done].
  intros k Hk. by apply elem_of_nil in Hk.
Qed.

(** X8. When every roundabout way but the first shares a node with a
    roundabout way that comes before it in the input, all the ways form one
    group, numbered 0, in the order of the input. *)
Theorem deduplicateRoundabouts_touching_ways (elements : list Element) :
  let roundaboutWays := List.filter isRoundaboutWay elements in
  roundaboutWays ≠ [] →
  (∀ i w0, roundaboutWays !! S i = Some w0 →
     ∃ j w1, (j ≤ i)%nat ∧ roundaboutWays !! j = Some w1 ∧ sharesNode w1 w0) →
  deduplicateRoundabouts elements = [(Some 0%nat, roundaboutWays)].
Proof.
  intros ways Hne Htouch. unfold deduplicateRoundabouts. fold ways.
  destruct (groupingOf_touching ways Hne Htouch) as [_ Hw].
  destruct ways as [|w0 ways'] eqn:E; [done|]. cbn [fold_left].
  assert (collectWay (wayToGroup (groupingOf (w0 :: ways'))) [] w0
          = [(Some 0%nat, [w0])]) as ->.
  { unfold collectWay. rewrite (Hw w0) by apply list_elem_of_here. reflexivity. }
  rewrite collect_one_key; [done|].
  intros w1 Hw1. by apply Hw, list_elem_of_further.
Qed.

End SeparateAndTouching.

(** The theorem at the ways A and B, which share no node. *)
Lemma deduplicateRoundabouts_separate_ways_witness :
  deduplicateRoundabouts [wayA; wayB] =
  imap (fun i w0 => (Some i, [w0])) (List.filter isRoundaboutWay [wayA; wayB]).
Proof.
  assert (List.filter isRoundaboutWay [wayA; wayB] = [wayA; wayB]) as E
    by (vm_compute; reflexivity).
  apply (deduplicateRoundabouts_separate_ways [wayA; wayB]).
  - apply (bool_decide_unpack (NoDup _)). vm_compute. exact I.
  - rewrite E. intros a b Ha Hb (x & Hxa & Hxb).
    apply elem_of_cons in Ha as [->|Ha]; [|apply list_elem_of_singleton in Ha as ->];
      (apply elem_of_cons in Hb as [->|Hb]; [|apply list_elem_of_singleton in Hb as ->]);
      try reflexivity;
      apply list_elem_of_In in Hxa, Hxb; simpl in Hxa, Hxb; lia.
Defined.

(** The theorem at the ways A, C, B: C touches A, and B touches C. *)
Lemma deduplicateRoundabouts_touching_ways_witness :
  deduplicateRoundabouts [wayA; wayC; wayB] =
  [(Some 0%nat, List.filter isRoundaboutWay [wayA; wayC; wayB])].
Proof.
  assert (List.filter isRoundaboutWay [wayA; wayC; wayB] = [wayA; wayC; wayB]) as E
    by (vm_compute; reflexivity).
  apply (deduplicateRoundabouts_touching_ways [wayA; wayC; wayB]).
  - by rewrite E.
  - rewrite E. intros [|[|i]] w0 Hw0; simpl in Hw0; [| |discriminate Hw0].
    + injection Hw0 as <-. exists 0%nat, wayA. split; [lia|]. split; [reflexivity|].
      exists 2%Z. split; [apply list_elem_of_further|]; apply list_elem_of_here.
    + injection Hw0 as <-. exists 1%nat, wayC. split; [lia|]. split; [reflexivity|].
      exists 3%Z. split; [apply list_elem_of_further|]; apply list_elem_of_here.
Defined.


(** ** Laws of the geometry utilities *)

Section SphereLaws.






(** The angle of the point [(cos t, sin t)] of the first quadrant is [t]. *)
Lemma atan2_sin_cos (t : R) : 0 <= t <= PI / 2 → atan2 (sin t) (cos t) = t.
Proof.
  intros [H0 H1]. pose proof PI_RGT_0 as Hpi. unfold atan2.
  destruct (Rlt_dec t (PI / 2)) as [Hlt|Hge].
  - pose proof (cos_gt_0 t ltac:(lra) Hlt) as Hc.
    assert (ltb 0 (cos t) = true) as -> by by apply ltb_lt.
    fold (tan t). apply atan_tan. lra.
  - assert (t = PI / 2) as -> by lra. rewrite cos_PI2, sin_PI2.
    assert (ltb 0 0 = false) as -> by (apply ltb_ge; lra).
    by assert (ltb 0 1 = true) as -> by (apply ltb_lt; lra).
Qed.

(** When [a] is the square of the sine of an angle [t] of the first
    quadrant, the distance is the arc of angle [2 t]. *)
Lemma haversineMeters_arc (lat1 lon1 lat2 lon2 t : R) :
  0 <= t <= PI / 2 → haversineA lat1 lon1 lat2 lon2 = sin t ^ 2 →
  haversineMeters lat1 lon1 lat2 lon2 = 6371000 * 2 * t.
Proof.
  intros Ht Ha. pose proof PI_RGT_0 as Hpi. rewrite haversineMeters_A, Ha.
  pose proof (sin_ge_0 t ltac:(lra) ltac:(lra)) as Hs.
  pose proof (cos_ge_0 t ltac:(lra) ltac:(lra)) as Hc.
  replace (sin t ^ 2) with (sin t * sin t) by (simpl; lra).
  replace (1 - sin t * sin t) with (cos t * cos t)
    by (pose proof (sin2_cos2 t) as E; unfold Rsqr in E; lra).
  rewrite !sqrt_square by done. by rewrite atan2_sin_cos.
Qed.

Lemma sin_sqr_abs (x : R) : sin (Rabs x) ^ 2 = sin x ^ 2.
Proof.
  unfold Rabs. destruct (Rcase_abs x); [|done]. rewrite sin_neg. simpl. lra.
Qed.


(** X10. Along a meridian, and along the equator, [haversineMeters] is the
    length of the arc: the radius times the difference of the latitudes
    (of the longitudes) in radians, for a difference of 180 degrees at
    most. *)
Theorem haversineMeters_meridian_equator (lat1 lat2 lon1 lon2 : R) :
  (Rabs (lat2 - lat1) <= 180 →
   haversineMeters lat1 lon1 lat2 lon1 = 6371000 * toRad (Rabs (lat2 - lat1))) ∧
  (Rabs (lon2 - lon1) <= 180 →
   haversineMeters 0 lon1 0 lon2 = 6371000 * toRad (Rabs (lon2 - lon1))).
Proof.
  pose proof PI_RGT_0 as Hpi. split; intros Hd.
  - rewrite (haversineMeters_arc _ _ _ _ (toRad (Rabs (lat2 - lat1)) / 2)).
    + lra.
    + pose proof (Rabs_pos (lat2 - lat1)). unfold toRad. split; nra.
    + unfold haversineA.
      replace (toRad (lon1 - lon1) / 2) with 0 by (unfold toRad; lra).
      rewrite sin_0.
      replace (toRad (Rabs (lat2 - lat1)) / 2) with (Rabs (toRad (lat2 - lat1) / 2)).
      * rewrite sin_sqr_abs. ring.
      * unfold toRad. split_real_cases; nra.
  - rewrite (haversineMeters_arc _ _ _ _ (toRad (Rabs (lon2 - lon1)) / 2)).
    + lra.
    + pose proof (Rabs_pos (lon2 - lon1)). unfold toRad. split; nra.
    + unfold haversineA.
      replace (toRad (0 - 0) / 2) with 0 by (unfold toRad; lra).
      replace (toRad 0) with 0 by (unfold toRad; lra).
      rewrite sin_0, cos_0.
      replace (toRad (Rabs (lon2 - lon1)) / 2) with (Rabs (toRad (lon2 - lon1) / 2)).
      * rewrite sin_sqr_abs. ring.
      * unfold toRad. split_real_cases; nra.
Qed.

End SphereLaws.


(** The theorem at one degree of latitude. *)
Lemma haversineMeters_meridian_equator_witness :
  haversineMeters 0 0 1 0 = 6371000 * toRad (Rabs (1 - 0)).
Proof.
  apply (proj1 (haversineMeters_meridian_equator 0 1 0 0)).
  unfold Rabs. destruct (Rcase_abs (1 - 0)); lra.
Defined.

Section SegmentLaws.

Lemma hypot_le (x1 y1 x2 y2 : R) :
  x1 * x1 + y1 * y1 <= x2 * x2 + y2 * y2 → hypot x1 y1 <= hypot x2 y2.
Proof. intros H. unfold hypot. by apply sqrt_le_1_alt. Qed.

(** X11. [distToSegment] is the least distance from the point to the
    points of the segment: it is the distance to one of them, and no point
    of the segment is nearer. *)
Theorem distToSegment_least (px py ax ay bx b_y : R) :
  (∃ t, 0 <= t <= 1 ∧
        distToSegment px py ax ay bx b_y =
        hypot (px - (ax + t * (bx - ax))) (py - (ay + t * (b_y - ay)))) ∧
  (∀ t, 0 <= t <= 1 →
        distToSegment px py ax ay bx b_y <=
        hypot (px - (ax + t * (bx - ax))) (py - (ay + t * (b_y - ay)))).
Proof.
  split; [apply distToSegment_foot|].
  intros t Ht. unfold distToSegment.
  set (dx := bx - ax). set (dy := b_y - ay).
  destruct (Req_dec_T (dx * dx + dy * dy) 0) as [E|Hne].
  - assert (eqb (dx * dx + dy * dy) 0 = true) as -> by by apply eqb_eq.
    assert (dx = 0 ∧ dy = 0) as [-> ->].
    { split; nra. }
    apply hypot_le. nra.
  - assert (eqb (dx * dx + dy * dy) 0 = false) as -> by by apply eqb_neq.
    set (L := dx * dx + dy * dy) in *.
    assert (0 < L) as HL by (unfold L in *; nra).
    set (s := ((px - ax) * dx + (py - ay) * dy) / L).
    assert (s * L = (px - ax) * dx + (py - ay) * dy) as Hs.
    { unfold s. field. lra. }
    set (tc := Rmax 0 (Rmin 1 s)).
    assert (0 <= (t - tc) * (t + tc - 2 * s)) as Hmin.
    { unfold tc, Rmax, Rmin.
      destruct (Rle_dec 1 s) as [H1|H1]; destruct (Rle_dec 0 _) as [H0|H0]; try lra.
      - replace ((t - 1) * (t + 1 - 2 * s)) with ((1 - t) * (2 * s - 1 - t)) by ring.
        apply Rmult_le_pos; lra.
      - replace ((t - s) * (t + s - 2 * s)) with ((t - s) * (t - s)) by ring.
        apply Rle_0_sqr.
      - apply Rmult_le_pos; lra. }
    apply hypot_le.
    assert ((px - (ax + t * dx)) * (px - (ax + t * dx)) +
            (py - (ay + t * dy)) * (py - (ay + t * dy)) -
            ((px - (ax + tc * dx)) * (px - (ax + tc * dx)) +
             (py - (ay + tc * dy)) * (py - (ay + tc * dy)))
            = L * ((t - tc) * (t + tc - 2 * s))) as E.
    { replace (L * ((t - tc) * (t + tc - 2 * s)))
        with (L * (t * t - tc * tc) - 2 * (t - tc) * (s * L)) by ring.
      rewrite Hs. unfold L. ring. }
    nra.
Qed.

End SegmentLaws.


(** ** Laws of the proximity filter and of the count *)

Section ProximityLaws.

Lemma isNearRoute_short (centroidLat centroidLon : R)
    (routeCoords : list Point) (maxDistMeters : R) :
  (length routeCoords < 2)%nat →
  isNearRoute centroidLat centroidLon routeCoords maxDistMeters = false.
Proof.
  intros Hlen. destruct routeCoords as [|[lon lat] [|q rest]]; [done|done|].
  simpl in Hlen. lia.
Qed.

(** X12. On a route of fewer than two points [isNearRoute] answers [false]
    for every centroid and every threshold; and a centroid that is accepted
    with a threshold is accepted with every larger one. *)
Theorem isNearRoute_short_and_monotone (centroidLat centroidLon : R)
    (routeCoords : list Point) (maxDistMeters : R) :
  ((length routeCoords < 2)%nat →
   isNearRoute centroidLat centroidLon routeCoords maxDistMeters = false) ∧
  (∀ larger, maxDistMeters <= larger →
     isNearRoute centroidLat centroidLon routeCoords maxDistMeters = true →
     isNearRoute centroidLat centroidLon routeCoords larger = true).
Proof.
  split; [apply isNearRoute_short|].
  intros larger Hle. rewrite !isNearRoute_true. intros (d & Hd & Hlt).
  exists d. split; [done|lra].
Qed.

End ProximityLaws.

(** The theorem at the route through the origin, from 50 m to 60 m. *)
Lemma isNearRoute_short_and_monotone_witness :
  isNearRoute 0 0 throughOrigin 60 = true.
Proof.
  apply (proj2 (isNearRoute_short_and_monotone 0 0 throughOrigin 50) 60);
    [lra|apply origin_near].
Defined.

Section CountLaws.

Lemma countGroup_le (nodePositions : gmap Z LatLon) (coords : list Point)
    (nearCount : nat) (group : option nat * list Element) :
  (nearCount ≤ countGroup nodePositions coords nearCount group ≤ S nearCount)%nat.
Proof.
  unfold countGroup. destruct (centroidOf nodePositions group.2) as [[lat lon]|]; [|lia].
  destruct (isNearRoute lat lon coords 50); lia.
Qed.

Lemma count_fold_le (nodePositions : gmap Z LatLon) (coords : list Point)
    (groups : list (option nat * list Element)) (n : nat) :
  (n ≤ fold_left (countGroup nodePositions coords) groups n ≤ n + length groups)%nat.
Proof.
  revert n. induction groups as [|g groups IH]; intros n; simpl; [lia|].
  pose proof (countGroup_le nodePositions coords n g).
  pose proof (IH (countGroup nodePositions coords n g)). lia.
Qed.

Lemma count_fold_none (nodePositions : gmap Z LatLon) (coords : list Point)
    (groups : list (option nat * list Element)) (n : nat) :
  (∀ g, g ∈ groups → countGroup nodePositions coords n g = n) →
  fold_left (countGroup nodePositions coords) groups n = n.
Proof.
  induction groups as [|g groups IH]; intros H; simpl; [done|].
  rewrite H by apply list_elem_of_here. apply IH.
  intros g' Hg'. by apply H, list_elem_of_further.
Qed.

Lemma filter_length_sublist {A : Type} (f : A → bool) (l1 l2 : list A) :
  l1 `sublist_of` l2 → (length (List.filter f l1) ≤ length (List.filter f l2))%nat.
Proof.
  induction 1 as [|x l1 l2 _ IH|x l1 l2 _ IH]; simpl; [done| |];
    destruct (f x); simpl; lia.
Qed.

Lemma nodePositionsOf_no_node (l : list Element) :
  (∀ el, el ∈ l → el_type el ≠ node) → nodePositionsOf l = ∅.
Proof.
  induction l as [|x l IH] using rev_ind; intros H; [done|].
  rewrite nodePositions_snoc, IH.
  - unfold recordPosition.
    assert (el_type x ≠ node) as Hx.
    { apply H, elem_of_app. right. apply list_elem_of_here. }
    by destruct (el_type x).
  - intros el Hel. apply H, elem_of_app. by left.
Qed.

Lemma centroidOf_empty (ways : list Element) : centroidOf ∅ ways = None.
Proof.
  rewrite centroidOf_meanPosition. unfold resolvedPositions.
  assert (omap (fun nodeId : Z => (∅ : gmap Z LatLon) !! nodeId)
               (concat (map el_nodes ways)) = []) as ->; [|done].
  induction (concat (map el_nodes ways)) as [|x l IH]; [done|].
  simpl. by rewrite lookup_empty.
Qed.

(** The count is at most the number of groups, which is at most the number
    of roundabout ways gathered; without a node feature it is zero. *)
Lemma nearCountOf_bounds (coords : list Point) (allElements : list Element) :
  (nearCountOf coords allElements
     ≤ length (deduplicateRoundabouts (uniqueElements allElements))
     ≤ length (List.filter isRoundaboutWay allElements))%nat ∧
  ((∀ el, el ∈ allElements → el_type el ≠ node) →
   nearCountOf coords allElements = 0%nat).
Proof.
  unfold nearCountOf. repeat split.
  - pose proof (count_fold_le (nodePositionsOf (uniqueElements allElements)) coords
                  (deduplicateRoundabouts (uniqueElements allElements)) 0). lia.
  - destruct (groups_partition (uniqueElements allElements)) as (_ & _ & _ & _ & H).
    etrans; [exact H|]. apply filter_length_sublist, uniqueElements_sublist.
  - intros Hno. rewrite nodePositionsOf_no_node.
    + apply count_fold_none. intros g _. unfold countGroup.
      by rewrite centroidOf_empty.
    + intros el Hel. apply Hno.
      by apply (sublist_subseteq _ _ (uniqueElements_sublist allElements)).
Qed.

Lemma nearCountOf_short (coords : list Point) (allElements : list Element) :
  (length coords < 2)%nat → nearCountOf coords allElements = 0%nat.
Proof.
  intros Hlen. unfold nearCountOf. apply count_fold_none. intros g _.
  unfold countGroup. destruct (centroidOf _ g.2) as [[lat lon]|]; [|done].
  by rewrite isNearRoute_short.
Qed.

Variable host : Host.

(** X13. Whenever [countRoundabouts] returns a count, the count is at most
    the number of groups, which is at most the number of roundabout ways
    among the entries that the answers of the service bring; and it is zero
    when these entries hold no node, whatever the ways.  It returns a count
    when every entry is an element. *)
Theorem countRoundabouts_at_most_ways (geometry : Geometry) (w : World) :
  let bboxes := computeSegmentBboxes (coordinates geometry) 12 in
  let entries :=
    gathered host bboxes (strided (length bboxes) 0 BATCH_SIZE (length bboxes))
      (requests w) in
  let allElements := objects entries in
  ∃ result w',
    countRoundabouts host geometry w = (result, w') ∧
    (wellFormed entries → ∃ count, result = Returned count) ∧
    ∀ count, result = Returned count →
      (count ≤ length (deduplicateRoundabouts (uniqueElements allElements))
             ≤ length (List.filter isRoundaboutWay allElements))%nat ∧
      ((∀ el, el ∈ allElements → el_type el ≠ node) → count = 0%nat).
Proof.
  intros bboxes entries allElements.
  destruct (countRoundabouts_run host geometry w) as (w' & E).
  fold bboxes entries in E. eexists _, w'. split; [exact E|]. split.
  - intros Hwf. rewrite countOf_wellFormed by done. by eexists.
  - intros count Hcount. apply countOf_returned in Hcount as [_ ->].
    apply nearCountOf_bounds.
Qed.

(** X14. For a route of fewer than two points a count that
    [countRoundabouts] returns is 0, whatever the service answers; and it
    returns 0 when every entry that the service sends is an element. *)
Theorem countRoundabouts_short_route (geometry : Geometry) (w : World) :
  let bboxes := computeSegmentBboxes (coordinates geometry) 12 in
  let entries :=
    gathered host bboxes (strided (length bboxes) 0 BATCH_SIZE (length bboxes))
      (requests w) in
  (length (coordinates geometry) < 2)%nat →
  ∃ result w',
    countRoundabouts host geometry w = (result, w') ∧
    (∀ count, result = Returned count → count = 0%nat) ∧
    (wellFormed entries → result = Returned 0%nat).
Proof.
  intros bboxes entries Hlen.
  destruct (countRoundabouts_run host geometry w) as (w' & E).
  fold bboxes entries in E. eexists _, w'. split; [exact E|]. split.
  - intros count Hcount. apply countOf_returned in Hcount as [_ ->].
    by apply nearCountOf_short.
  - intros Hwf. rewrite countOf_wellFormed by done. by rewrite nearCountOf_short.
Qed.

End CountLaws.

(** The theorem at a route of one point and a service that answers. *)
Lemma countRoundabouts_short_route_witness :
  ∃ w', countRoundabouts directHost onePoint emptyWorld = (Returned 0%nat, w').
Proof.
  destruct (countRoundabouts_short_route directHost onePoint emptyWorld)
    as (result & w' & E & _ & Hwf); [simpl; lia|].
  exists w'. rewrite E. f_equal. apply Hwf.
  change (wellFormed [Whole aNode; Whole aNode]).
  repeat constructor; by eexists.
Defined.

(** ** Laws of the query client and cost of a count *)

Section QueryLaws.
Variable host : Host.

(** X15. [queryOverpassBboxes] returns data exactly when the service
    answers with a status in 200-299 and a body that can be read and that
    [JSON.parse] accepts; it then returns what [JSON.parse] gives and writes
    the query line only.  In every case it makes one request, does not
    wait, and writes the query line first. *)
Theorem queryOverpassBboxes_returns (bboxes : list Bbox) (w : World) :
  (∀ data w',
     queryOverpassBboxes host bboxes w = (Returned data, w') ↔
     ∃ res text,
       overpass host (requests w) (requestBody host bboxes) = Resolved res ∧
       ok res = true ∧ body res = Text text ∧
       JSON_parse host text = Returned data ∧
       w' = mkWorld (clock w) (S (requests w)) (console w ++ [queryLine host bboxes])) ∧
  (∀ o w', queryOverpassBboxes host bboxes w = (o, w') →
     requests w' = S (requests w) ∧ clock w' = clock w ∧
     ∃ more, console w' = console w ++ queryLine host bboxes :: more).
Proof.
  unfold queryOverpassBboxes, requestBody, queryLine. run_M.
  destruct (overpass host (requests w) _) as [res|err] eqn:Hres; simpl.
  - destruct (ok res) eqn:Hok; simpl.
    + destruct (body res) as [text|err] eqn:Hbody; simpl.
      * destruct (JSON_parse host text) as [data|err] eqn:Hparse; simpl.
        -- split.
           ++ intros data' w'. split.
              ** intros [= <- <-]. by exists res, text.
              ** intros (res' & text' & Hr & Ho & Hb & Hp & Hw). by same_answer.
           ++ intros o w' [= <- <-]. simpl. repeat split. by exists [].
        -- split.
           ++ intros data' w'. split; [done|].
              intros (res' & text' & Hr & Ho & Hb & Hp & Hw). by same_answer.
           ++ intros o w' [= <- <-]. simpl. repeat split. by exists [].
      * split.
        -- intros data' w'. split; [done|].
           intros (res' & text' & Hr & Ho & Hb & Hp & Hw). by same_answer.
        -- intros o w' [= <- <-]. simpl. repeat split. by exists [].
    + split.
      * intros data' w'. split.
        -- destruct (body res); simpl; done.
        -- intros (res' & text' & Hr & Ho & Hb & Hp & Hw). by same_answer.
      * intros o w'. destruct (body res); simpl; intros [= <- <-]; simpl;
          repeat split; rewrite <- ?app_assoc; by eexists.
  - split.
    + intros data' w'. split; [done|].
      intros (res' & text' & Hr & Ho & Hb & Hp & Hw). by same_answer.
    + intros o w' [= <- <-]. simpl. repeat split. by exists [].
Qed.

End QueryLaws.

Section Cost.
Variable host : Host.

(** A query makes one request and does not wait. *)
Lemma queryOverpassBboxes_world (bboxes : list Bbox) (w : World) :
  ∃ w', queryOverpassBboxes host bboxes w = (answer host (requests w) bboxes, w') ∧
        requests w' = S (requests w) ∧ clock w' = clock w.
Proof.
  unfold answer, queryOverpassBboxes. run_M.
  destruct (overpass host (requests w) _) as [res|err]; simpl; [|by eexists].
  destruct (negb (ok res)); simpl.
  - destruct (body res); simpl; by eexists.
  - destruct (body res); simpl; [|by eexists].
    destruct (JSON_parse host text); simpl; by eexists.
Qed.

(** One attempt (a query and the push of its elements) makes one request,
    does not wait, and returns exactly when the attempt gains elements. *)
Lemma attempt_world (bboxes : list Bbox) (allElements : list Feature) (w : World) :
  ∃ o w',
    (data ← queryOverpassBboxes host bboxes ; pushElements allElements data) w = (o, w') ∧
    requests w' = S (requests w) ∧ clock w' = clock w ∧
    ((∃ a, o = Returned a) ↔ is_Some (attemptGain host (requests w) bboxes)).
Proof.
  destruct (queryOverpassBboxes_world bboxes w) as (w' & E & Hreq & Hclock).
  unfold mbind, M_bind. rewrite E. unfold attemptGain.
  destruct (answer host (requests w) bboxes) as [data|err].
  - unfold pushElements. destruct (elements data) as [els|err].
    + eexists _, w'. split; [reflexivity|]. repeat split; eauto.
    + eexists _, w'. split; [reflexivity|].
      repeat split; try done; by intros [? ?].
  - eexists _, w'. split; [reflexivity|].
    repeat split; try done; by intros [? ?].
Qed.

(** The retry loop makes one request per box and waits 5 s before each. *)
Lemma retryEach_world (batch : list Bbox) (allElements : list Feature) (w : World) :
  ∃ o w', retryEach host batch allElements w = (o, w') ∧
    requests w' = (requests w + length batch)%nat ∧
    clock w' = (clock w + 5000 * length batch)%nat.
Proof.
  revert allElements w. induction batch as [|b batch IH]; intros allElements w.
  - exists (Returned allElements), w. simpl. repeat split; lia.
  - cbn [retryEach]. unfold mbind at 1, M_bind at 1, try_catch.
    unfold mbind at 1, M_bind at 1, delay.
    set (w1 := mkWorld (clock w + 5000) (requests w) (console w)).
    destruct (attempt_world [b] allElements w1) as (o & w2 & -> & Hreq & Hclock & _).
    assert (∃ a w3,
      match o with
      | Returned a => (Returned a, w2)
      | Thrown err =>
          (console_error ["[Overpass] Single bbox retry also failed:"; message err] ;;
           mret allElements) w2
      end = (Returned a, w3) ∧ requests w3 = requests w2 ∧ clock w3 = clock w2)
      as (a & w3 & -> & Hreq3 & Hclock3).
    { destruct o as [a|err]; [by exists a, w2|]. run_M. by eexists _, _. }
    destruct (IH a w3) as (o' & w4 & -> & Hreq4 & Hclock4).
    exists o', w4. split; [done|].
    rewrite Hreq4, Hclock4, Hreq3, Hclock3, Hreq, Hclock. unfold w1.
    cbn [requests clock length]. rewrite Nat.mul_succ_r. split; lia.
Qed.

(** The loop over one batch that starts at index 0 and holds every box:
    one request when the attempt gains elements, and no wait; otherwise one
    request more per box, and 5 s of wait per box. *)
Lemma batchLoop_one_world (bboxes : list Bbox) (allElements : list Feature) (w : World) :
  (length bboxes ≤ BATCH_SIZE)%nat →
  ∃ o w', batchLoop host bboxes [0%nat] allElements w = (o, w') ∧
    match attemptGain host (requests w) bboxes with
    | Some _ => requests w' = S (requests w) ∧ clock w' = clock w
    | None => requests w' = (S (requests w) + length bboxes)%nat ∧
              clock w' = (clock w + 5000 * length bboxes)%nat
    end.
Proof.
  intros Hlen. cbn [batchLoop]. rewrite slice_whole by (unfold BATCH_SIZE in *; lia).
  assert ((0 + BATCH_SIZE <? length bboxes)%nat = false) as ->.
  { apply Nat.ltb_ge. lia. }
  unfold mbind at 1, M_bind at 1, try_catch.
  destruct (attempt_world bboxes allElements w) as (o & w1 & -> & Hreq & Hclock & Hgain).
  destruct o as [a|err].
  - run_M. eexists _, _. split; [reflexivity|].
    destruct (attemptGain host (requests w) bboxes).
    + done.
    + destruct Hgain as [Hgain _]. destruct Hgain as [? ?]; [by eexists|done].
  - unfold mbind, M_bind, console_error, mret, M_ret. cbv beta iota zeta.
    edestruct retryEach_world as (o' & w2 & -> & Hreq2 & Hclock2).
    cbn [requests clock] in Hreq2, Hclock2.
    exists o', w2. split; [by destruct o'|].
    destruct (attemptGain host (requests w) bboxes) eqn:Eg.
    + destruct Hgain as [_ Hgain]. destruct Hgain as [? ?]; [by eexists|done].
    + rewrite Hreq2, Hclock2, Hreq, Hclock. split; [lia|done].
Qed.

(** The cost of a call, whatever it returns. *)
Lemma countRoundabouts_world (geometry : Geometry) (w : World) :
  let bboxes := computeSegmentBboxes (coordinates geometry) 12 in
  ∃ o w', countRoundabouts host geometry w = (o, w') ∧
    (coordinates geometry = [] → requests w' = requests w ∧ clock w' = clock w) ∧
    (coordinates geometry ≠ [] →
     match attemptGain host (requests w) bboxes with
     | Some _ => requests w' = S (requests w) ∧ clock w' = clock w
     | None => requests w' = (S (requests w) + length bboxes)%nat ∧
               clock w' = (clock w + 5000 * length bboxes)%nat
     end).
Proof.
  intros bboxes.
  assert (length bboxes ≤ BATCH_SIZE)%nat as Hlen.
  { unfold BATCH_SIZE. apply computeSegmentBboxes_length. lia. }
  unfold countRoundabouts. fold bboxes.
  unfold mbind at 1, M_bind at 1, console_log at 1.
  unfold mbind at 1, M_bind at 1.
  set (w0 := mkWorld (clock w) (requests w) _).
  destruct (coordinates geometry) as [|p coords] eqn:Ecoords.
  - assert (bboxes = []) as Eb by (unfold bboxes; try rewrite Ecoords; reflexivity).
    rewrite Eb. cbn [length strided batchLoop]. run_M.
    eexists _, _. split; [reflexivity|]. cbn [requests clock]. by split.
  - assert (1 ≤ length bboxes)%nat as Hpos.
    { unfold bboxes. try rewrite Ecoords.
      rewrite computeSegmentBboxes_segments, length_map, segments_length.
      apply Nat.le_succ_l, ceil_div_gt; [apply segmentSize_pos|simpl; lia]. }
    rewrite strided_one_batch by done.
    destruct (batchLoop_one_world bboxes [] w0 Hlen) as (o & w1 & -> & Hcost).
    change (requests w0) with (requests w) in Hcost.
    change (clock w0) with (clock w) in Hcost.
    unfold mbind, M_bind, settle. destruct o as [a|err].
    + destruct (uniqueEntries a) as [elements|err].
      * destruct (groupsOf elements) as [groups|err].
        -- unfold console_log, mret, M_ret. eexists _, _. split; [reflexivity|].
           cbn [requests clock]. by split.
        -- eexists _, _. split; [reflexivity|]. by split.
      * eexists _, _. split; [reflexivity|]. by split.
    + eexists _, _. split; [reflexivity|]. by split.
Qed.

(** X16. A call of [countRoundabouts], whether it returns or throws, makes
    13 requests at most and waits 60 s at most.  It makes no request for an
    empty route.  For any other route it makes one request and does not
    wait when the batch query brings elements; otherwise it makes one
    request more per box and waits 5 s per box; it never waits the 2 s that
    separate two batches, since the boxes are twelve at most. *)
Theorem countRoundabouts_cost (geometry : Geometry) (w : World) :
  let bboxes := computeSegmentBboxes (coordinates geometry) 12 in
  ∃ result w', countRoundabouts host geometry w = (result, w') ∧
    (requests w' ≤ requests w + 13)%nat ∧
    (clock w' ≤ clock w + 5000 * 12)%nat ∧
    (coordinates geometry = [] → requests w' = requests w ∧ clock w' = clock w) ∧
    (coordinates geometry ≠ [] →
     match attemptGain host (requests w) bboxes with
     | Some _ => requests w' = S (requests w) ∧ clock w' = clock w
     | None => requests w' = (S (requests w) + length bboxes)%nat ∧
               clock w' = (clock w + 5000 * length bboxes)%nat
     end).
Proof.
  intros bboxes.
  assert (length bboxes ≤ 12)%nat as Hlen.
  { apply computeSegmentBboxes_length. lia. }
  destruct (countRoundabouts_world geometry w) as (o & w' & E & Hempty & Hroute).
  fold bboxes in Hroute. exists o, w'. split; [exact E|].
  destruct (coordinates geometry) as [|p coords] eqn:Ecoords.
  - destruct (Hempty eq_refl) as [-> ->]. repeat split; try done; lia.
  - specialize (Hroute ltac:(done)).
    destruct (attemptGain host (requests w) bboxes).
    + destruct Hroute as [-> ->]. repeat split; try done; lia.
    + destruct Hroute as [-> ->]. repeat split; try done; [lia|].
      apply Nat.add_le_mono_l, Nat.mul_le_mono_l, Hlen.
Qed.

End Cost.


(** ** Laws of the handler of /api/challenge *)

Section Sanitize.

Lemma trimStart_split (s : JsString) :
  ∃ p, s = p ++ trimStart s ∧ Forall (fun c => isWhiteSpace c = true) p.
Proof.
  induction s as [|c s (p & E & Hp)]; simpl.
  - by exists [].
  - destruct (isWhiteSpace c) eqn:Hc.
    + exists (c :: p). split; [by rewrite E at 1|]. by constructor.
    + by exists [].
Qed.

Lemma trimStart_head (s : JsString) (c : N) :
  head (trimStart s) = Some c → isWhiteSpace c = false.
Proof.
  induction s as [|c' s IH]; simpl; [done|].
  destruct (isWhiteSpace c') eqn:Hc; [done|]. simpl. by intros [= <-].
Qed.

Lemma trimStart_id (s : JsString) :
  (∀ c, head s = Some c → isWhiteSpace c = false) → trimStart s = s.
Proof. destruct s as [|c s]; [done|]. simpl. intros H. by rewrite (H c). Qed.

Lemma trimEnd_split (s : JsString) :
  ∃ q, s = trimEnd s ++ q ∧ Forall (fun c => isWhiteSpace c = true) q.
Proof.
  destruct (trimStart_split (rev s)) as (p & E & Hp).
  exists (rev p). split; [|by apply Forall_rev].
  unfold trimEnd. rewrite <- rev_app_distr, <- E. by rewrite rev_involutive.
Qed.

Lemma last_rev {A : Type} (l : list A) : last (rev l) = head l.
Proof. destruct l as [|x l]; [done|]. simpl. by rewrite last_snoc. Qed.

Lemma trimEnd_last (s : JsString) (c : N) :
  last (trimEnd s) = Some c → isWhiteSpace c = false.
Proof. unfold trimEnd. rewrite last_rev. apply trimStart_head. Qed.

Lemma trimEnd_id (s : JsString) :
  (∀ c, last s = Some c → isWhiteSpace c = false) → trimEnd s = s.
Proof.
  intros H. unfold trimEnd. rewrite trimStart_id; [apply rev_involutive|].
  intros c Hc. apply H. by rewrite <- (rev_involutive s), last_rev.
Qed.

Lemma trimEnd_head (s : JsString) (c : N) :
  (∀ c, head s = Some c → isWhiteSpace c = false) →
  head (trimEnd s) = Some c → isWhiteSpace c = false.
Proof.
  intros Hs Hc. destruct (trimEnd_split s) as (q & E & _).
  apply Hs. rewrite E. destruct (trimEnd s); [done|]. exact Hc.
Qed.

(** What [trim] leaves: the string without a white prefix and a white
    suffix, with no white space at either end. *)
Lemma trim_spec (s : JsString) :
  (∃ p q, s = p ++ trim s ++ q ∧
          Forall (fun c => isWhiteSpace c = true) p ∧
          Forall (fun c => isWhiteSpace c = true) q) ∧
  (∀ c, head (trim s) = Some c → isWhiteSpace c = false) ∧
  (∀ c, last (trim s) = Some c → isWhiteSpace c = false).
Proof.
  unfold trim. split; [|split].
  - destruct (trimStart_split s) as (p & E & Hp).
    destruct (trimEnd_split (trimStart s)) as (q & E' & Hq).
    exists p, q. split; [|done]. by rewrite <- E'.
  - intros c. apply trimEnd_head. apply trimStart_head.
  - apply trimEnd_last.
Qed.

Lemma trim_id (s : JsString) :
  (∀ c, head s = Some c → isWhiteSpace c = false) →
  (∀ c, last s = Some c → isWhiteSpace c = false) →
  trim s = s.
Proof. intros Hh Hl. unfold trim. rewrite trimStart_id by done. by apply trimEnd_id. Qed.

Lemma trim_sublist (s : JsString) : trim s `sublist_of` s.
Proof.
  destruct (trim_spec s) as [(p & q & E & _) _]. rewrite E at 2.
  apply sublist_inserts_l, sublist_inserts_r. done.
Qed.

Lemma trim_nonempty (s : JsString) (c : N) :
  head s = Some c → isWhiteSpace c = false → trim s ≠ [].
Proof.
  intros Hh Hc E. destruct (trim_spec s) as [(p & q & Es & Hp & Hq) _].
  rewrite E in Es. simpl in Es. subst s.
  destruct p as [|c' p].
  - simpl in Hh. destruct q as [|c' q]; [done|]. simpl in Hh. injection Hh as ->.
    apply Forall_cons in Hq as [Hq _]. congruence.
  - simpl in Hh. injection Hh as ->. apply Forall_cons in Hp as [Hp _]. congruence.
Qed.

Lemma filter_special_free (s : JsString) :
  Forall (fun c => isSpecial c = false) (List.filter (fun c => negb (isSpecial c)) s).
Proof.
  apply Forall_forall. intros c Hc. apply list_elem_of_In, filter_In in Hc as [_ Hc].
  by apply negb_true_iff.
Qed.

Lemma filter_special_id (s : JsString) :
  Forall (fun c => isSpecial c = false) s →
  List.filter (fun c => negb (isSpecial c)) s = s.
Proof.
  intros H. apply forallb_filter_id, forallb_forall. intros c Hc.
  rewrite Forall_forall in H. apply negb_true_iff, H. by apply list_elem_of_In.
Qed.

Lemma filter_special_sublist (s : JsString) :
  List.filter (fun c => negb (isSpecial c)) s `sublist_of` s.
Proof.
  induction s as [|c s IH]; simpl; [done|].
  destruct (negb (isSpecial c)); [by apply sublist_skip|by apply sublist_cons].
Qed.

Lemma Forall_sublist {A : Type} (P : A → Prop) (l1 l2 : list A) :
  l1 `sublist_of` l2 → Forall P l2 → Forall P l1.
Proof.
  intros Hs H. rewrite Forall_forall in *. intros x Hx.
  by apply H, (sublist_subseteq _ _ Hs).
Qed.

Lemma sanitize_special_free (str : JsString) :
  Forall (fun c => isSpecial c = false) (sanitize str).
Proof.
  unfold sanitize. eapply Forall_sublist; [apply trim_sublist|].
  apply filter_special_free.
Qed.

Lemma sanitize_id (str : JsString) :
  Forall (fun c => isSpecial c = false) str →
  (∀ c, head str = Some c → isWhiteSpace c = false) →
  (∀ c, last str = Some c → isWhiteSpace c = false) →
  sanitize str = str.
Proof.
  intros Hs Hh Hl. unfold sanitize. rewrite filter_special_id by done.
  by apply trim_id.
Qed.

(** X17. What [sanitize] returns holds none of the characters that it
    removes, neither starts nor ends with white space, and is made of
    characters of its argument, in order; sanitizing a second time changes
    nothing; and a string without these characters and without white space
    at its ends is returned as it is. *)
Theorem sanitize_laws (str : JsString) :
  Forall (fun c => isSpecial c = false) (sanitize str) ∧
  (∀ c, head (sanitize str) = Some c → isWhiteSpace c = false) ∧
  (∀ c, last (sanitize str) = Some c → isWhiteSpace c = false) ∧
  sanitize str `sublist_of` str ∧
  sanitize (sanitize str) = sanitize str ∧
  (Forall (fun c => isSpecial c = false) str →
   (∀ c, head str = Some c → isWhiteSpace c = false) →
   (∀ c, last str = Some c → isWhiteSpace c = false) →
   sanitize str = str).
Proof.
  destruct (trim_spec (List.filter (fun c => negb (isSpecial c)) str))
    as (_ & Hh & Hl).
  repeat split.
  - apply sanitize_special_free.
  - exact Hh.
  - exact Hl.
  - unfold sanitize. etrans; [apply trim_sublist|apply filter_special_sublist].
  - apply sanitize_id; [apply sanitize_special_free|exact Hh|exact Hl].
  - apply sanitize_id.
Qed.

End Sanitize.

Section Inputs.

Lemma isEmpty_false (s : JsString) : isEmpty s = false ↔ s ≠ [].
Proof. by destruct s. Qed.

Lemma substring0_sanitize (n : nat) (s : JsString) :
  isEmpty (substring0 n (sanitize s)) = false →
  accepted n (substring0 n (sanitize s)).
Proof.
  intros Hne. apply isEmpty_false in Hne. unfold substring0 in *.
  split; [done|]. split; [rewrite length_take; lia|]. split.
  - eapply Forall_sublist; [apply sublist_take|apply sanitize_special_free].
  - intros c Hc. destruct (trim_spec (List.filter (fun c => negb (isSpecial c)) s))
      as (_ & Hh & _).
    apply Hh. fold (sanitize s). destruct n; [done|].
    by destruct (sanitize s).
Qed.

(** What the checks of the handler let through. *)
Lemma checkInputs_spec (pseudo villeDepart villeArrivee : JsValue) :
  checkInputs pseudo villeDepart villeArrivee ≠
    Returned (inl (BadRequest "Pseudo trop long (max 20 caractères)")) ∧
  ∀ p d a, checkInputs pseudo villeDepart villeArrivee = Returned (inr (p, d, a)) →
    accepted 20 p ∧ accepted 100 d ∧ accepted 100 a ∧
    accepted 20 (entryPseudo p) ∧
    (∀ c, last (entryPseudo p) = Some c → isWhiteSpace c = false).
Proof.
  unfold checkInputs.
  destruct (falsy pseudo || falsy villeDepart || falsy villeArrivee); [by split|].
  destruct (toString pseudo) as [s1|err]; [|by split].
  destruct (toString villeDepart) as [s2|err]; [|by split].
  destruct (toString villeArrivee) as [s3|err]; [|by split].
  pose proof (substring0_sanitize 20 s1) as Hp.
  pose proof (substring0_sanitize 100 s2) as Hd.
  pose proof (substring0_sanitize 100 s3) as Ha.
  assert (length (substring0 20 (sanitize s1)) ≤ 20)%nat as Hlen.
  { unfold substring0. rewrite length_take. lia. }
  set (p0 := substring0 20 (sanitize s1)) in *.
  set (d0 := substring0 100 (sanitize s2)) in *.
  set (a0 := substring0 100 (sanitize s3)) in *.
  clearbody p0 d0 a0.
  destruct (isEmpty p0) eqn:E1; [by split|].
  destruct (isEmpty d0) eqn:E2; [by split|].
  destruct (isEmpty a0) eqn:E3; [by split|].
  cbn [orb].
  assert ((20 <? length p0)%nat = false) as -> by (apply Nat.ltb_ge; lia).
  split; [done|]. intros p d a [= <- <- <-].
  specialize (Hp eq_refl). specialize (Hd eq_refl). specialize (Ha eq_refl).
  split; [done|]. split; [done|]. split; [done|].
  destruct Hp as (Hne & _ & Hsp & Hh).
  destruct (trim_spec p0) as (_ & Hth & Htl).
  assert (length (trim p0) ≤ 20)%nat as Hlt.
  { etrans; [apply sublist_length, trim_sublist|done]. }
  assert (entryPseudo p0 = trim p0) as ->.
  { unfold entryPseudo, substring0. by rewrite take_ge. }
  split; [|done]. split; [|split; [done|split; [|done]]].
  - destruct p0 as [|c p']; [done|]. by apply (trim_nonempty _ c), Hh.
  - eapply Forall_sublist; [apply trim_sublist|done].
Qed.

(** X18. The handler of /api/challenge never answers that the pseudo is too
    long: the test of its length comes after the cut to 20 characters.  When
    it goes on to the geocoding, the pseudo has 1 to 20 characters and each
    city 1 to 100, none holds a character that [sanitize] removes, and none
    starts with white space; the pseudo stored in the entry is not empty,
    has 20 characters at most and has no white space at its ends. *)
Theorem checkInputs_accepts (pseudo villeDepart villeArrivee : JsValue) :
  checkInputs pseudo villeDepart villeArrivee ≠
    Returned (inl (BadRequest "Pseudo trop long (max 20 caractères)")) ∧
  ∀ p d a, checkInputs pseudo villeDepart villeArrivee = Returned (inr (p, d, a)) →
    accepted 20 p ∧ accepted 100 d ∧ accepted 100 a ∧
    accepted 20 (entryPseudo p) ∧
    (∀ c, last (entryPseudo p) = Some c → isWhiteSpace c = false).
Proof. apply checkInputs_spec. Qed.

End Inputs.

(** The theorem at the pseudo Bob and the cities Paris and Lyon. *)
Lemma checkInputs_accepts_witness :
  checkInputs (JsStr bob) (JsStr paris) (JsStr lyon) = Returned (inr (bob, paris, lyon)) ∧
  accepted 20 bob.
Proof.
  split; [reflexivity|].
  destruct (checkInputs_accepts (JsStr bob) (JsStr paris) (JsStr lyon)) as [_ H].
  destruct (H bob paris lyon eq_refl) as [Hb _]. exact Hb.
Defined.

Section Ratio.

(** What the check computes gives the ratio. *)
Lemma ratioChecked_spec (nb km : nat) :
  ratioChecked nb km = true →
  ∃ k : Z,
    ratio nb (toNumber (Z.of_nat km)) = (toNumber k / 10)%float ∧
    (2 * Z.abs (k * Z.of_nat km - 1000 * Z.of_nat nb) ≤ Z.of_nat km)%Z.
Proof.
  unfold ratioChecked, ratio, Math_round. cbv zeta.
  destruct (0 <? toNumber (Z.of_nat km))%float; [|done].
  destruct (Prim2SF _) as [?|?| |s m e]; try done.
  destruct (0 <=? e)%Z; [done|]. cbn [negb andb].
  set (n := ((2 * (if s then Z.neg m else Z.pos m) + 2 ^ (- e)) / 2 ^ (1 - e))%Z).
  destruct (n =? 0)%Z; [done|]. cbn [negb andb]. intros H.
  exists n. split; [done|]. unfold nearestTo in H. by apply Z.leb_le in H.
Qed.

Lemma ratioChecked_all :
  forallb (fun nb => forallb (ratioChecked nb) (seq 1 1000)) (seq 1 50) = true.
Proof. vm_compute. reflexivity. Qed.

(** X19. For a count of 1 to 50 and a distance of 1 to 1000 km the ratio
    is the double k / 10 for an integer k that is nearest to ten times the
    count per 100 km: the ratio is the count per 100 km to one decimal.  A
    half does not always go up: for 23 roundabouts on 80 km (28.75 per
    100 km) the ratio is 28.7, for 1 on 80 km (1.25) it is 1.3.  The ratio
    is 0 for a distance that is 0, negative or not a number. *)
Theorem ratio_nearest_tenth :
  (∀ nb km : nat, (1 ≤ nb ≤ 50)%nat → (1 ≤ km ≤ 1000)%nat →
     ∃ k : Z,
       ratio nb (toNumber (Z.of_nat km)) = (toNumber k / 10)%float ∧
       (2 * Z.abs (k * Z.of_nat km - 1000 * Z.of_nat nb) ≤ Z.of_nat km)%Z) ∧
  ratio 23 80 = (287 / 10)%float ∧
  ratio 1 80 = (13 / 10)%float ∧
  (∀ nb, ratio nb 0 = 0%float ∧ ratio nb (-1) = 0%float ∧ ratio nb nan = 0%float).
Proof.
  split; [|split; [|split]]; [|reflexivity|reflexivity|by intros nb].
  intros nb km Hnb Hkm. apply ratioChecked_spec.
  assert (In nb (seq 1 50)) as Hin1 by (apply in_seq; lia).
  assert (In km (seq 1 1000)) as Hin2 by (apply in_seq; lia).
  pose proof ratioChecked_all as H.
  rewrite forallb_forall in H. specialize (H nb Hin1).
  rewrite forallb_forall in H. exact (H km Hin2).
Qed.

End Ratio.

Section Leaderboard.

Lemma insertEntry_perm (x : Entry) (l : list Entry) : insertEntry x l ≡ₚ x :: l.
Proof.
  induction l as [|y l IH]; simpl; [done|].
  destruct (e_nbRondPoints x <? e_nbRondPoints y)%nat; [|done].
  rewrite IH. apply Permutation_swap.
Qed.

Lemma sortEntries_perm (l : list Entry) : sortEntries l ≡ₚ l.
Proof.
  induction l as [|x l IH]; simpl; [done|]. by rewrite insertEntry_perm, IH.
Qed.

Lemma insertEntry_descending (x : Entry) (l : list Entry) :
  descending l → descending (insertEntry x l).
Proof.
  unfold descending. induction 1 as [|y l Hl IH Hy]; simpl.
  - by repeat constructor.
  - destruct (e_nbRondPoints x <? e_nbRondPoints y)%nat eqn:E.
    + apply Nat.ltb_lt in E. constructor; [done|].
      rewrite Forall_forall in *. intros z Hz.
      rewrite insertEntry_perm in Hz.
      apply elem_of_cons in Hz as [->|Hz]; [lia|by apply Hy].
    + apply Nat.ltb_ge in E. constructor; [by constructor|].
      constructor; [done|]. eapply Forall_impl; [exact Hy|]. simpl. intros z Hz. lia.
Qed.

Lemma sortEntries_descending (l : list Entry) : descending (sortEntries l).
Proof.
  induction l as [|x l IH]; simpl; [constructor|]. by apply insertEntry_descending.
Qed.

Lemma descending_fixed (l : list Entry) : descending l → sortEntries l = l.
Proof.
  unfold descending. induction 1 as [|x l Hl IH Hx]; simpl; [done|].
  rewrite IH. destruct l as [|y l']; [done|]. simpl.
  apply Forall_cons in Hx as [Hy _].
  by assert ((e_nbRondPoints x <? e_nbRondPoints y)%nat = false) as ->
    by (apply Nat.ltb_ge; lia).
Qed.

(** An entry passes the entries that have more roundabouts than it. *)
Lemma insertEntry_pass (x : Entry) (front rest : list Entry) :
  Forall (fun y => (e_nbRondPoints x < e_nbRondPoints y)%nat) front →
  insertEntry x (front ++ rest) = front ++ insertEntry x rest.
Proof.
  induction 1 as [|y front Hy _ IH]; simpl; [done|].
  apply Nat.ltb_lt in Hy. by rewrite Hy, IH.
Qed.

(** It stops before the first entry that has no more roundabouts than it. *)
Lemma insertEntry_stop (x y : Entry) (front rest : list Entry) :
  (e_nbRondPoints y ≤ e_nbRondPoints x)%nat →
  insertEntry x (front ++ y :: rest) = insertEntry x front ++ y :: rest.
Proof.
  intros Hy. induction front as [|z front IH]; simpl.
  - by assert ((e_nbRondPoints x <? e_nbRondPoints y)%nat = false) as ->
      by (apply Nat.ltb_ge; lia).
  - destruct (e_nbRondPoints x <? e_nbRondPoints z)%nat; [|done]. by rewrite IH.
Qed.

(** The entry pushed last goes after the entries that have at least as many
    roundabouts, whatever the order of the others. *)
Lemma sortEntries_snoc (l : list Entry) (entry : Entry) :
  sortEntries (l ++ [entry]) =
  sortEntries (atLeast entry l) ++ entry :: sortEntries (below entry l).
Proof.
  induction l as [|x l IH]; [done|].
  cbn [app sortEntries foldr]. fold (sortEntries (l ++ [entry])). rewrite IH.
  unfold atLeast, below. cbn [List.filter].
  destruct (e_nbRondPoints entry <=? e_nbRondPoints x)%nat eqn:E.
  - apply Nat.leb_le in E.
    assert ((e_nbRondPoints x <? e_nbRondPoints entry)%nat = false) as ->
      by (apply Nat.ltb_ge; lia).
    cbn [sortEntries foldr]. by rewrite insertEntry_stop.
  - apply Nat.leb_gt in E.
    assert ((e_nbRondPoints x <? e_nbRondPoints entry)%nat = true) as ->
      by (apply Nat.ltb_lt; lia).
    cbn [sortEntries foldr].
    replace (sortEntries (List.filter _ l) ++ entry :: sortEntries (List.filter _ l))
      with ((sortEntries (atLeast entry l) ++ [entry]) ++ sortEntries (below entry l))
      by by rewrite <- app_assoc.
    rewrite insertEntry_pass; [by rewrite <- app_assoc|].
    apply Forall_app. split; [|by apply Forall_singleton].
    apply Forall_forall. intros y Hy.
    rewrite sortEntries_perm in Hy.
    apply list_elem_of_In, filter_In in Hy as [_ Hy]. apply Nat.leb_le in Hy. lia.
Qed.

Lemma descending_filter (f : Entry → bool) (l : list Entry) :
  descending l → descending (List.filter f l).
Proof.
  unfold descending. induction 1 as [|x l Hl IH Hx]; simpl; [constructor|].
  destruct (f x); [|done]. constructor; [done|].
  rewrite Forall_forall in *. intros y Hy. apply Hx.
  apply list_elem_of_In, filter_In in Hy as [Hy _]. by apply list_elem_of_In.
Qed.

Lemma filter_none {A : Type} (f : A → bool) (l : list A) :
  Forall (fun x => f x = false) l → List.filter f l = [].
Proof. induction 1 as [|x l Hx _ IH]; simpl; [done|]. by rewrite Hx. Qed.

(** In a list in descending order the entries that have at least as many
    roundabouts as [entry] are a prefix, and the others the rest. *)
Lemma descending_split (entry : Entry) (l : list Entry) :
  descending l →
  atLeast entry l = take (length (atLeast entry l)) l ∧
  below entry l = drop (length (atLeast entry l)) l.
Proof.
  unfold descending, atLeast, below.
  induction 1 as [|x l Hl [IH1 IH2] Hx]; [done|]. cbn [List.filter].
  destruct (e_nbRondPoints entry <=? e_nbRondPoints x)%nat eqn:E.
  - apply Nat.leb_le in E.
    assert ((e_nbRondPoints x <? e_nbRondPoints entry)%nat = false) as ->
      by (apply Nat.ltb_ge; lia).
    cbn [length take drop]. by rewrite <- IH1, <- IH2.
  - apply Nat.leb_gt in E.
    assert ((e_nbRondPoints x <? e_nbRondPoints entry)%nat = true) as ->
      by (apply Nat.ltb_lt; lia).
    assert (List.filter (fun y => (e_nbRondPoints entry <=? e_nbRondPoints y)%nat) l = [])
      as E1.
    { apply filter_none. eapply Forall_impl; [exact Hx|]. simpl.
      intros y Hy. apply Nat.leb_gt. lia. }
    rewrite E1 in *. simpl in *. by rewrite IH2.
Qed.

Lemma findIndex_app_none {A : Type} (p : A → bool) (front l : list A) :
  Forall (fun x => p x = false) front →
  findIndex p (front ++ l) = (fun i => (length front + i)%nat) <$> findIndex p l.
Proof.
  induction 1 as [|x front Hx _ IH]; simpl.
  - by destruct (findIndex p l).
  - rewrite Hx, IH. by destruct (findIndex p l).
Qed.

Lemma findIndex_none {A : Type} (p : A → bool) (l : list A) :
  Forall (fun x => p x = false) l → findIndex p l = None.
Proof.
  intros H. rewrite <- (app_nil_r l). by rewrite findIndex_app_none.
Qed.

Lemma slice_0 {A : Type} (n : nat) (l : list A) : slice 0 n l = take n l.
Proof. unfold slice. by rewrite Nat.sub_0_r, drop_0. Qed.

(** The list after a push, a sort and a cut. *)
Lemma trimmed_spec (leaderboard : list Entry) (entry : Entry) :
  length (trimmed leaderboard entry) = Nat.min 100 (S (length leaderboard)) ∧
  descending (trimmed leaderboard entry) ∧
  trimmed leaderboard entry ⊆+ leaderboard ++ [entry] ∧
  (descending leaderboard →
   trimmed leaderboard entry =
   take 100 (atLeast entry leaderboard ++ entry :: below entry leaderboard)).
Proof.
  unfold trimmed. rewrite slice_0. repeat split.
  - rewrite length_take, (Permutation_length (sortEntries_perm _)), length_app.
    cbn [length]. lia.
  - unfold descending. apply (StronglySorted_app_1_l _ _ (drop 100 (sortEntries (leaderboard ++ [entry])))).
    rewrite take_drop. apply sortEntries_descending.
  - etrans; [apply sublist_submseteq, sublist_take|].
    apply Permutation_submseteq. apply sortEntries_perm.
  - intros Hd. rewrite sortEntries_snoc.
    by rewrite !descending_fixed by by apply descending_filter.
Qed.

(** X20. The list saved after a challenge holds the old entries and the
    new one, cut to 100: its length is the least of 100 and the old length
    plus one, it is in descending order of roundabouts, and its entries are
    entries of the old list or the new one.  When the old list was in
    descending order, the new entry stands after the entries that have as
    many roundabouts or more and before those that have fewer. *)
Theorem trimmed_laws (leaderboard : list Entry) (entry : Entry) :
  length (trimmed leaderboard entry) = Nat.min 100 (S (length leaderboard)) ∧
  descending (trimmed leaderboard entry) ∧
  trimmed leaderboard entry ⊆+ leaderboard ++ [entry] ∧
  (descending leaderboard →
   trimmed leaderboard entry =
   take 100 (atLeast entry leaderboard ++ entry :: below entry leaderboard)).
Proof. apply trimmed_spec. Qed.

(** X21. When no old entry has the date of the new one, the rank answered
    is one more than the number of old entries that have as many roundabouts
    or more, if that number is under 100, and 0 if it is not: the entry is
    then not among the 100 saved.  The entry is in the list of twenty of
    the answer exactly when that number is under 20. *)
Theorem rank_of_new_entry (leaderboard : list Entry) (entry : Entry) :
  (∀ x, x ∈ leaderboard → e_date x ≠ e_date entry) →
  let ahead := length (atLeast entry leaderboard) in
  rank (trimmed leaderboard entry) entry =
    (if (ahead <? 100)%nat then S ahead else 0%nat) ∧
  (entry ∈ top20 (trimmed leaderboard entry) ↔ (ahead < 20)%nat).
Proof.
  intros Hdates ahead.
  assert (length (sortEntries (atLeast entry leaderboard)) = ahead) as Hlen.
  { by rewrite (Permutation_length (sortEntries_perm _)). }
  assert (Forall (fun x => sameDate x entry = false)
            (sortEntries (atLeast entry leaderboard))) as Hfront.
  { apply Forall_forall. intros x Hx.
    rewrite sortEntries_perm in Hx.
    apply list_elem_of_In, filter_In in Hx as [Hx _].
    apply bool_decide_eq_false_2, Hdates. by apply list_elem_of_In. }
  split.
  - unfold rank, trimmed. rewrite slice_0, sortEntries_snoc.
    destruct (ahead <? 100)%nat eqn:E.
    + apply Nat.ltb_lt in E. rewrite take_app_ge by lia. rewrite Hlen.
      destruct (100 - ahead)%nat as [|m] eqn:Em; [lia|]. cbn [take].
      rewrite findIndex_app_none by done. cbn [findIndex].
      unfold sameDate at 1. rewrite bool_decide_eq_true_2 by done. simpl.
      by rewrite Hlen, Nat.add_0_r.
    + apply Nat.ltb_ge in E. rewrite take_app_le by lia.
      rewrite findIndex_none; [done|].
      by apply Forall_take.
  - unfold top20, trimmed. rewrite !slice_0, take_take, sortEntries_snoc.
    change (20 `min` 100)%nat with 20%nat. split.
    + intros Hin. destruct (decide (ahead < 20)%nat) as [|Hge]; [done|]. exfalso.
      rewrite take_app_le in Hin by lia.
      apply (sublist_subseteq _ _ (sublist_take _ _)) in Hin.
      rewrite Forall_forall in Hfront. specialize (Hfront _ Hin).
      unfold sameDate in Hfront. by apply bool_decide_eq_false_1 in Hfront.
    + intros Hlt. rewrite take_app_ge by lia. rewrite Hlen.
      apply elem_of_app. right.
      destruct (20 - ahead)%nat as [|m] eqn:Em; [lia|]. cbn [take].
      apply list_elem_of_here.
Qed.

Lemma insertEntry_first (x : Entry) (l : list Entry) :
  Forall (fun z => (e_nbRondPoints z ≤ e_nbRondPoints x)%nat) l →
  insertEntry x l = x :: l.
Proof.
  destruct 1 as [|z l Hz _]; simpl; [done|].
  by assert ((e_nbRondPoints x <? e_nbRondPoints z)%nat = false) as ->
    by (apply Nat.ltb_ge; lia).
Qed.

Lemma insertEntry_filter (f : Entry → bool) (x : Entry) (l : list Entry) :
  descending l →
  List.filter f (insertEntry x l) =
  if f x then insertEntry x (List.filter f l) else List.filter f l.
Proof.
  unfold descending. induction 1 as [|y l Hl IH Hy].
  { simpl. by destruct (f x). }
  cbn [insertEntry].
  destruct (e_nbRondPoints x <? e_nbRondPoints y)%nat eqn:E.
  - cbn [List.filter]. rewrite IH. destruct (f y), (f x); try done.
    cbn [insertEntry]. by rewrite E.
  - apply Nat.ltb_ge in E.
    assert (insertEntry x (List.filter f (y :: l)) = x :: List.filter f (y :: l)) as Hfl.
    { apply insertEntry_first. apply Forall_forall. intros z Hz.
      apply list_elem_of_In, filter_In in Hz as [Hz _].
      destruct Hz as [<-|Hz]; [done|].
      rewrite Forall_forall in Hy. apply list_elem_of_In, Hy in Hz. lia. }
    rewrite Hfl. cbn [List.filter]. by destruct (f x).
Qed.

(** Sorting and filtering commute: the sort is stable. *)
Lemma sortEntries_filter (f : Entry → bool) (l : list Entry) :
  sortEntries (List.filter f l) = List.filter f (sortEntries l).
Proof.
  induction l as [|x l IH]; [done|].
  change (sortEntries (x :: l)) with (insertEntry x (sortEntries l)).
  rewrite insertEntry_filter by apply sortEntries_descending.
  cbn [List.filter]. destruct (f x); [|done].
  change (sortEntries (x :: List.filter f l))
    with (insertEntry x (sortEntries (List.filter f l))).
  by rewrite IH.
Qed.

Lemma descending_take (n : nat) (l : list Entry) : descending l → descending (take n l).
Proof.
  intros H. apply (StronglySorted_app_1_l _ _ (drop n l)). by rewrite take_drop.
Qed.

Lemma take_push_take {A : Type} (n : nat) (front back : list A) (x : A) :
  take n (take n front ++ x :: take (n - length front) back) =
  take n (front ++ x :: back).
Proof.
  destruct (decide (n ≤ length front)%nat) as [Hle|Hgt].
  - rewrite !take_app_le by (rewrite ?length_take; lia).
    by rewrite take_take, Nat.min_id.
  - rewrite (take_ge front) by lia. rewrite !take_app_ge by lia.
    f_equal. destruct (n - length front)%nat as [|m]; [done|]. cbn [take].
    f_equal. rewrite take_take. f_equal. lia.
Qed.

Lemma filter_take_app {A : Type} (f g : A → bool) (n : nat) (front back : list A) :
  Forall (fun x => f x = true ∧ g x = false) front →
  Forall (fun x => f x = false ∧ g x = true) back →
  List.filter f (take n (front ++ back)) = take n front ∧
  List.filter g (take n (front ++ back)) = take (n - length front) back.
Proof.
  intros Hf Hb. rewrite take_app, !List.filter_app.
  assert (∀ (h : A → bool) l, Forall (fun x => h x = true) l → List.filter h l = l) as Hall.
  { intros h l H. apply forallb_filter_id, forallb_forall. intros x Hx.
    rewrite Forall_forall in H. by apply H, list_elem_of_In. }
  rewrite (Hall f (take n front)), (Hall g (take (n - length front) back)).
  - rewrite (filter_none f (take (n - length front) back)).
    + rewrite (filter_none g (take n front)).
      * by rewrite app_nil_r.
      * apply Forall_take. eapply Forall_impl; [exact Hf|]. by intros x [_ ?].
    + apply Forall_take. eapply Forall_impl; [exact Hb|]. by intros x [? _].
  - apply Forall_take. eapply Forall_impl; [exact Hb|]. by intros x [_ ?].
  - apply Forall_take. eapply Forall_impl; [exact Hf|]. by intros x [? _].
Qed.

(** Pushing an entry on the first hundred of a sorted list gives the first
    hundred of the whole list with the entry. *)
Lemma trimmed_take (sorted : list Entry) (entry : Entry) :
  descending sorted →
  take 100 (sortEntries (take 100 sorted ++ [entry])) =
  take 100 (sortEntries (sorted ++ [entry])).
Proof.
  intros Hd. rewrite !sortEntries_snoc.
  rewrite !descending_fixed
    by (apply descending_filter; first [by apply descending_take|done]).
  destruct (descending_split entry sorted Hd) as [E1 E2].
  assert (sorted = atLeast entry sorted ++ below entry sorted) as Es.
  { rewrite E1 at 1. rewrite E2. by rewrite take_drop. }
  destruct (filter_take_app
              (fun x => (e_nbRondPoints entry <=? e_nbRondPoints x)%nat)
              (fun x => (e_nbRondPoints x <? e_nbRondPoints entry)%nat)
              100 (atLeast entry sorted) (below entry sorted)) as [F1 F2].
  { apply Forall_forall. intros x Hx.
    apply list_elem_of_In, filter_In in Hx as [_ Hx]. split; [done|].
    apply Nat.leb_le in Hx. apply Nat.ltb_ge. lia. }
  { apply Forall_forall. intros x Hx.
    apply list_elem_of_In, filter_In in Hx as [_ Hx]. split; [|done].
    apply Nat.ltb_lt in Hx. apply Nat.leb_gt. lia. }
  rewrite <- Es in F1, F2. unfold atLeast at 1, below at 1.
  rewrite F1, F2. apply take_push_take.
Qed.

Lemma sortEntries_sorted_snoc (l : list Entry) (entry : Entry) :
  sortEntries (sortEntries l ++ [entry]) = sortEntries (l ++ [entry]).
Proof.
  rewrite !sortEntries_snoc. unfold atLeast, below.
  rewrite !sortEntries_filter.
  by rewrite (descending_fixed (sortEntries l)) by apply sortEntries_descending.
Qed.

(** X22. Cutting the list to 100 at every challenge loses nothing of the
    first hundred: after any sequence of entries pushed one by one on an
    empty list, the list is the first hundred of all these entries sorted
    at once, and /api/leaderboard answers the first twenty of them. *)
Theorem leaderboard_history (entries : list Entry) :
  fold_left trimmed entries [] = slice 0 100 (sortEntries entries) ∧
  leaderboardAnswer (Holding (fold_left trimmed entries []))
    = slice 0 20 (sortEntries entries).
Proof.
  assert (fold_left trimmed entries [] = slice 0 100 (sortEntries entries)) as E.
  { induction entries as [|entry entries IH] using rev_ind; [done|].
    rewrite fold_left_app. cbn [fold_left]. rewrite IH. unfold trimmed.
    rewrite !slice_0. rewrite trimmed_take by apply sortEntries_descending.
    by rewrite sortEntries_sorted_snoc. }
  split; [exact E|].
  unfold leaderboardAnswer, loadLeaderboard, top20. rewrite E.
  by rewrite !slice_0, take_take.
Qed.

End Leaderboard.

(** The theorem at a list of one entry and a new entry with as many
    roundabouts: the new entry is second. *)
Lemma rank_of_new_entry_witness :
  rank (trimmed [firstEntry] secondEntry) secondEntry = 2%nat.
Proof.
  destruct (rank_of_new_entry [firstEntry] secondEntry) as [H _]; [|exact H].
  intros x Hx. apply list_elem_of_singleton in Hx as ->. discriminate.
Defined.

(** ** Laws of the services and of the handler *)

Section Services.
Variable site : Site.

Lemma fetchJson_run {A : Type} (service : nat → string → outcome A) (url : string)
    (w : World) :
  fetchJson service url w =
  (service (requests w) url, mkWorld (clock w) (S (requests w)) (console w)).
Proof. unfold fetchJson. by destruct (service (requests w) url). Qed.

Lemma beforeComma_spec (s : JsString) :
  (44%N ∉ beforeComma s) ∧
  (∃ rest, s = beforeComma s ++ rest ∧ (rest = [] ∨ head rest = Some 44%N)).
Proof.
  induction s as [|c s [IH1 (rest & IH2 & IH3)]]; simpl.
  - split; [apply not_elem_of_nil|]. exists []. split; [done|by left].
  - destruct (c =? 44)%N eqn:E.
    + apply N.eqb_eq in E as ->. split; [apply not_elem_of_nil|].
      exists (44%N :: s). split; [done|by right].
    + apply N.eqb_neq in E. split.
      * apply not_elem_of_cons. split; [congruence|done].
      * exists rest. split; [by rewrite IH2 at 1|done].
Qed.

(** What a call of [geocode] does: nothing when the name cannot be
    encoded, one request otherwise. *)
Lemma geocode_run (cityName : JsString) (w : World) :
  match encodeCity site cityName with
  | Thrown err => geocode site cityName w = (Thrown err, w)
  | Returned q =>
      let w' := mkWorld (clock w) (S (requests w)) (console w) in
      match nominatim site (requests w) (geocodeUrl q) with
      | Thrown err => geocode site cityName w = (Thrown err, w')
      | Returned [] =>
          geocode site cityName w =
          (Thrown (Error ("Ville introuvable : " +:+ cityText site cityName)), w')
      | Returned (place :: _) =>
          geocode site cityName w = (Returned (geocoded site place), w')
      end
  end.
Proof.
  unfold geocode. destruct (encodeCity site cityName) as [q|err]; [|done].
  fold (geocodeUrl q). unfold mbind, M_bind. rewrite fetchJson_run.
  destruct (nominatim site (requests w) (geocodeUrl q)) as [[|place rest]|err]; done.
Qed.

Lemma geocode_world (cityName : JsString) (w : World) :
  ∃ o w', geocode site cityName w = (o, w') ∧ oneRequest o w w'.
Proof.
  pose proof (geocode_run cityName w) as H.
  destruct (encodeCity site cityName) as [q|err].
  - simpl in H.
    destruct (nominatim site (requests w) (geocodeUrl q)) as [[|place rest]|err];
      eexists _, _; (split; [exact H|]); repeat split; simpl; first [lia|done].
  - eexists _, _. split; [exact H|]. repeat split; first [lia|done].
Qed.

Lemma geocode_no_comma (cityName : JsString) (w w' : World) (g : Geocoded) :
  geocode site cityName w = (Returned g, w') → 44%N ∉ displayName g.
Proof.
  pose proof (geocode_run cityName w) as H.
  destruct (encodeCity site cityName) as [q|err]; [|congruence].
  simpl in H.
  destruct (nominatim site (requests w) (geocodeUrl q)) as [[|place rest]|err];
    rewrite H; intros [= <- <-]; try done.
  apply beforeComma_spec.
Qed.

(** What a call of [getRoute] does. *)
Lemma getRoute_run (fromLon fromLat toLon toLat : option xnum) (w : World) :
  let w' := mkWorld (clock w) (S (requests w)) (console w) in
  getRoute site fromLon fromLat toLon toLat w =
  match osrm site (requests w) (routeUrl site fromLon fromLat toLon toLat) with
  | Thrown err => (Thrown err, w')
  | Returned data =>
      match routes data with
      | route :: _ =>
          if String.eqb (code data) "Ok" then (Returned route, w')
          else (Thrown (Error "Impossible de calculer un itinéraire"), w')
      | [] => (Thrown (Error "Impossible de calculer un itinéraire"), w')
      end
  end.
Proof.
  unfold getRoute. fold (routeUrl site fromLon fromLat toLon toLat).
  unfold mbind, M_bind. rewrite fetchJson_run.
  destruct (osrm site (requests w) _) as [data|err]; [|done].
  destruct (routes data) as [|route rest]; [done|].
  by destruct (String.eqb (code data) "Ok").
Qed.

Lemma getRoute_world (fromLon fromLat toLon toLat : option xnum) (w : World) :
  ∃ o w', getRoute site fromLon fromLat toLon toLat w = (o, w') ∧ oneRequest o w w'.
Proof.
  unfold getRoute. unfold mbind, M_bind. rewrite fetchJson_run.
  destruct (osrm site (requests w) _) as [data|err].
  - destruct (routes data) as [|route rest].
    + eexists _, _. split; [reflexivity|]. repeat split; simpl; first [lia|done].
    + destruct (String.eqb (code data) "Ok");
        eexists _, _; (split; [reflexivity|]); repeat split; simpl; first [lia|done].
  - eexists _, _. split; [reflexivity|]. repeat split; simpl; first [lia|done].
Qed.

End Services.

Section Handler.
Variable site : Site.

(** The count ends within 13 requests and 60 s. *)
Lemma countRoundabouts_within (geometry : Geometry) (w : World) :
  ∃ o w', countRoundabouts (services site) geometry w = (o, w') ∧
          within 13 (5000 * 12) w w'.
Proof.
  assert (length (computeSegmentBboxes (coordinates geometry) 12) ≤ 12)%nat as Hlen.
  { apply computeSegmentBboxes_length. lia. }
  destruct (countRoundabouts_world (services site) geometry w)
    as (o & w' & E & Hempty & Hroute).
  exists o, w'. split; [exact E|]. unfold within.
  destruct (coordinates geometry) as [|p coords] eqn:Ecoords.
  - destruct (Hempty eq_refl) as [-> ->]. lia.
  - specialize (Hroute ltac:(done)).
    destruct (attemptGain _ _ _).
    + destruct Hroute as [-> ->]. lia.
    + destruct Hroute as [-> ->]. split; [lia|]. split; [lia|].
      apply Nat.add_le_mono_l, Nat.mul_le_mono_l, Hlen.
Qed.

(** What the [catch] block does. *)
Lemma challenge_catch (err : Exn) (w : World) :
  (console_error ["Challenge error:"; inspect site err] ;;
   mret (mkReply 500 (ErrorBody (errorText err)), @None (list Entry))) w =
  (Returned (mkReply 500 (ErrorBody (errorText err)), None),
   mkWorld (clock w) (requests w)
     (console w ++ [Err ["Challenge error:"; inspect site err]])).
Proof. reflexivity. Qed.

Lemma within_refl (w : World) : within 0 0 w w.
Proof. unfold within. lia. Qed.

Lemma within_step (n1 ms1 n2 ms2 n ms : nat) (w1 w2 w3 : World) :
  within n1 ms1 w1 w2 → within n2 ms2 w2 w3 →
  (n1 + n2 ≤ n)%nat → (ms1 + ms2 ≤ ms)%nat → within n ms w1 w3.
Proof. unfold within. lia. Qed.

Lemma oneRequest_within {A : Type} (o : outcome A) (w w' : World) :
  oneRequest o w w' → within 1 0 w w'.
Proof. unfold oneRequest, within. lia. Qed.

(** The handler always answers: it refuses, fails or succeeds, within 16
    requests and 61.1 s. *)
Lemma challenge_run (file : LeaderboardFile) (pseudo villeDepart villeArrivee : JsValue)
    (w : World) :
  ∃ r w', challenge site file pseudo villeDepart villeArrivee w = (Returned r, w') ∧
    within 16 (1100 + 5000 * 12) w w' ∧
    (refused r ∨ failed r ∨ succeeded site file pseudo villeDepart villeArrivee r).
Proof.
  unfold challenge.
  match goal with |- context [try_catch ?b ?h] => set (body := b); set (handler := h) end.
  assert (∃ o w', body w = (o, w') ∧ within 16 (1100 + 5000 * 12) w w' ∧
            match o with
            | Returned r => refused r ∨ succeeded site file pseudo villeDepart villeArrivee r
            | Thrown _ => True
            end) as (o & w' & E & Hw & Ho).
  { subst body. clear handler.
    destruct (checkInputs pseudo villeDepart villeArrivee)
      as [[[error]|[[p d] a]]|err] eqn:Hin.
    - exists (Returned (mkReply 400 (ErrorBody error), None)), w.
      split; [done|]. split; [unfold within; lia|]. left. by exists error.
    - destruct (geocode_world site d w) as (o1 & w1 & E1 & H1).
      unfold mbind at 1, M_bind at 1. rewrite E1.
      apply oneRequest_within in H1.
      destruct o1 as [from|err1].
      2: { exists (Thrown err1), w1. split; [done|]. split; [|done].
           eapply within_step; [exact H1|apply within_refl|lia|lia]. }
      unfold mbind at 1, M_bind at 1, delay at 1. cbv beta iota.
      set (w1' := mkWorld (clock w1 + 1100) (requests w1) (console w1)).
      assert (within 1 1100 w w1') as H1'.
      { unfold within in *. unfold w1'. cbn [requests clock]. lia. }
      destruct (geocode_world site a w1') as (o2 & w2 & E2 & H2).
      unfold mbind at 1, M_bind at 1. rewrite E2.
      apply oneRequest_within in H2.
      assert (within 2 1100 w w2) as H2'.
      { eapply within_step; [exact H1'|exact H2|lia|lia]. }
      destruct o2 as [to|err2].
      2: { exists (Thrown err2), w2. split; [done|]. split; [|done].
           eapply within_step; [exact H2'|apply within_refl|lia|lia]. }
      case_bool_decide as Hsame.
      { eexists _, w2. split; [reflexivity|]. split.
        - eapply within_step; [exact H2'|apply within_refl|lia|lia].
        - left. by eexists. }
      destruct (getRoute_world site (geo_lon from) (geo_lat from) (geo_lon to) (geo_lat to) w2)
        as (o3 & w3 & E3 & H3).
      unfold mbind at 1, M_bind at 1. rewrite E3.
      apply oneRequest_within in H3.
      assert (within 3 1100 w w3) as H3'.
      { eapply within_step; [exact H2'|exact H3|lia|lia]. }
      destruct o3 as [route|err3].
      2: { exists (Thrown err3), w3. split; [done|]. split; [|done].
           eapply within_step; [exact H3'|apply within_refl|lia|lia]. }
      destruct (countRoundabouts_within (geometry route) w3) as (o4 & w4 & E4 & H4).
      unfold mbind at 1, M_bind at 1. rewrite E4.
      assert (within 16 (1100 + 5000 * 12) w w4) as H4'.
      { eapply within_step; [exact H3'|exact H4|lia|lia]. }
      destruct o4 as [count|err4].
      2: { exists (Thrown err4), w4. split; [done|]. by split. }
      unfold mbind at 1, M_bind at 1, now at 1. cbv beta iota zeta.
      set (date := toISOString site w4).
      fold (entryOf p from to route count date).
      set (entry := entryOf p from to route count date).
      set (saved := trimmed (loadLeaderboard file) entry).
      unfold mbind, M_bind, saveLeaderboard.
      destruct (writeFileSync site saved) as [err5|] eqn:Hwrite.
      + exists (Thrown err5), w4. split; [done|]. by split.
      + eexists _, w4. split; [reflexivity|]. split; [done|]. right.
        exists p, d, a, from, to, route, count, date.
        split; [done|]. split; [done|].
        split; [by eapply geocode_no_comma|]. split; [by eapply geocode_no_comma|].
        by split.
    - exists (Thrown err), w. split; [done|]. split; [unfold within; lia|done]. }
  unfold try_catch. rewrite E. destruct o as [r|err].
  - exists r, w'. split; [done|]. split; [done|]. destruct Ho; auto.
  - subst handler. cbv beta. rewrite challenge_catch.
    eexists _, _. split; [reflexivity|]. split.
    + unfold within in *. cbn [requests clock]. lia.
    + right. left. by exists err.
Qed.

(** The run of a challenge whose inputs pass, whose two cities are found
    under different names and whose route is found: it follows the count,
    and succeeds when the count returns and the file is written. *)
Lemma challenge_counted_run (file : LeaderboardFile)
    (pseudo villeDepart villeArrivee : JsValue) (w : World)
    (p d a : JsString) (q1 q2 : string) (place1 place2 : Place)
    (rest1 rest2 : list Place) (data : OsrmData) (route : Route) (rest : list Route)
    (result : outcome nat) (w' : World) :
  let from := geocoded site place1 in
  let to := geocoded site place2 in
  checkInputs pseudo villeDepart villeArrivee = Returned (inr (p, d, a)) →
  encodeCity site d = Returned q1 →
  nominatim site (requests w) (geocodeUrl q1) = Returned (place1 :: rest1) →
  encodeCity site a = Returned q2 →
  nominatim site (S (requests w)) (geocodeUrl q2) = Returned (place2 :: rest2) →
  displayName from ≠ displayName to →
  osrm site (S (S (requests w)))
    (routeUrl site (geo_lon from) (geo_lat from) (geo_lon to) (geo_lat to))
    = Returned data →
  code data = "Ok" → routes data = route :: rest →
  countRoundabouts (services site) (geometry route)
    (mkWorld (clock w + 1100) (S (S (S (requests w)))) (console w))
    = (result, w') →
  (∀ l, writeFileSync site l = None) →
  match result with
  | Returned count =>
      let entry := entryOf p from to route count (toISOString site w') in
      let saved := trimmed (loadLeaderboard file) entry in
      challenge site file pseudo villeDepart villeArrivee w =
      (Returned (mkReply 200 (ResultBody entry (rank saved entry) (top20 saved)),
                 Some saved), w')
  | Thrown err =>
      challenge site file pseudo villeDepart villeArrivee w =
      (Returned (mkReply 500 (ErrorBody (errorText err)), None),
       mkWorld (clock w') (requests w')
         (console w' ++ [Err ["Challenge error:"; inspect site err]]))
  end.
Proof.
  intros from to Hin Hq1 Hn1 Hq2 Hn2 Hdiff Hosrm Hcode Hroutes Hcount Hwrite.
  pose proof (geocode_run site d w) as E1. rewrite Hq1 in E1. cbv zeta in E1.
  rewrite Hn1 in E1. fold from in E1.
  set (w1 := mkWorld (clock w + 1100) (S (requests w)) (console w)).
  pose proof (geocode_run site a w1) as E2. rewrite Hq2 in E2. cbv zeta in E2.
  change (requests w1) with (S (requests w)) in E2.
  rewrite Hn2 in E2. fold to in E2.
  destruct result as [count|err]; cbv zeta;
    (unfold challenge, try_catch; rewrite Hin;
     unfold mbind at 1, M_bind at 1; rewrite E1;
     unfold mbind at 1, M_bind at 1, delay at 1; cbv beta iota;
     cbn [clock requests console]; fold w1;
     unfold mbind at 1, M_bind at 1; rewrite E2;
     rewrite bool_decide_eq_false_2 by done;
     unfold mbind at 1, M_bind at 1; rewrite getRoute_run;
     cbn [clock requests console]; unfold w1; cbn [clock requests console];
     rewrite Hosrm, Hroutes, Hcode, String.eqb_refl;
     unfold mbind at 1, M_bind at 1; rewrite Hcount).
  - unfold mbind at 1, M_bind at 1, now at 1. cbv beta iota zeta.
    unfold mbind, M_bind, saveLeaderboard. by rewrite Hwrite.
  - reflexivity.
Qed.

(** The run of a challenge whose two cities are found under one name. *)
Lemma challenge_same_name_run (file : LeaderboardFile)
    (pseudo villeDepart villeArrivee : JsValue) (w : World)
    (p d a : JsString) (q1 q2 : string) (place1 place2 : Place)
    (rest1 rest2 : list Place) :
  checkInputs pseudo villeDepart villeArrivee = Returned (inr (p, d, a)) →
  encodeCity site d = Returned q1 →
  nominatim site (requests w) (geocodeUrl q1) = Returned (place1 :: rest1) →
  encodeCity site a = Returned q2 →
  nominatim site (S (requests w)) (geocodeUrl q2) = Returned (place2 :: rest2) →
  beforeComma (display_name place1) = beforeComma (display_name place2) →
  challenge site file pseudo villeDepart villeArrivee w =
  (Returned (mkReply 400 (ErrorBody "Les deux villes doivent être différentes !"), None),
   mkWorld (clock w + 1100) (S (S (requests w))) (console w)).
Proof.
  intros Hin Hq1 Hn1 Hq2 Hn2 Hsame.
  unfold challenge, try_catch. rewrite Hin.
  pose proof (geocode_run site d w) as E1. rewrite Hq1 in E1. cbv zeta in E1.
  rewrite Hn1 in E1.
  unfold mbind at 1, M_bind at 1. rewrite E1.
  unfold mbind at 1, M_bind at 1, delay at 1. cbv beta iota.
  cbn [clock requests console].
  set (w1 := mkWorld (clock w + 1100) (S (requests w)) (console w)).
  pose proof (geocode_run site a w1) as E2. rewrite Hq2 in E2. cbv zeta in E2.
  change (requests w1) with (S (requests w)) in E2.
  rewrite Hn2 in E2.
  unfold mbind at 1, M_bind at 1. rewrite E2.
  by rewrite bool_decide_eq_true_2 by exact Hsame.
Qed.

End Handler.

Section HandlerLaws.
Variable site : Site.

(** X23. The handler of /api/challenge always answers and never throws: with
    status 200, 400 or 500; it answers 200 exactly when it has written the
    leaderboard file without error; it makes 16 requests at most and waits
    61.1 s at most; and
    when its input checks refuse the request it answers 400 with their
    message and does nothing else: no request, no wait, no console line. *)
Theorem challenge_always_answers (file : LeaderboardFile)
    (pseudo villeDepart villeArrivee : JsValue) (w : World) :
  ∃ reply saved w',
    challenge site file pseudo villeDepart villeArrivee w = (Returned (reply, saved), w') ∧
    (reply_status reply = 200 ∨ reply_status reply = 400 ∨ reply_status reply = 500)%nat ∧
    (is_Some saved ↔ reply_status reply = 200%nat) ∧
    (requests w ≤ requests w' ≤ requests w + 16)%nat ∧
    (clock w ≤ clock w' ≤ clock w + (1100 + 5000 * 12))%nat ∧
    (∀ error,
       checkInputs pseudo villeDepart villeArrivee = Returned (inl (BadRequest error)) →
       reply = mkReply 400 (ErrorBody error) ∧ w' = w).
Proof.
  destruct (challenge_run site file pseudo villeDepart villeArrivee w)
    as ([reply saved] & w' & E & [Hreq Hclock] & Hcases).
  exists reply, saved, w'. split; [exact E|].
  assert ((reply_status reply = 200 ∨ reply_status reply = 400 ∨ reply_status reply = 500)%nat
          ∧ (is_Some saved ↔ reply_status reply = 200%nat)) as [H1 H2].
  { destruct Hcases as [[error [= -> ->]]|[[err [= -> ->]]|Hs]].
    - split; [by right; left|]. split; [by intros [? ?]|done].
    - split; [by right; right|]. split; [by intros [? ?]|done].
    - destruct Hs as (p & d & a & from & to & route & count & date & _ & _ & _ & _ & Hs).
      cbv zeta in Hs. destruct Hs as [_ [= -> ->]].
      split; [by left|]. split; [done|by eexists]. }
  split; [exact H1|]. split; [exact H2|]. split; [exact Hreq|]. split; [exact Hclock|].
  intros error Hin. unfold challenge, try_catch in E. rewrite Hin in E.
  simpl in E. by injection E as <- _ <-.
Qed.

(** X24. What the handler writes to the file is the old list with one new
    entry, sorted and cut: 100 entries at most, in descending order of
    roundabouts.  In the new entry the pseudo has 1 to 20 characters, none of
    which [sanitize] removes, and no white space at its ends; the two city
    names differ and hold no comma; the ratio is the one of its count and
    its distance; and the answer carries this entry with its rank and the
    first twenty of the list. *)
Theorem challenge_stored_entry (file : LeaderboardFile)
    (pseudo villeDepart villeArrivee : JsValue) (w : World) :
  ∃ reply saved w',
    challenge site file pseudo villeDepart villeArrivee w = (Returned (reply, saved), w') ∧
    ∀ l, saved = Some l →
      ∃ entry,
        l = trimmed (loadLeaderboard file) entry ∧
        payload reply = ResultBody entry (rank l entry) (top20 l) ∧
        (length l ≤ 100)%nat ∧ descending l ∧
        accepted 20 (e_pseudo entry) ∧
        (∀ c, last (e_pseudo entry) = Some c → isWhiteSpace c = false) ∧
        e_villeDepart entry ≠ e_villeArrivee entry ∧
        (44%N ∉ e_villeDepart entry) ∧ (44%N ∉ e_villeArrivee entry) ∧
        e_ratio entry = ratio (e_nbRondPoints entry) (e_distanceKm entry).
Proof.
  destruct (challenge_run site file pseudo villeDepart villeArrivee w)
    as ([reply saved] & w' & E & _ & Hcases).
  exists reply, saved, w'. split; [exact E|]. intros l ->.
  destruct Hcases as [[error [= _ ?]]|[[err [= _ ?]]|Hs]]; try done.
  destruct Hs as (p & d & a & from & to & route & count & date
                  & Hin & Hdiff & Hc1 & Hc2 & Hs).
  cbv zeta in Hs. destruct Hs as [_ [= -> ->]].
  destruct (checkInputs_spec pseudo villeDepart villeArrivee) as [_ Hacc].
  destruct (Hacc p d a Hin) as (_ & _ & _ & Hp & Hlast).
  destruct (trimmed_spec (loadLeaderboard file) (entryOf p from to route count date))
    as (Hlen & Hdesc & _).
  eexists. split; [reflexivity|]. split; [reflexivity|].
  split; [rewrite Hlen; lia|].
  split; [exact Hdesc|]. split; [exact Hp|]. split; [exact Hlast|].
  split; [exact Hdiff|]. split; [exact Hc1|]. split; [exact Hc2|]. reflexivity.
Qed.

(** X25. When the input checks pass, both cities are found and their names
    differ, the router answers Ok with a route and the file can be written,
    the handler follows [countRoundabouts], called on the geometry of the
    route after three requests and 1.1 s.  When the count returns the
    handler answers 200 with the entry made of this count, dated when the
    count returns.  When the count throws the handler answers 500 with the
    message of the error, writes nothing to the file and writes the error on
    the console. *)
Theorem challenge_succeeds (file : LeaderboardFile)
    (pseudo villeDepart villeArrivee : JsValue) (w : World)
    (p d a : JsString) (q1 q2 : string) (place1 place2 : Place)
    (rest1 rest2 : list Place) (data : OsrmData) (route : Route) (rest : list Route) :
  let from := geocoded site place1 in
  let to := geocoded site place2 in
  checkInputs pseudo villeDepart villeArrivee = Returned (inr (p, d, a)) →
  encodeCity site d = Returned q1 →
  nominatim site (requests w) (geocodeUrl q1) = Returned (place1 :: rest1) →
  encodeCity site a = Returned q2 →
  nominatim site (S (requests w)) (geocodeUrl q2) = Returned (place2 :: rest2) →
  displayName from ≠ displayName to →
  osrm site (S (S (requests w)))
    (routeUrl site (geo_lon from) (geo_lat from) (geo_lon to) (geo_lat to))
    = Returned data →
  code data = "Ok" → routes data = route :: rest →
  (∀ l, writeFileSync site l = None) →
  ∃ result w',
    countRoundabouts (services site) (geometry route)
      (mkWorld (clock w + 1100) (S (S (S (requests w)))) (console w))
      = (result, w') ∧
    match result with
    | Returned count =>
        let entry := entryOf p from to route count (toISOString site w') in
        let saved := trimmed (loadLeaderboard file) entry in
        challenge site file pseudo villeDepart villeArrivee w =
        (Returned (mkReply 200 (ResultBody entry (rank saved entry) (top20 saved)),
                   Some saved), w')
    | Thrown err =>
        challenge site file pseudo villeDepart villeArrivee w =
        (Returned (mkReply 500 (ErrorBody (errorText err)), None),
         mkWorld (clock w') (requests w')
           (console w' ++ [Err ["Challenge error:"; inspect site err]]))
    end.
Proof.
  intros from to Hin Hq1 Hn1 Hq2 Hn2 Hdiff Hosrm Hcode Hroutes Hwrite.
  destruct (countRoundabouts_within site (geometry route)
              (mkWorld (clock w + 1100) (S (S (S (requests w)))) (console w)))
    as (result & w' & Hcount & _).
  exists result, w'. split; [exact Hcount|].
  by eapply challenge_counted_run.
Qed.

(** X26. When both cities are found and the texts before the first comma
    of their display names are equal, the handler answers 400 ("Les deux
    villes doivent être différentes !") after two requests and 1.1 s, asks
    for no route, counts nothing and writes nothing, whether the two places
    are one place or not. *)
Theorem challenge_same_name (file : LeaderboardFile)
    (pseudo villeDepart villeArrivee : JsValue) (w : World)
    (p d a : JsString) (q1 q2 : string) (place1 place2 : Place)
    (rest1 rest2 : list Place) :
  checkInputs pseudo villeDepart villeArrivee = Returned (inr (p, d, a)) →
  encodeCity site d = Returned q1 →
  nominatim site (requests w) (geocodeUrl q1) = Returned (place1 :: rest1) →
  encodeCity site a = Returned q2 →
  nominatim site (S (requests w)) (geocodeUrl q2) = Returned (place2 :: rest2) →
  beforeComma (display_name place1) = beforeComma (display_name place2) →
  challenge site file pseudo villeDepart villeArrivee w =
  (Returned (mkReply 400 (ErrorBody "Les deux villes doivent être différentes !"), None),
   mkWorld (clock w + 1100) (S (S (requests w))) (console w)).
Proof. apply challenge_same_name_run. Qed.

(** X27. A call of [geocode] makes one request at most, does not wait and
    writes nothing on the console.  When it returns it has made one
    request, and the name it gives is the display name of the first place
    found up to its first comma: it holds no comma.  When the geocoder finds
    no place it throws "Ville introuvable : " followed by the name. *)
Theorem geocode_outcome (cityName : JsString) (w : World) :
  ∃ o w', geocode site cityName w = (o, w') ∧
    oneRequest o w w' ∧
    (∀ g, o = Returned g →
       (44%N ∉ displayName g) ∧
       ∃ q place rest tail,
         encodeCity site cityName = Returned q ∧
         nominatim site (requests w) (geocodeUrl q) = Returned (place :: rest) ∧
         g = geocoded site place ∧
         display_name place = displayName g ++ tail ∧
         (tail = [] ∨ head tail = Some 44%N)) ∧
    (∀ q, encodeCity site cityName = Returned q →
          nominatim site (requests w) (geocodeUrl q) = Returned [] →
          o = Thrown (Error ("Ville introuvable : " +:+ cityText site cityName))).
Proof.
  destruct (geocode_world site cityName w) as (o & w' & E & Hone).
  exists o, w'. split; [exact E|]. split; [exact Hone|].
  pose proof (geocode_run site cityName w) as Hrun. split.
  - intros g ->. split; [by eapply geocode_no_comma|].
    destruct (encodeCity site cityName) as [q|err]; [|congruence].
    cbv zeta in Hrun.
    destruct (nominatim site (requests w) (geocodeUrl q)) as [[|place rest]|err] eqn:Hn;
      rewrite Hrun in E; try (by injection E).
    injection E as <- _.
    destruct (beforeComma_spec (display_name place)) as [_ (tail & Htail & Hhead)].
    by exists q, place, rest, tail.
  - intros q Hq Hn. rewrite Hq in Hrun. cbv zeta in Hrun. rewrite Hn in Hrun.
    rewrite Hrun in E. by injection E as <- _.
Qed.

End HandlerLaws.

(** The theorem at a service that finds Paris, then Lyon, and a route of
    250 km. *)
Lemma challenge_succeeds_witness :
  ∃ r w', challenge demoSite Absent (JsStr bob) (JsStr paris) (JsStr lyon) emptyWorld
          = (Returned r, w') ∧ reply_status r.1 = 200%nat.
Proof.
  destruct (challenge_succeeds demoSite Absent (JsStr bob) (JsStr paris) (JsStr lyon)
              emptyWorld bob paris lyon "city" "city"
              (mkPlace "0" "0" paris) (mkPlace "0" "0" lyon) [] []
              (mkOsrmData "Ok" [mkRoute twoPoints 250000 9000])
              (mkRoute twoPoints 250000 9000) [])
    as (result & w' & Hcount & E); try reflexivity.
  - intros H. vm_compute in H. discriminate H.
  - destruct (countRoundabouts_returns directHost twoPoints (mkWorld 1100 3 []))
      as [Hret _].
    destruct Hret as (w0 & E0).
    { change (wellFormed [Whole aNode; Whole aNode]). repeat constructor; by eexists. }
    change (countRoundabouts directHost twoPoints (mkWorld 1100 3 []) = (result, w'))
      in Hcount.
    rewrite E0 in Hcount. injection Hcount as <- <-.
    eexists _, w0. split; [exact E|reflexivity].
Defined.

(** The theorem at a service that finds two places whose display names
    start alike. *)
Lemma challenge_same_name_witness :
  challenge twinSite Absent (JsStr bob) (JsStr paris) (JsStr lyon) emptyWorld =
  (Returned (mkReply 400 (ErrorBody "Les deux villes doivent être différentes !"), None),
   mkWorld 1100 2 []).
Proof.
  apply (challenge_same_name twinSite Absent (JsStr bob) (JsStr paris) (JsStr lyon)
           emptyWorld bob paris lyon "city" "city"
           (mkPlace "0" "0" denisNorth) (mkPlace "0" "0" denisSouth) [] []);
    reflexivity.
Defined.

(** ** The handler of /api/autocomplete *)

Section Suggestions.

Variable site : Site.

Lemma splitComma_pieces (s : JsString) : ∃ piece more, splitComma s = piece :: more.
Proof.
  destruct s as [|c s]; [by eexists _, _|]. cbn [splitComma].
  destruct (c =? 44)%N; [by eexists _, _|].
  destruct (splitComma s); by eexists _, _.
Qed.

Lemma splitComma_head (s : JsString) : head (splitComma s) = Some (beforeComma s).
Proof.
  induction s as [|c s IH]; [done|]. cbn [splitComma beforeComma].
  destruct (c =? 44)%N; [done|].
  destruct (splitComma s) as [|piece more]; [done|].
  cbn in IH. injection IH as ->. done.
Qed.

Lemma commas_cons (c : N) (s : JsString) :
  commas (c :: s) = if (c =? 44)%N then S (commas s) else commas s.
Proof.
  unfold commas. cbn [List.filter]. rewrite (N.eqb_sym 44 c).
  by destruct (c =? 44)%N.
Qed.

Lemma commas_app (s t : JsString) : commas (s ++ t) = (commas s + commas t)%nat.
Proof. unfold commas. by rewrite List.filter_app, length_app. Qed.

Lemma joinComma_cons (piece next : JsString) (more : list JsString) :
  joinComma (piece :: next :: more) = piece ++ 44%N :: joinComma (next :: more).
Proof. done. Qed.

(** Splitting at the commas and joining with commas gives the string back. *)
Lemma joinComma_splitComma (s : JsString) : joinComma (splitComma s) = s.
Proof.
  induction s as [|c s IH]; [done|]. cbn [splitComma].
  destruct (splitComma_pieces s) as (piece & more & E). rewrite E in *.
  destruct (c =? 44)%N eqn:Ec.
  - apply N.eqb_eq in Ec as ->. by rewrite joinComma_cons, IH.
  - destruct more as [|next more].
    + cbn in *. by rewrite IH.
    + rewrite joinComma_cons in *. cbn [app]. by rewrite IH.
Qed.

Lemma splitComma_no_comma (s : JsString) :
  Forall (fun piece => commas piece = 0%nat) (splitComma s).
Proof.
  induction s as [|c s IH]; [by apply Forall_singleton|]. cbn [splitComma].
  destruct (c =? 44)%N eqn:Ec; [by apply Forall_cons|].
  destruct (splitComma s) as [|piece more].
  - apply Forall_singleton. by rewrite commas_cons, Ec.
  - apply Forall_cons in IH as [H1 H2]. apply Forall_cons. split; [|done].
    by rewrite commas_cons, Ec.
Qed.

Lemma upToSecondComma (s : JsString) :
  let d := joinComma (slice 0 2 (splitComma s)) in
  (commas d ≤ 1)%nat ∧
  (s = d ∨ ∃ rest, s = d ++ 44%N :: rest ∧ commas d = 1%nat).
Proof.
  cbv zeta. rewrite slice_0.
  pose proof (joinComma_splitComma s) as Hs.
  pose proof (splitComma_no_comma s) as Hc.
  destruct (splitComma s) as [|p1 [|p2 [|p3 more]]].
  - cbn in Hs. subst s. split; [cbn; lia|by left].
  - cbn in Hs. subst s. apply Forall_cons in Hc as [Hc _]. cbv beta in Hc.
    change (joinComma (take 2 [p1])) with p1. split; [lia|by left].
  - apply Forall_cons in Hc as [H1 Hc]. apply Forall_cons in Hc as [Hc _]. cbv beta in *.
    change (take 2 [p1; p2]) with [p1; p2]. rewrite Hs. split; [|by left].
    rewrite <- Hs, joinComma_cons, commas_app, commas_cons. cbn [joinComma N.eqb Pos.eqb].
    lia.
  - apply Forall_cons in Hc as [H1 Hc]. apply Forall_cons in Hc as [H2 _]. cbv beta in *.
    change (take 2 (p1 :: p2 :: p3 :: more)) with [p1; p2].
    assert (commas (joinComma [p1; p2]) = 1%nat) as E.
    { rewrite joinComma_cons, commas_app, commas_cons. cbn [joinComma N.eqb Pos.eqb]. lia. }
    split; [lia|]. right. exists (joinComma (p3 :: more)). split; [|done].
    rewrite <- Hs, !joinComma_cons. cbn [joinComma]. by rewrite <- app_assoc.
Qed.

Lemma beforeComma_none (s : JsString) : commas s = 0%nat → beforeComma s = s.
Proof.
  induction s as [|c s IH]; [done|]. rewrite commas_cons. cbn [beforeComma].
  destruct (c =? 44)%N; [done|]. intros H. by rewrite IH.
Qed.

Lemma beforeComma_app (s rest : JsString) :
  commas s = 0%nat → beforeComma (s ++ 44%N :: rest) = s.
Proof.
  induction s as [|c s IH]; [done|]. rewrite commas_cons. cbn [beforeComma app].
  destruct (c =? 44)%N; [done|]. intros H. by rewrite IH.
Qed.

Lemma beforeComma_upToSecondComma (s : JsString) :
  beforeComma (joinComma (slice 0 2 (splitComma s))) = beforeComma s.
Proof.
  rewrite slice_0.
  pose proof (splitComma_head s) as Hh.
  pose proof (splitComma_no_comma s) as Hc.
  destruct (splitComma s) as [|p1 [|p2 more]]; [done| |].
  - apply Forall_cons in Hc as [Hc _]. cbv beta in Hc.
    injection Hh as <-. change (joinComma (take 2 [p1])) with p1.
    by apply beforeComma_none.
  - apply Forall_cons in Hc as [Hc _]. cbv beta in Hc.
    injection Hh as <-. change (take 2 (p1 :: p2 :: more)) with [p1; p2].
    rewrite joinComma_cons. by apply beforeComma_app.
Qed.

Lemma beforeComma_commas (s : JsString) : commas (beforeComma s) = 0%nat.
Proof.
  induction s as [|c s IH]; [done|]. cbn [beforeComma].
  destruct (c =? 44)%N eqn:Ec; [done|]. by rewrite commas_cons, Ec.
Qed.

Lemma unique_sublist (seen : gset JsString) (l : list Suggestion) :
  unique seen l `sublist_of` l.
Proof.
  revert seen. induction l as [|r l IH]; intros seen; [done|]. cbn [unique].
  case_bool_decide.
  - by apply sublist_cons.
  - by apply sublist_skip.
Qed.

Lemma unique_first (seen : gset JsString) (l : list Suggestion) (r : Suggestion) :
  r ∈ unique seen l →
  (key r ∉ seen) ∧ ∃ before after, l = before ++ r :: after ∧ (key r ∉ key <$> before).
Proof.
  revert seen. induction l as [|x l IH]; intros seen; cbn [unique].
  { intros H. by apply elem_of_nil in H. }
  case_bool_decide as Hx.
  - intros H. apply IH in H as [H1 (before & after & -> & H2)]. split; [done|].
    exists (x :: before), after. split; [done|].
    rewrite fmap_cons, not_elem_of_cons. split; [|done].
    intros E. apply H1. by rewrite E.
  - intros H. apply elem_of_cons in H as [->|H].
    + split; [done|]. exists [], l. split; [done|]. apply not_elem_of_nil.
    + apply IH in H as [H1 (before & after & -> & H2)].
      apply not_elem_of_union in H1 as [H0 H1]. split; [done|].
      exists (x :: before), after. split; [done|].
      rewrite fmap_cons, not_elem_of_cons. split; [|done].
      intros E. apply H0. rewrite E. by apply elem_of_singleton.
Qed.

Lemma unique_NoDup (seen : gset JsString) (l : list Suggestion) :
  NoDup (key <$> unique seen l).
Proof.
  revert seen. induction l as [|x l IH]; intros seen; cbn [unique]; [apply NoDup_nil_2|].
  case_bool_decide as Hx; [apply IH|].
  rewrite fmap_cons. apply NoDup_cons. split; [|apply IH].
  intros H. apply list_elem_of_fmap in H as (r & E & H).
  apply unique_first in H as [H _]. apply H. rewrite <- E.
  apply elem_of_union. left. by apply elem_of_singleton.
Qed.

Lemma unique_complete (seen : gset JsString) (l : list Suggestion) (r : Suggestion) :
  r ∈ l → key r ∈ seen ∨ ∃ r', r' ∈ unique seen l ∧ key r' = key r.
Proof.
  revert seen. induction l as [|x l IH]; intros seen H.
  { by apply elem_of_nil in H. }
  cbn [unique]. apply elem_of_cons in H as [->|H].
  - case_bool_decide as Hx; [by left|]. right. exists x. split; [|done].
    apply list_elem_of_here.
  - case_bool_decide as Hx.
    + by apply IH.
    + destruct (IH ({[key x]} ∪ seen) H) as [Hin|(r' & Hr' & E)].
      * apply elem_of_union in Hin as [Hin|Hin]; [|by left].
        apply elem_of_singleton in Hin. right. exists x. split; [|done].
        apply list_elem_of_here.
      * right. exists r'. split; [|done]. by apply list_elem_of_further.
Qed.

(** X28. The suggestions answered are results of the items that pass the
    filter, in the order of the geocoder's answer; no two of them have the
    same key name-department; every result has a suggestion with its key,
    and the suggestion kept for a key is the first result that has it. *)
Theorem suggestions_laws (data : list Item) :
  let results := suggestion site <$> List.filter isPlace data in
  suggestions site data `sublist_of` results ∧
  NoDup (key <$> suggestions site data) ∧
  (∀ r, r ∈ results → ∃ r', r' ∈ suggestions site data ∧ key r' = key r) ∧
  (∀ r, r ∈ suggestions site data →
     ∃ before after, results = before ++ r :: after ∧ (key r ∉ key <$> before)) ∧
  (∀ r, r ∈ suggestions site data →
     ∃ item, item ∈ data ∧ isPlace item = true ∧ r = suggestion site item) ∧
  (length (suggestions site data) ≤ length data)%nat.
Proof.
  intros results. unfold suggestions. fold results.
  pose proof (unique_sublist ∅ results) as Hsub.
  split; [done|]. split; [apply unique_NoDup|]. split; [|split; [|split]].
  - intros r Hr. destruct (unique_complete ∅ results r Hr) as [H|H]; [|done].
    by apply elem_of_empty in H.
  - intros r Hr. by apply unique_first in Hr as [_ H].
  - intros r Hr. apply (sublist_subseteq _ _ Hsub) in Hr.
    apply list_elem_of_fmap in Hr as (item & -> & Hitem).
    apply list_elem_of_In, filter_In in Hitem as [Hin Hp].
    exists item. split; [by apply list_elem_of_In|done].
  - apply sublist_length in Hsub. subst results.
    rewrite length_fmap in Hsub.
    pose proof (List.filter_length_le isPlace data). lia.
Qed.

(** X29. The displayName of a suggestion is the display name of its item up
    to its second comma: it holds one comma at most, and the display name
    is this text, or this text with one comma, then a comma and a rest.
    When no field city, town, village or municipality of the address is a
    string that is not empty, the name is the displayName up to its comma
    and holds no comma. *)
Theorem suggestion_texts (item : Item) :
  let r := suggestion site item in
  (commas (s_displayName r) ≤ 1)%nat ∧
  (item_display_name item = s_displayName r ∨
   ∃ rest, item_display_name item = s_displayName r ++ 44%N :: rest ∧
           commas (s_displayName r) = 1%nat) ∧
  (isTruthy (placeType item) = false →
     s_name r = beforeComma (s_displayName r) ∧ commas (s_name r) = 0%nat).
Proof.
  cbv zeta. cbn [suggestion s_displayName s_name].
  destruct (upToSecondComma (item_display_name item)) as [H1 H2].
  split; [exact H1|]. split; [exact H2|].
  intros Hp. rewrite beforeComma_upToSecondComma.
  assert (orString (placeType item) (beforeComma (item_display_name item))
          = beforeComma (item_display_name item)) as ->.
  { unfold isTruthy in Hp. unfold orString.
    by destruct (placeType item) as [[|c s]|]. }
  split; [done|]. apply beforeComma_commas.
Qed.

End Suggestions.

Section AutocompleteLaws.

Variable site : Site.
Variable finder : Finder.

(** X30. The handler of /api/autocomplete always answers a list and never
    throws; it makes one request at most and does not wait.  For a query
    that is absent, empty or shorter than two code units once trimmed it
    answers the empty list and does nothing else.  It writes one console
    line at most, and then it answers the empty list.  An answer that is
    not empty comes from a string query, after exactly one request, at the
    address made of the encoded trimmed query, and is [suggestions] of the
    data received. *)
Theorem autocomplete_always_answers (q : JsValue) (w : World) :
  ∃ answer w',
    autocomplete site finder q w = (Returned answer, w') ∧
    clock w' = clock w ∧
    (requests w ≤ requests w' ≤ requests w + 1)%nat ∧
    (falsy q = true → answer = [] ∧ w' = w) ∧
    (∀ s, q = JsStr s → (length (trim s) < 2)%nat → answer = [] ∧ w' = w) ∧
    (console w' = console w ∨
     ∃ err, console w' = console w ++ [Err ["Autocomplete error:"; inspect site err]] ∧
            answer = []) ∧
    (answer ≠ [] →
       ∃ s text data,
         q = JsStr s ∧ encodeCity site (trim s) = Returned text ∧
         search finder (requests w) (autocompleteUrl text) = Returned data ∧
         answer = suggestions site data ∧
         w' = mkWorld (clock w) (S (requests w)) (console w)).
Proof.
  assert (∀ s, (if falsy q then JsStr [] else q) = JsStr s →
          (falsy q = true → isEmpty s = true) ∧ (∀ s', q = JsStr s' → s' = s)) as Hq.
  { intros s. destruct q as [s0|[|] shown]; cbn [falsy negb].
    - destruct s0; cbn [isEmpty]; intros [= <-]; split; try done; by intros s' [= <-].
    - done.
    - intros [= <-]. split; [done|]. by intros s' [=]. }
  unfold autocomplete, try_catch.
  destruct (if falsy q then JsStr [] else q) as [s|t shown] eqn:Eq.
  - destruct (Hq s eq_refl) as [Hf Hs]. clear Hq. cbv zeta.
    destruct (length (trim s) <? 2)%nat eqn:El.
    + exists [], w. unfold mret, M_ret. repeat split; try lia; try done.
      by left.
    + apply Nat.ltb_ge in El.
      assert (falsy q = false) as Hnf.
      { destruct (falsy q); [|done]. specialize (Hf eq_refl). destruct s; [|done].
        cbn in El. lia. }
      destruct (encodeCity site (trim s)) as [text|err] eqn:Ee.
      * unfold mbind, M_bind, fetchJson.
        change ("https://nominatim.openstreetmap.org/search?" +:+ "q=" +:+ text +:+
                "&format=json&limit=8&countrycodes=fr" +:+ "&addressdetails=1&dedupe=1")
          with (autocompleteUrl text).
        destruct (search finder (requests w) (autocompleteUrl text)) as [data|err] eqn:Es.
        -- eexists _, _. unfold mret, M_ret. split; [done|]. cbn [clock requests console].
           split; [done|]. split; [lia|]. split; [by rewrite Hnf|].
           split; [intros s' E H; apply Hs in E as ->; lia|]. split; [by left|].
           intros _. destruct q as [s0|t0 shown0]; [|by destruct t0].
           specialize (Hs s0 eq_refl) as ->. by exists s, text, data.
        -- eexists _, _. unfold console_error, mret, M_ret. split; [done|].
           cbn [clock requests console].
           split; [done|]. split; [lia|]. split; [by rewrite Hnf|].
           split; [intros s' E H; apply Hs in E as ->; lia|].
           split; [right; by exists err|done].
      * eexists _, _. unfold throw, mbind, M_bind, console_error, mret, M_ret.
        split; [done|]. cbn [clock requests console].
        split; [done|]. split; [lia|]. split; [by rewrite Hnf|].
        split; [intros s' E H; apply Hs in E as ->; lia|].
        split; [right; by exists err|done].
  - assert (falsy q = false ∧ ∀ s, q ≠ JsStr s) as [Hnf Hns].
    { destruct q as [s0|[|] shown0]; cbn [falsy negb] in *; try done.
      by destruct (isEmpty s0). }
    eexists _, _. unfold throw, mbind, M_bind, console_error, mret, M_ret.
    split; [done|]. cbn [clock requests console].
    split; [done|]. split; [lia|]. split; [by rewrite Hnf|].
    split; [intros s' E; by apply Hns in E|].
    split; [right; by exists (trimError finder)|done].
Qed.

End AutocompleteLaws.
